(** * Verification of the signal analyzer (signal_analyzer.py)

    A shallow embedding of [SignalAnalyzer]: the track bank, the
    phase-locked frequency estimator, the trend correlation and the file
    driver, followed by the properties of the specification.

    The code computes on IEEE-754 binary64 numbers and calls numpy.  The
    embedding is written once, over an interface of the operations the code
    uses ([Arith] for arithmetic and comparisons, [NumPy] for the library
    calls), and is read at two instances:
    - [Binary64]: binary64 itself (primitive floats), bit for bit: the
      arithmetic, the remainder [%] and the summation of [np.sum] and
      [np.mean] are those of the platform, the transcendental functions,
      the FFT, the window and the median are left as parameters;
    - [Exact]: the real numbers, the arithmetic the algorithm is designed
      in, with the library calls given by their mathematical definitions.
    Properties of the control flow, of the bank and of the aggregation are
    proved for every instance.  Bounds on the values (angle range,
    correlation) are proved at [Exact] and confronted with [Binary64],
    where they are evaluated at the inputs on which rounding breaks them.

    A float that is NaN is no usable key: [==] fails on it, while a Python
    dict finds it by identity.  The statements on the keys of the dict are
    made for numbers ([is_number]).

    [self.tracks] is a dict from a float key to a track state, itself a
    mutable dict that the code files under a new key at every update: the
    embedding keeps the track states in a store and the dict as an ordered
    list of keys with references into it, so that a state held under two keys
    is one state.

    The result file, the experiment of run_experiment.py and the signal
    generators of generate_signals.py follow the analyzer: [process_file_csv]
    is [process_file] with the row it writes, [main] the loop over the
    shuffled tasks, with the shuffle, the recorded signals and the clock
    given from outside.

    Left out: the messages printed, the temporary files of the experiment
    and the averaging of the channels of a file that is not mono. *)

From Stdlib Require Import Floats Uint63.
From Stdlib Require Import ZArith List Bool Arith Lia Sorted Permutation.
From Stdlib Require Import Reals Lra Psatz.
From Stdlib Require String.
Import ListNotations.

(** ** The numeric interface *)

(** The float64 operations of the Python code. [lt_inf x] is
    [x < float('inf')] and [inf_le x] is [float('inf') <= x]: the only two
    uses of infinity in the source. *)
Class Arith (F : Type) : Type := {
  fadd : F -> F -> F;
  fsub : F -> F -> F;
  fmul : F -> F -> F;
  fdiv : F -> F -> F;
  fabs : F -> F;
  fsqrt : F -> F;
  flt : F -> F -> bool;
  fle : F -> F -> bool;
  feq : F -> F -> bool;
  lt_inf : F -> bool;
  inf_le : F -> bool;
  of_int : Z -> F;
  lit_0_9 : F;
  lit_0_1 : F;
  lit_1e_10 : F;
  lit_1e_12 : F;
  lit_1e_9 : F;
  np_pi : F
}.

(** The numpy calls of the code: [%] on float64, [np.cos], [np.sin] (the
    two components of [np.exp] of an imaginary number), [np.arctan2]
    ([np.angle]), [np.sum] (also inside [np.mean] and [np.vdot]),
    [np.hanning], [np.abs(np.fft.rfft(_))] and [np.median]. *)
Class NumPy (F : Type) : Type := {
  np_mod : F -> F -> F;
  np_cos : F -> F;
  np_sin : F -> F;
  np_arctan2 : F -> F -> F;
  np_sum : list F -> F;
  np_hanning : nat -> list F;
  np_rfft_abs : list F -> list F;
  np_median : list F -> F
}.

(** Float [==] as the comparison of dict keys: symmetric and transitive,
    on the reals and on binary64 alike. It is reflexive on numbers only
    (a NaN differs from itself), so reflexivity is asked of the keys it is
    needed for, where it is needed. *)
Class KeyEq (F : Type) {A : Arith F} : Prop := {
  feq_sym : forall k k' : F, feq k k' = feq k' k;
  feq_trans : forall k k' k'' : F, feq k k' = true -> feq k' k'' = true -> feq k k'' = true
}.

Arguments KeyEq F {A}.

(** A float that equals itself: not a NaN. *)
Definition is_number {F : Type} {A : Arith F} (k : F) : Prop := feq k k = true.

(** ** Containers of the source *)

Section Containers.
Context {F : Type} {A : Arith F}.

(** [collections.deque(maxlen=m).append]: the oldest entries fall out. *)
Definition deque_append (maxlen : nat) (d : list F) (v : F) : list F :=
  let d' := d ++ [v] in skipn (length d' - maxlen) d'.

(** [self.tracks]: a Python dict, in insertion order, from a float key to
    a reference to the track's state. Keys compare with float [==]. *)
Definition dict (V : Type) := list (F * V).

Fixpoint dict_find {V} (k : F) (d : dict V) : option V :=
  match d with
  | [] => None
  | (k', v) :: d' => if feq k' k then Some v else dict_find k d'
  end.

Definition dict_mem {V} (k : F) (d : dict V) : bool :=
  match dict_find k d with Some _ => true | None => false end.

(** [d.pop(k, None)], and [d.pop(k)] for a key that is present. *)
Fixpoint dict_pop {V} (k : F) (d : dict V) : dict V :=
  match d with
  | [] => []
  | (k', v) :: d' => if feq k' k then d' else (k', v) :: dict_pop k d'
  end.

(** [d[k] = v]: an existing key keeps its place, a new one goes last. *)
Fixpoint dict_set {V} (k : F) (v : V) (d : dict V) : dict V :=
  match d with
  | [] => [(k, v)]
  | (k', v') :: d' => if feq k' k then (k', v) :: d' else (k', v') :: dict_set k v d'
  end.

Definition values {V} (d : dict V) : list V := map snd d.
End Containers.

Arguments dict F V : clear implicits.

(** The objects the dict refers to live in a store; a reference is an
    index. Mutating a track state mutates it for every key that holds it. *)
Section Store.
Context {T : Type}.

Fixpoint store_set (r : nat) (v : T) (h : list T) : list T :=
  match h, r with
  | [], _ => []
  | _ :: h', O => v :: h'
  | w :: h', S r' => w :: store_set r' v h'
  end.

Definition store_upd (r : nat) (f : T -> T) (h : list T) : list T :=
  match nth_error h r with
  | Some v => store_set r (f v) h
  | None => h
  end.
End Store.

(** ** The analyzer *)

Section Analyzer.
Context {F : Type} {A : Arith F} {L : NumPy F}.

Definition zero : F := of_int 0.
Definition one : F := of_int 1.
Definition two : F := of_int 2.

(** [config.get(...)] as read by [__init__]: the sample rate and the band
    limits are integers, the sizes and counts natural numbers, as the
    defaults are. *)
Record config : Type := {
  FS : Z;
  BLOCK : nat;
  BAND_MIN : Z;
  BAND_MAX : Z;
  PEAK_THRESH : F;
  MAX_TRACKS : nat;
  TIMEOUT_BLOCKS : nat;
  SMOOTH : nat;
  HIST_LEN : nat
}.

Definition TOL_HZ (c : config) : F :=
  fdiv (of_int (FS c)) (of_int (Z.of_nat (BLOCK c))).

(** [np.fft.rfftfreq(BLOCK, d=1/FS)] *)
Definition bins_f (c : config) : list F :=
  let d := fdiv (of_int 1) (of_int (FS c)) in
  let val := fdiv one (fmul (of_int (Z.of_nat (BLOCK c))) d) in
  map (fun k => fmul (of_int (Z.of_nat k)) val) (seq 0 (BLOCK c / 2 + 1)).

Definition band_bins (c : config) : list nat :=
  filter (fun k => fle (of_int (BAND_MIN c)) (nth k (bins_f c) zero)
                   && fle (nth k (bins_f c) zero) (of_int (BAND_MAX c)))
         (seq 0 (BLOCK c / 2 + 1)).

(** The state of one track: the dict built by [_ensure_track]. *)
Record track : Type := {
  f0 : F;
  prev_phase : option F;
  finst_hist : list F;
  mag_hist : list F;
  history : list F;
  miss_count : nat;
  seen : bool
}.

(** The mutable part of an analyzer: the dict and the track objects. *)
Record bank : Type := {
  tracks : dict F nat;
  heap : list track
}.

Definition empty_bank : bank := {| tracks := []; heap := [] |}.

Definition np_mean (l : list F) : F :=
  fdiv (np_sum l) (of_int (Z.of_nat (length l))).

Definition _principal_angle (a : F) : F :=
  fsub (np_mod (fadd a np_pi) (fmul two np_pi)) np_pi.

(** [best_err], which starts at [float('inf')]: [None] is infinity. *)
Definition err_lt (err : F) (best : option F) : bool :=
  match best with None => lt_inf err | Some b => flt err b end.

Definition err_le (best : option F) (tol : F) : bool :=
  match best with None => inf_le tol | Some b => fle b tol end.

Definition nearest (freq : F) (acc : option F * option F) (e : F * nat)
  : option F * option F :=
  let err := fabs (fsub (fst e) freq) in
  if err_lt err (snd acc) then (Some (fst e), Some err) else acc.

Definition _match_track (c : config) (s : bank) (freq : F) : option F :=
  match tracks s with
  | [] => None
  | _ =>
    let best := fold_left (nearest freq) (tracks s) (None, None) in
    if err_le (snd best) (TOL_HZ c) then fst best else None
  end.

Definition new_track (c : config) (freq : F) : track :=
  {| f0 := freq; prev_phase := None; finst_hist := []; mag_hist := [];
     history := []; miss_count := 0; seen := false |}.

Definition _ensure_track (c : config) (s : bank) (freq : F) : bank * option F :=
  if dict_mem freq (tracks s) then (s, Some freq)
  else if MAX_TRACKS c <=? length (tracks s) then (s, None)
  else ({| tracks := tracks s ++ [(freq, length (heap s))];
           heap := heap s ++ [new_track c freq] |}, Some freq).

(** Lines 73-78: what the sweep does to the state of a track. *)
Definition sweep_track (c : config) (seen_update : bool) (st : track) : track :=
  if negb (seen st) then
    {| f0 := f0 st; prev_phase := prev_phase st;
       finst_hist := finst_hist st; mag_hist := mag_hist st;
       history := if seen_update then deque_append (HIST_LEN c) (history st) zero
                  else history st;
       miss_count := S (miss_count st); seen := seen st |}
  else
    {| f0 := f0 st; prev_phase := prev_phase st;
       finst_hist := finst_hist st; mag_hist := mag_hist st;
       history := history st; miss_count := 0; seen := seen st |}.

(** One entry of the sweep of [_handle_timeouts]; [rm] is [remove_keys]. *)
Definition sweep_entry (c : config) (seen_update : bool)
           (acc : list track * list F) (e : F * nat) : list track * list F :=
  match nth_error (fst acc) (snd e) with
  | None => acc
  | Some st =>
    let st' := sweep_track c seen_update st in
    (store_set (snd e) st' (fst acc),
     if negb (seen st) && (TIMEOUT_BLOCKS c <=? miss_count st')
     then snd acc ++ [fst e] else snd acc)
  end.

Definition _handle_timeouts (c : config) (seen_update : bool) (s : bank) : bank :=
  let swept := fold_left (sweep_entry c seen_update) (tracks s) (heap s, []) in
  {| tracks := fold_left (fun d k => dict_pop k d) (snd swept) (tracks s);
     heap := fst swept |}.

(** *** The frequency estimator *)

(** [lo = np.exp(-1j * 2 * np.pi * f * (n / FS))] with
    [n = np.arange(len(x)) + n0]: real and imaginary parts. *)
Definition lo_angle (c : config) (f : F) (n : Z) : F :=
  fmul (fmul (fmul (of_int (-2)) np_pi) f) (fdiv (of_int n) (of_int (FS c))).

Definition local_oscillator (c : config) (f : F) (n0 : Z) (len : nat) : list (F * F) :=
  map (fun k => let a := lo_angle c f (Z.of_nat k + n0) in (np_cos a, np_sin a))
      (seq 0 len).

(** [np.vdot(lo, x)]: the first argument is conjugated. *)
Definition np_vdot (lo : list (F * F)) (x : list F) : F * F :=
  let terms := combine lo x in
  (np_sum (map (fun t => fmul (fst (fst t)) (snd t)) terms),
   np_sum (map (fun t => fmul (fsub zero (snd (fst t))) (snd t)) terms)).

Definition np_angle (z : F * F) : F := np_arctan2 (snd z) (fst z).

(** The phase of the block demodulated at frequency [f]. *)
Definition block_phase (c : config) (f : F) (x : list F) (n0 : Z) : F :=
  np_angle (np_vdot (local_oscillator c f n0 (length x)) x).

Definition ema (old new : F) : F := fadd (fmul lit_0_9 old) (fmul lit_0_1 new).

(** Lines 105-119: the update of the matched track state [st] with the
    peak [f]. *)
Definition update_track (c : config) (x : list F) (n0 : Z) (f : F) (st : track) : track :=
  let f0' := ema (f0 st) f in
  let phase := block_phase c f0' x n0 in
  let dphi := match prev_phase st with
              | None => zero
              | Some p => _principal_angle (fsub phase p)
              end in
  let dt := fdiv (of_int (Z.of_nat (length x))) (of_int (FS c)) in
  let f_dev := fdiv (fdiv dphi (fmul two np_pi)) dt in
  {| f0 := f0'; prev_phase := Some phase;
     finst_hist := deque_append (SMOOTH c) (finst_hist st) (fadd f0' f_dev);
     mag_hist := mag_hist st; history := history st;
     miss_count := miss_count st; seen := true |}.

(** Lines 100-120: the body of the loop over the peaks, first the track
    the peak goes to (lines 100-101), then its update. A failed lookup is
    Python's KeyError; it needs a NaN key, which no bin frequency is. *)
Definition resolve_peak (c : config) (s : bank) (f : F) : bank * option F :=
  match _match_track c s f with
  | Some k => (s, Some k)
  | None => _ensure_track c s f
  end.

Definition process_peak (c : config) (x : list F) (n0 : Z) (s : bank) (f : F) : bank :=
  let '(s1, m) := resolve_peak c s f in
  match m with
  | None => s1
  | Some k =>
    match dict_find k (tracks s1) with
    | None => s1
    | Some r =>
      match nth_error (heap s1) r with
      | None => s1
      | Some st =>
        let d := if negb (feq k f) then dict_pop k (tracks s1) else tracks s1 in
        let st' := update_track c x n0 f st in
        {| tracks := dict_set (f0 st') r d; heap := store_set r st' (heap s1) |}
      end
    end
  end.

(** *** Peak detection (lines 86-95) *)

Definition peak_freqs (c : config) (x : list F) : list F :=
  let win := np_hanning (length x) in
  let mag := np_rfft_abs (map (fun p => fmul (fst p) (snd p)) (combine x win)) in
  let mag_band := map (fun b => nth b mag zero) (band_bins c) in
  let noise_floor := fadd (np_median mag_band) lit_1e_12 in
  map (fun b => nth b (bins_f c) zero)
      (filter (fun b => flt (PEAK_THRESH c) (fdiv (nth b mag zero) noise_floor))
              (band_bins c)).

(** *** Trend correlation (lines 125-136) *)

Definition sq (v : F) : F := fmul v v.

Definition centered (l : list F) : list F :=
  let m := np_mean l in map (fun v => fsub v m) l.

Definition tau (n : nat) : list F := map (fun k => of_int (Z.of_nat k)) (seq 0 n).

Definition rho_denom (x_hist : list F) : F :=
  fsqrt (fmul (np_sum (map sq (centered x_hist)))
              (np_sum (map sq (centered (tau (length x_hist)))))).

Definition rho_num (x_hist : list F) : F :=
  np_sum (map (fun p => fmul (fst p) (snd p))
              (combine (centered x_hist) (centered (tau (length x_hist))))).

Definition rho_entry (h : list track) (acc : list F) (e : F * nat) : list F :=
  match nth_error h (snd e) with
  | None => acc
  | Some st =>
    let x_hist := finst_hist st in
    if 3 <=? length x_hist then
      if flt lit_1e_9 (rho_denom x_hist)
      then acc ++ [fdiv (rho_num x_hist) (rho_denom x_hist)]
      else acc
    else acc
  end.

Definition rho_vals (s : bank) : list F :=
  fold_left (rho_entry (heap s)) (tracks s) [].

(** *** One block *)

Definition clear_seen (st : track) : track :=
  {| f0 := f0 st; prev_phase := prev_phase st; finst_hist := finst_hist st;
     mag_hist := mag_hist st; history := history st;
     miss_count := miss_count st; seen := false |}.

Definition silent (x : list F) : bool := flt (np_mean (map sq x)) lit_1e_10.

Definition mark_unseen (s : bank) : bank :=
  {| tracks := tracks s;
     heap := fold_left (fun h e => store_upd (snd e) clear_seen h) (tracks s) (heap s) |}.

(** Lines 97-122: the flags are cleared, the peaks are resolved in
    order, the sweep runs. *)
Definition track_block (c : config) (x : list F) (n0 : Z) (peaks : list F) (s : bank)
  : bank :=
  _handle_timeouts c true (fold_left (process_peak c x n0) peaks (mark_unseen s)).

Definition _process_block (c : config) (block : list F) (n0 : Z) (s : bank)
  : bank * list F :=
  if silent block then (s, [])
  else
    let s3 := track_block c block n0 (peak_freqs c block) s in
    (s3, rho_vals s3).

(** *** The file driver *)

(** [range(0, stop, step)] for a positive step. *)
Fixpoint range_from (fuel : nat) (i stop step : Z) : list Z :=
  match fuel with
  | O => []
  | S fuel' => if (i <? stop)%Z then i :: range_from fuel' (i + step) stop step else []
  end.

(** [range(0, stop, step)]; a zero step raises ValueError. *)
Definition py_range (stop : Z) (step : nat) : option (list Z) :=
  match step with
  | O => None
  | _ => Some (range_from (Z.to_nat stop) 0 stop (Z.of_nat step))
  end.

(** [audio[i : i + BLOCK]] for [i >= 0]. *)
Definition slice (audio : list F) (i : Z) (len : nat) : list F :=
  firstn len (skipn (Z.to_nat i) audio).

(** The loop state of [process_file]: the bank, [all_rho_values], [n0]. *)
Record loop_state : Type := {
  ls_bank : bank;
  all_rho_values : list F;
  ls_n0 : Z
}.

(** Lines 153-157: the body of the loop over the offsets. *)
Definition drive_block (c : config) (audio : list F) (ls : loop_state) (i : Z)
  : loop_state :=
  let block := slice audio i (BLOCK c) in
  let '(s', rho_vals_block) := _process_block c block (ls_n0 ls) (ls_bank ls) in
  {| ls_bank := s';
     all_rho_values := match rho_vals_block with
                       | [] => all_rho_values ls
                       | _ => all_rho_values ls ++ [np_mean rho_vals_block]
                       end;
     ls_n0 := (ls_n0 ls + Z.of_nat (length block))%Z |}.

(** Lines 148-150: a fresh dict; the track states of an earlier file are
    out of reach, the store starts empty as well. *)
Definition loop_init : loop_state :=
  {| ls_bank := empty_bank; all_rho_values := []; ls_n0 := 0 |}.

Record analyzer : Type := {
  cfg : config;
  state : bank
}.

(** [SignalAnalyzer(config, path)] *)
Definition init (c : config) : analyzer := {| cfg := c; state := empty_bank |}.

(** What one call of [process_file] does: the file could not be used (read
    error or sample rate mismatch: logged, no row), an uncaught ValueError
    (a zero hop), or a row with [rho_mean_abs]. *)
Inductive outcome : Type :=
| Skipped
| Raised
| Row (rho_mean_abs : F).

Definition rho_mean_abs_of (all : list F) : F :=
  match all with
  | [] => zero
  | _ => np_mean (map fabs all)
  end.

(** [process_file]; [wav] is what [sf.read] gives: [None] when it raises,
    else the (mono) samples and the sample rate of the file. *)
Definition process_file (a : analyzer) (wav : option (list F * Z)) : analyzer * outcome :=
  match wav with
  | None => (a, Skipped)
  | Some (audio, fs) =>
    if negb (fs =? FS (cfg a))%Z then (a, Skipped)
    else
      let c := cfg a in
      match py_range (Z.of_nat (length audio) - Z.of_nat (BLOCK c)) (BLOCK c / 2) with
      | None => ({| cfg := c; state := empty_bank |}, Raised)
      | Some offsets =>
        let ls := fold_left (drive_block c audio) offsets loop_init in
        ({| cfg := c; state := ls_bank ls |}, Row (rho_mean_abs_of (all_rho_values ls)))
      end
  end.

(** The caller: one analyzer, one file after the other. *)
Definition run_files (a : analyzer) (files : list (option (list F * Z))) : analyzer :=
  fold_left (fun a' w => fst (process_file a' w)) files a.
End Analyzer.

Arguments config F : clear implicits.
Arguments track F : clear implicits.
Arguments bank F : clear implicits.
Arguments loop_state F : clear implicits.
Arguments analyzer F : clear implicits.
Arguments outcome F : clear implicits.

(** ** Binary64: the arithmetic of the code *)

Module Binary64.
#[local] Set Warnings "-inexact-float".
#[local] Open Scope float_scope.

(** A Python int as a float64: exact below 2^53, which sample indices and
    configuration values are. *)
Definition float_of_Z (z : Z) : float :=
  match z with
  | Z0 => 0
  | Zpos _ => PrimFloat.of_uint63 (Uint63.of_Z z)
  | Zneg _ => - PrimFloat.of_uint63 (Uint63.of_Z (- z))
  end.

#[export] Instance arith : Arith float := {
  fadd := PrimFloat.add;
  fsub := PrimFloat.sub;
  fmul := PrimFloat.mul;
  fdiv := PrimFloat.div;
  fabs := PrimFloat.abs;
  fsqrt := PrimFloat.sqrt;
  flt := PrimFloat.ltb;
  fle := PrimFloat.leb;
  feq := PrimFloat.eqb;
  lt_inf := fun x => PrimFloat.ltb x infinity;
  inf_le := fun x => PrimFloat.leb infinity x;
  of_int := float_of_Z;
  lit_0_9 := 0.9;
  lit_0_1 := 0.1;
  lit_1e_10 := 1e-10;
  lit_1e_12 := 1e-12;
  lit_1e_9 := 1e-9;
  np_pi := 3.141592653589793
}.

(** What [==] compares: two zeros of either sign, two infinities of one
    sign, or two finite numbers with the same sign, mantissa and exponent.
    A NaN equals nothing. *)
Definition same_value (a b : spec_float) : Prop :=
  match a, b with
  | S754_zero _, S754_zero _ => True
  | S754_infinity s, S754_infinity s' => s = s'
  | S754_finite s m e, S754_finite s' m' e' => s = s' /\ m = m' /\ e = e'
  | _, _ => False
  end.

(** C's [fmod] on binary64: the remainder of the truncated quotient, which
    is exact and has the sign of the dividend. *)
Definition fmod (x y : float) : float :=
  match Prim2SF x with
  | S754_nan => nan
  | S754_infinity _ => nan
  | S754_zero _ =>
    match Prim2SF y with
    | S754_nan => nan
    | S754_zero _ => nan
    | _ => x
    end
  | S754_finite sx mx ex =>
    match Prim2SF y with
    | S754_nan => nan
    | S754_zero _ => nan
    | S754_infinity _ => x
    | S754_finite _ my ey =>
      let e := Z.min ex ey in
      let r := ((Zpos mx * 2 ^ (ex - e)) mod (Zpos my * 2 ^ (ey - e)))%Z in
      let f := Z.ldexp (PrimFloat.of_uint63 (Uint63.of_Z r)) e in
      if sx then - f else f
    end
  end.

(** [%] on float64, in numpy as in Python: [fmod], moved by the divisor
    when the signs differ, and a zero with the sign of the divisor. The
    addition of the divisor is rounded. *)
Definition float_mod (a b : float) : float :=
  let rem := fmod a b in
  if PrimFloat.eqb b 0 then rem
  else if PrimFloat.eqb rem 0 then (if get_sign b then -0 else 0)
  else if xorb (PrimFloat.ltb b 0) (PrimFloat.ltb rem 0) then rem + b
  else rem.

(** The pairwise summation of [np.add.reduce]: fewer than 8 numbers are
    added from left to right, up to 128 with 8 accumulators, more by
    halves. *)
Definition sum_block (l : list float) : float :=
  let n := length l in
  let full := (n - n mod 8)%nat in
  let r := fold_left (fun r i => map (fun j => nth j r 0 + nth (i + j) l 0) (seq 0 8))
                     (map (fun q => (8 * q)%nat) (seq 1 (full / 8 - 1)))
                     (firstn 8 l) in
  let res := ((nth 0 r 0 + nth 1 r 0) + (nth 2 r 0 + nth 3 r 0))
             + ((nth 4 r 0 + nth 5 r 0) + (nth 6 r 0 + nth 7 r 0)) in
  fold_left PrimFloat.add (skipn full l) res.

Fixpoint pairwise_sum (fuel : nat) (l : list float) : float :=
  let n := length l in
  if (n <? 8)%nat then fold_left PrimFloat.add l (-0)
  else if (n <=? 128)%nat then sum_block l
  else match fuel with
       | O => nan
       | S fuel' =>
         let n2 := (n / 2)%nat in
         let n2 := (n2 - n2 mod 8)%nat in
         pairwise_sum fuel' (firstn n2 l) + pairwise_sum fuel' (skipn n2 l)
       end.

(** [np.sum] of a float64 array: the reduction starts from the identity. *)
Definition add_reduce (l : list float) : float := 0 + pairwise_sum (length l) l.

(** The routines whose results on binary64 are those of the platform's
    libm and FFT: they stay unknown. *)
Record library : Type := {
  lib_cos : float -> float;
  lib_sin : float -> float;
  lib_arctan2 : float -> float -> float;
  lib_hanning : nat -> list float;
  lib_rfft_abs : list float -> list float;
  lib_median : list float -> float
}.

(** numpy on binary64, over such routines. The sum is that of [np.sum]
    and [np.mean]; what [np.vdot] adds up is left to BLAS in the source,
    and nothing is stated of its value at this instance. *)
Definition numpy (m : library) : NumPy float := {|
  np_mod := float_mod;
  np_cos := lib_cos m;
  np_sin := lib_sin m;
  np_arctan2 := lib_arctan2 m;
  np_sum := add_reduce;
  np_hanning := lib_hanning m;
  np_rfft_abs := lib_rfft_abs m;
  np_median := lib_median m
|}.
End Binary64.

(** ** Exact: the arithmetic of the design *)

Module Exact.
#[local] Open Scope R_scope.

Definition Rltb (x y : R) : bool := if Rlt_dec x y then true else false.
Definition Rleb (x y : R) : bool := if Rle_dec x y then true else false.
Definition Reqb (x y : R) : bool := if Req_dec_T x y then true else false.

#[export] Instance arith : Arith R := {
  fadd := Rplus;
  fsub := Rminus;
  fmul := Rmult;
  fdiv := Rdiv;
  fabs := Rabs;
  fsqrt := sqrt;
  flt := Rltb;
  fle := Rleb;
  feq := Reqb;
  lt_inf := fun _ => true;
  inf_le := fun _ => false;
  of_int := IZR;
  lit_0_9 := 9 / 10;
  lit_0_1 := 1 / 10;
  lit_1e_10 := / 10 ^ 10;
  lit_1e_12 := / 10 ^ 12;
  lit_1e_9 := / 10 ^ 9;
  np_pi := PI
}.

(** Python's [%]: the remainder of the floored quotient. *)
Definition floor_mod (x y : R) : R := x - IZR (Zfloor (x / y)) * y.

(** [np.arctan2(y, x)] *)
Definition arctan2 (y x : R) : R :=
  if Rlt_dec 0 x then atan (y / x)
  else if Rlt_dec x 0 then
    if Rle_dec 0 y then atan (y / x) + PI else atan (y / x) - PI
  else if Rlt_dec 0 y then PI / 2
  else if Rlt_dec y 0 then - (PI / 2)
  else 0.

Definition sum (l : list R) : R := fold_right Rplus 0 l.

(** [np.hanning(M)] *)
Definition hanning (M : nat) : list R :=
  match M with
  | O => []
  | S O => [1]
  | _ => map (fun k => 1 / 2 + 1 / 2 * cos (PI * IZR (1 - Z.of_nat M + 2 * Z.of_nat k)
                                           / INR (M - 1)))
             (seq 0 M)
  end.

(** [np.abs(np.fft.rfft(x))]: the moduli of the first [N/2+1] terms of the
    discrete Fourier transform. *)
Definition rfft_abs (x : list R) : list R :=
  let N := length x in
  let w := fun (k n : nat) => 2 * PI * INR k * INR n / INR N in
  map (fun k =>
         let re := sum (map (fun p => snd p * cos (w k (fst p))) (combine (seq 0 N) x)) in
         let im := sum (map (fun p => - (snd p * sin (w k (fst p)))) (combine (seq 0 N) x)) in
         sqrt (re * re + im * im))
      (seq 0 (N / 2 + 1)).

Fixpoint insert (v : R) (l : list R) : list R :=
  match l with
  | [] => [v]
  | w :: l' => if Rle_dec v w then v :: l else w :: insert v l'
  end.

Definition sort (l : list R) : list R := fold_right insert [] l.

(** [np.median]; of an empty array numpy gives NaN, which compares false
    with everything; no comparison reads the value 0 given here, the band
    being empty as well. *)
Definition median (l : list R) : R :=
  let s := sort l in
  let n := length l in
  if Nat.even n then (nth (n / 2 - 1) s 0 + nth (n / 2) s 0) / 2
  else nth (n / 2) s 0.

#[export] Instance numpy : NumPy R := {
  np_mod := floor_mod;
  np_cos := cos;
  np_sin := sin;
  np_arctan2 := arctan2;
  np_sum := sum;
  np_hanning := hanning;
  np_rfft_abs := rfft_abs;
  np_median := median
}.
End Exact.


(** ** Notions used by the statements *)

Section Notions.
Context {F : Type} {A : Arith F} {L : NumPy F}.

(** The track object [r] is held by a key of the bank. *)
Definition in_bank (r : nat) (s : bank F) : Prop := In r (values (tracks s)).

(** The [seen] flag of the track object [r], if there is such an object. *)
Definition seen_flag (s : bank F) (r : nat) : option bool :=
  option_map seen (nth_error (heap s) r).

(** The number of keys that hold the object [r]. *)
Definition holders (r : nat) (d : dict F nat) : nat :=
  count_occ Nat.eq_dec (values d) r.

(** A run of [_process_block] over successive blocks and indices. *)
Definition run_blocks (c : config F) (inputs : list (list F * Z)) (s : bank F) : bank F :=
  fold_left (fun s' bn => fst (_process_block c (fst bn) (snd bn) s')) inputs s.

(** The states before each block of a run and after the last. *)
Fixpoint run_states (c : config F) (inputs : list (list F * Z)) (s : bank F) : list (bank F) :=
  match inputs with
  | [] => [s]
  | bn :: rest => s :: run_states c rest (fst (_process_block c (fst bn) (snd bn) s))
  end.

(** The list [rho_vals_block] of each block of a run. *)
Fixpoint rho_lists (c : config F) (inputs : list (list F * Z)) (s : bank F) : list (list F) :=
  match inputs with
  | [] => []
  | bn :: rest =>
    let r := _process_block c (fst bn) (snd bn) s in
    snd r :: rho_lists c rest (fst r)
  end.

(** The blocks and indices the loop of [process_file] hands to
    [_process_block], from the index [n0] on. *)
Fixpoint block_inputs (c : config F) (audio : list F) (offsets : list Z) (n0 : Z)
  : list (list F * Z) :=
  match offsets with
  | [] => []
  | i :: rest =>
    let block := slice audio i (BLOCK c) in
    (block, n0) :: block_inputs c audio rest (n0 + Z.of_nat (length block))
  end.

(** The blend of two frequencies equal to a key is equal to that key: so
    it is on the reals, where [0.9 * f + 0.1 * f] is [f]. *)
Definition ema_fixes_keys : Prop :=
  forall a b k : F, feq a k = true -> feq b k = true -> feq (ema a b) k = true.

(** Every key holds an existing track object whose center frequency is the
    key. *)
Definition keyed_by_f0 (s : bank F) : Prop :=
  forall (k : F) (r : nat),
    In (k, r) (tracks s) ->
    exists st : track F, nth_error (heap s) r = Some st /\ feq (f0 st) k = true.

(** No two keys of the dict are equal. *)
Fixpoint uniq (d : dict F nat) : Prop :=
  match d with
  | [] => True
  | e :: d' => dict_find (fst e) d' = None /\ uniq d'
  end.

(** A well-formed bank: unique keys, one key per track object, every track
    filed under its center frequency. *)
Definition well_formed (s : bank F) : Prop :=
  uniq (tracks s) /\ NoDup (values (tracks s)) /\ keyed_by_f0 s.

(** The track object the peak [freq] goes to in the bank [s]: the one
    filed under the key that lines 100-101 choose and line 104 looks up. *)
Definition peak_target (c : config F) (s : bank F) (freq : F) : option nat :=
  match resolve_peak c s freq with
  | (s1, Some k) => dict_find k (tracks s1)
  | (_, None) => None
  end.

(** None of the peaks goes to the track object [r], in the loop over the
    peaks of a block that starts on the bank [s]. *)
Fixpoint no_peak_for (c : config F) (x : list F) (n0 : Z) (peaks : list F) (s : bank F)
         (r : nat) : Prop :=
  match peaks with
  | [] => True
  | f :: rest =>
    peak_target c s f <> Some r /\ no_peak_for c x n0 rest (process_peak c x n0 s f) r
  end.

(** The track object [r] receives no matching peak in any block of the
    run: a block is rejected by the silence guard, or none of its peaks
    goes to [r]. *)
Fixpoint unmatched (c : config F) (inputs : list (list F * Z)) (s : bank F) (r : nat)
  : Prop :=
  match inputs with
  | [] => True
  | bn :: rest =>
    (silent (fst bn) = true
     \/ no_peak_for c (fst bn) (snd bn) (peak_freqs c (fst bn)) (mark_unseen s) r)
    /\ unmatched c rest (fst (_process_block c (fst bn) (snd bn) s)) r
  end.

(** The instantaneous-frequency histories of the tracks of the bank, in
    the order of the dict. *)
Definition bank_hists (s : bank F) : list (list F) :=
  flat_map (fun e => match nth_error (heap s) (snd e) with
                     | Some st => [finst_hist st]
                     | None => []
                     end)
           (tracks s).

(** A history qualifies with at least 3 entries and a Pearson denominator
    above 1e-9. *)
Definition qualifies (x_hist : list F) : bool :=
  (3 <=? length x_hist) && flt lit_1e_9 (rho_denom x_hist).

(** The Pearson coefficient of a history against its index sequence. *)
Definition pearson (x_hist : list F) : F :=
  fdiv (rho_num x_hist) (rho_denom x_hist).

(** *** The correlation in the words of the specification

    rho = sum (x_i - mean x) (tau_i - mean tau)
          / sqrt (sum (x_i - mean x)^2 * sum (tau_i - mean tau)^2),
    with tau_i = i for i = 0 .. n-1; the sums and the mean are numpy's. *)

Definition spec_mean (l : list F) : F :=
  fdiv (np_sum l) (of_int (Z.of_nat (length l))).

Definition spec_index (n : nat) : list F :=
  map (fun i => of_int (Z.of_nat i)) (seq 0 n).

Definition spec_denominator (x : list F) : F :=
  let t := spec_index (length x) in
  fsqrt (fmul (np_sum (map (fun xi => fmul (fsub xi (spec_mean x)) (fsub xi (spec_mean x)))
                           x))
              (np_sum (map (fun ti => fmul (fsub ti (spec_mean t)) (fsub ti (spec_mean t)))
                           t))).

Definition spec_rho (x : list F) : F :=
  let t := spec_index (length x) in
  fdiv (np_sum (map (fun p => fmul (fsub (fst p) (spec_mean x)) (fsub (snd p) (spec_mean t)))
                    (combine x t)))
       (spec_denominator x).

(** A history contributes with at least 3 entries and a denominator
    above 1e-9. *)
Definition spec_contributes (x : list F) : bool :=
  (3 <=? length x) && flt lit_1e_9 (spec_denominator x).

(** The block values of the specification: the mean of each non-empty
    list of correlations. *)
Definition block_values (rhos : list (list F)) : list F :=
  map np_mean (filter (fun l => negb (Nat.eqb (length l) 0)) rhos).
End Notions.


(** ** Inputs used to exercise the statements *)

(** A configuration with a block of one sample and a tolerance of 4 Hz. *)
Definition cfg_one (timeout : nat) : config R :=
  {| FS := 4; BLOCK := 1; BAND_MIN := 500; BAND_MAX := 18000; PEAK_THRESH := 6%R;
     MAX_TRACKS := 10; TIMEOUT_BLOCKS := timeout; SMOOTH := 8; HIST_LEN := 50 |}.

(** A configuration in which a block of one sample has a peak: one bin, at
    0 Hz, inside the band, and a threshold of 0. The tolerance is 4 Hz. *)
Definition cfg_bin (timeout : nat) : config R :=
  {| FS := 4; BLOCK := 1; BAND_MIN := 0; BAND_MAX := 1; PEAK_THRESH := 0%R;
     MAX_TRACKS := 10; TIMEOUT_BLOCKS := timeout; SMOOTH := 8; HIST_LEN := 50 |}.

(** A configuration with blocks of two samples and a hop of one: the
    bins are 0 Hz and 2 Hz, the band keeps the first, and the threshold
    lets it through whatever the block holds. *)
Definition cfg_two : config R :=
  {| FS := 4; BLOCK := 2; BAND_MIN := 0; BAND_MAX := 1; PEAK_THRESH := (-1)%R;
     MAX_TRACKS := 10; TIMEOUT_BLOCKS := 20; SMOOTH := 8; HIST_LEN := 50 |}.

(** A file of five samples: three blocks, whose sums are 1, -1 and 1. *)
Definition audio_five : list R := [1; 0; -1; 2; 0]%R.

(** The track at 0 Hz of this file after an update: its phase reference and
    its estimates. *)
Definition track_seen (phase : R) (hist : list R) : track R :=
  {| f0 := 0%R; prev_phase := Some phase; finst_hist := hist; mag_hist := [];
     history := []; miss_count := 0; seen := true |}.

Definition bank_seen (phase : R) (hist : list R) : bank R :=
  {| tracks := [(0%R, 0)]; heap := [track_seen phase hist] |}.

(** A configuration with a block of four samples and a hop of two. *)
Definition cfg_four : config R :=
  {| FS := 48000; BLOCK := 4; BAND_MIN := 500; BAND_MAX := 18000; PEAK_THRESH := 6%R;
     MAX_TRACKS := 10; TIMEOUT_BLOCKS := 20; SMOOTH := 8; HIST_LEN := 50 |}.

(** A track at [f] that no block has seen yet, with a given frequency
    history. *)
Definition track_at (f : R) (hist : list R) : track R :=
  {| f0 := f; prev_phase := None; finst_hist := hist; mag_hist := [];
     history := []; miss_count := 0; seen := false |}.

(** A bank that holds this one track. *)
Definition bank_one (f : R) (hist : list R) : bank R :=
  {| tracks := [(f, 0)]; heap := [track_at f hist] |}.

(** The same with a history of three estimates. *)
Definition bank_ramp : bank R := bank_one 100 [1; 2; 3]%R.

(** Files of nine and of four samples of silence. *)
Definition audio_nine : list R := repeat 0%R 9.
Definition audio_four : list R := repeat 0%R 4.

(** The defaults of the analyzer with a block of 1000 samples and room for
    one track: the bins are 48 Hz apart, bin 14 is 672 Hz. *)
Definition cfg_1000 : config float :=
  {| FS := 48000; BLOCK := 1000; BAND_MIN := 500; BAND_MAX := 18000;
     PEAK_THRESH := 6%float;
     MAX_TRACKS := 1; TIMEOUT_BLOCKS := 20; SMOOTH := 8; HIST_LEN := 50 |}.

(** The defaults of [__init__]. *)
Definition cfg_default : config float :=
  {| FS := 48000; BLOCK := 4096; BAND_MIN := 500; BAND_MAX := 18000;
     PEAK_THRESH := 6%float;
     MAX_TRACKS := 10; TIMEOUT_BLOCKS := 20; SMOOTH := 8; HIST_LEN := 50 |}.

Section Moved.
Import Binary64.
#[local] Set Warnings "-inexact-float".
#[local] Open Scope float_scope.

(** A track with a given frequency history, as an update leaves it. *)
Definition track_with (f : float) (hist : list float) : track float :=
  {| f0 := f; prev_phase := Some 0; finst_hist := hist; mag_hist := [];
     history := []; miss_count := 0; seen := true |}.

(** A bank that holds this one track. *)
Definition bank_with (f : float) (hist : list float) : bank float :=
  {| tracks := [(f, 0%nat)]; heap := [track_with f hist] |}.

(** Four estimates that rise by 2.9 Hz from one block to the next. *)
Definition hist_rising : list float := [1000.0; 1002.9; 1005.8; 1008.7].

(** Twenty-two estimates of 17230.6 Hz. *)
Definition hist_flat : list float := repeat 17230.6 22.

(** Six estimates of 1048576.1 Hz. *)
Definition hist_flat_high : list float := repeat 1048576.1 6.

(** The bin frequencies that the blend with themselves moves. *)
Definition moved_bins (c : config float) : list float :=
  filter (fun f => negb (feq (ema f f) f)) (bins_f c).
End Moved.

(** ** Notions used by the statements on the rest of the code *)

Section MoreNotions.
Context {F : Type} {A : Arith F} {L : NumPy F}.

(** A frequency inside the analysis band (the mask of line 29). *)
Definition in_band (c : config F) (f : F) : Prop :=
  fle (of_int (BAND_MIN c)) f = true /\ fle f (of_int (BAND_MAX c)) = true.

(** Every key of the dict refers to a track object of the store. *)
Definition refs_valid (s : bank F) : Prop :=
  forall e : F * nat, In e (tracks s) -> snd e < length (heap s).

(** The bank inside the loop over the peaks of a block (lines 97-120),
    after the peaks [peaks] have been handled. *)
Definition peak_loop (c : config F) (x : list F) (n0 : Z) (peaks : list F) (s : bank F)
  : bank F :=
  fold_left (process_peak c x n0) peaks (mark_unseen s).

(** The deques of a track hold no more than their [maxlen]. *)
Definition within_maxlen (c : config F) (st : track F) : Prop :=
  length (finst_hist st) <= SMOOTH c
  /\ length (mag_hist st) <= SMOOTH c
  /\ length (history st) <= HIST_LEN c.

(** The two deques that no estimate reads: nothing was written to
    [mag_hist], and nothing but zeros to [history]. *)
Definition idle_deques (st : track F) : Prop :=
  mag_hist st = [] /\ Forall (fun v => v = zero) (history st).

(** A track that has no phase reference has no estimate either, and is
    not marked seen. *)
Definition fresh_or_updated (st : track F) : Prop :=
  prev_phase st = None -> finst_hist st = [] /\ seen st = false.

(** The scan of [_match_track] keeps a key only when its distance to the
    peak compares below the best so far: a comparison that holds has
    numbers on both sides, so that a NaN key is never the answer. *)
Definition compares_numbers : Prop :=
  forall (k f : F) (best : option F),
    err_lt (fabs (fsub k f)) best = true -> is_number k.

(** What the timeout sweep reads of a track. *)
Definition sweep_key (st : track F) : bool * nat := (seen st, miss_count st).
End MoreNotions.

(** ** The result file (signal_analyzer.py, lines 36-44 and 166-172) *)

Section ResultFile.
Import String.
Context {F : Type} {A : Arith F} {L : NumPy F}.

(** A result row as [process_file] writes it; [timestamp] is the reading
    of [time.time()]. *)
Record row : Type := {
  trial_id : Z;
  condition : string;
  param_compressao : Z;
  rho_mean_abs : F;
  timestamp : F
}.

Inductive line : Type :=
| Header (columns : list string)
| Data (r : row).

(** The file at [output_csv_path]: [None] while it does not exist. *)
Definition csv : Type := option (list line).

Definition header : list string :=
  ["trial_id"; "condition"; "param_compressao"; "rho_mean_abs"; "timestamp"]%string.

(** [_init_csv]: the header is written if the file does not exist. *)
Definition _init_csv (out : csv) : csv :=
  match out with
  | None => Some [Header header]
  | Some _ => out
  end.

(** [open(path, "a")] and [writerow]: the file is created if need be. *)
Definition append_line (out : csv) (l : line) : csv :=
  match out with
  | None => Some [l]
  | Some ls => Some (ls ++ [l])
  end.

(** [SignalAnalyzer(config, output_csv_path)] with the file it touches. *)
Definition new_analyzer (c : config F) (out : csv) : analyzer F * csv :=
  (init c, _init_csv out).

(** [process_file] with the file it appends to: the row is written when
    the end of the function is reached, and only then. *)
Definition process_file_csv (a : analyzer F) (out : csv) (wav : option (list F * Z))
           (tid : Z) (cond : string) (param : Z) (now : F)
  : analyzer F * outcome F * csv :=
  match process_file a wav with
  | (a', Row rho) =>
    (a', Row rho, append_line out (Data {| trial_id := tid; condition := cond;
                                           param_compressao := param;
                                           rho_mean_abs := rho; timestamp := now |}))
  | (a', o) => (a', o, out)
  end.

(** *** The experiment (run_experiment.py) *)

Definition N_TRIALS : nat := 30.
Definition DURACAO_S : Z := 10.
Definition PARAM_COMPRESSAO_B : Z := 500.

(** [ANALYZER_CONFIG], with the defaults of [__init__] for the keys it
    does not give. *)
Definition ANALYZER_CONFIG : config F :=
  {| FS := 48000; BLOCK := 4096; BAND_MIN := 500; BAND_MAX := 18000;
     PEAK_THRESH := of_int 6; MAX_TRACKS := 50; TIMEOUT_BLOCKS := 20;
     SMOOTH := 10; HIST_LEN := 50 |}.

(** One entry of [tasks]. *)
Record task : Type := {
  task_trial_id : Z;
  task_condition : string;
  task_param_compressao : Z
}.

(** Lines 49-54: for each trial the task of condition A, then that of B. *)
Definition tasks : list task :=
  flat_map (fun i => [ {| task_trial_id := Z.of_nat i + 1; task_condition := "A"%string;
                          task_param_compressao := 0 |};
                       {| task_trial_id := Z.of_nat i + 1; task_condition := "B"%string;
                          task_param_compressao := PARAM_COMPRESSAO_B |} ])
           (seq 0 N_TRIALS).

(** What [main] takes from outside: the order [random.shuffle] leaves the
    tasks in, what [sf.read] gives for the temporary file of a task (the
    generated signal after [sf.write]), and the clock. *)
Record world : Type := {
  shuffle : list task -> list task;
  recorded : task -> option (list F * Z);
  clock : task -> F
}.

(** The loop of [main] (lines 63-86); an uncaught exception of
    [process_file] ends it: the flag is up from then on. *)
Definition run_task (w : world) (acc : analyzer F * csv * bool) (t : task)
  : analyzer F * csv * bool :=
  let '(a, out, raised) := acc in
  if raised then acc
  else
    match process_file_csv a out (recorded w t) (task_trial_id t) (task_condition t)
                           (task_param_compressao t) (clock w t) with
    | (a', Raised, out') => (a', out', true)
    | (a', _, out') => (a', out', false)
    end.

(** [main]: an earlier result file is removed, the tasks are shuffled, one
    analyzer handles them all. The result is the file and whether the run
    ended in an exception. *)
Definition main (w : world) (before : csv) : csv * bool :=
  let removed : csv := match before with Some _ => None | None => before end in
  let order := shuffle w tasks in
  let '(analyzer, out) := new_analyzer ANALYZER_CONFIG removed in
  let '(_, out', raised) := fold_left (run_task w) order (analyzer, out, false) in
  (out', raised).

(** The line a task contributes to the result file. *)
Definition task_lines (w : world) (t : task) : list line :=
  match snd (process_file (init ANALYZER_CONFIG) (recorded w t)) with
  | Row rho => [Data {| trial_id := task_trial_id t; condition := task_condition t;
                        param_compressao := task_param_compressao t;
                        rho_mean_abs := rho; timestamp := clock w t |}]
  | _ => []
  end.

(** The labels of a task. *)
Definition task_key (t : task) : Z * string * Z :=
  (task_trial_id t, task_condition t, task_param_compressao t).
End ResultFile.

Arguments row F : clear implicits.
Arguments line F : clear implicits.
Arguments csv F : clear implicits.
Arguments world F : clear implicits.

(** ** The test signals (generate_signals.py)

    The generators are written over the numeric interface, as the
    analyzer is. The draws of [np.random.uniform] and [np.random.normal]
    are given: [uniform k] is the k-th phase, [normal k] the jitter drawn
    for the k-th component. *)

Section Signals.
Context {F : Type} {A : Arith F} {L : NumPy F}.

(** The signal is a float32 array that the float64 components are added
    to: [single] is the rounding of a float64 to float32, and [mean32] is
    [np.mean] on a float32 array, which numpy accumulates in float32. *)
Variable single : F -> F.
Variable mean32 : list F -> F.

(** [np.linspace(start, stop, num, endpoint)] *)
Definition np_linspace (start stop : F) (num : nat) (endpoint : bool) : list F :=
  let div := if endpoint then (num - 1)%nat else num in
  let delta := fsub stop start in
  let y := map (fun k => of_int (Z.of_nat k)) (seq 0 num) in
  let y := if (0 <? div)%nat then
             let step := fdiv delta (of_int (Z.of_nat div)) in
             if feq step zero
             then map (fun v => fmul (fdiv v (of_int (Z.of_nat div))) delta) y
             else map (fun v => fmul v step) y
           else map (fun v => fmul v delta) y in
  let y := map (fun v => fadd v start) y in
  if endpoint && (1 <? num)%nat then removelast y ++ [stop] else y.

(** [sinal += component], on arrays of one length: the sum is taken in
    float64 and stored as float32. *)
Definition add_arrays (sinal component : list F) : list F :=
  map (fun p => single (fadd (fst p) (snd p))) (combine sinal component).

(** [sinal /= np.sqrt(np.mean(sinal**2))], in float32 throughout. *)
Definition normalize_rms (sinal : list F) : list F :=
  let rms := single (fsqrt (mean32 (map (fun v => single (fmul v v)) sinal))) in
  map (fun v => single (fdiv v rms)) sinal.

(** Lines 13-21: the sum of the components, before it is normalised.
    [duracao_s] and [fs] are non-negative integers, as the callers pass;
    [uniform] gives the draws of [np.random.uniform]. *)
Definition sinal_A (duracao_s fs n_freqs : nat) (f_min f_max : F) (uniform : nat -> F)
  : list F :=
  let freqs := np_linspace f_min f_max n_freqs true in
  let amplitudes := map (fun _ => fdiv one (of_int (Z.of_nat n_freqs))) freqs in
  let fases := map uniform (seq 0 n_freqs) in
  let t := np_linspace zero (of_int (Z.of_nat duracao_s)) (duracao_s * fs) false in
  let sinal := map (fun _ => zero) t in
  fold_left (fun sinal fap =>
               let '(f, a, p) := fap in
               add_arrays sinal
                 (map (fun tk => fmul a (np_sin (fadd (fmul (fmul (fmul two np_pi) f) tk) p)))
                      t))
            (combine (combine freqs amplitudes) fases) sinal.

Definition gerar_sinal_protocolo_A (duracao_s fs n_freqs : nat) (f_min f_max : F)
           (uniform : nat -> F) : list F :=
  normalize_rms (sinal_A duracao_s fs n_freqs f_min f_max uniform).

(** Lines 40-60; [normal] gives the draws of [np.random.normal], and 0.5
    is written 1/2, which it is in binary64 as over the reals. *)
Definition sinal_B (duracao_s fs : nat) (chirp_rate : F) (n_freqs : nat)
           (f_min f_max : F) (vary_phases : bool) (chirp_jitter_sigma : F)
           (uniform normal : nat -> F) : list F :=
  let freqs_start := np_linspace f_min f_max n_freqs true in
  let amplitudes := map (fun _ => fdiv one (of_int (Z.of_nat n_freqs))) freqs_start in
  let fases := if vary_phases then map uniform (seq 0 n_freqs)
               else map (fun _ => zero) freqs_start in
  let t := np_linspace zero (of_int (Z.of_nat duracao_s)) (duracao_s * fs) false in
  let sinal := map (fun _ => zero) t in
  fold_left (fun sinal ifap =>
               let '(i, (f_start, a, p)) := ifap in
               let k_eff := if flt zero chirp_jitter_sigma
                            then fadd chirp_rate (normal i) else chirp_rate in
               let phase_term := fun tk =>
                 fadd (fmul (fmul two np_pi)
                            (fadd (fmul f_start tk)
                                  (fmul (fmul (fdiv one two) k_eff) (fmul tk tk))))
                      p in
               add_arrays sinal (map (fun tk => fmul a (np_sin (phase_term tk))) t))
            (combine (seq 0 n_freqs) (combine (combine freqs_start amplitudes) fases))
            sinal.

Definition gerar_sinal_protocolo_B (duracao_s fs : nat) (chirp_rate : F) (n_freqs : nat)
           (f_min f_max : F) (vary_phases : bool) (chirp_jitter_sigma : F)
           (uniform normal : nat -> F) : list F :=
  normalize_rms (sinal_B duracao_s fs chirp_rate n_freqs f_min f_max vary_phases
                         chirp_jitter_sigma uniform normal).
End Signals.
(** ** The file driver *)

Section Driver.
Context {F : Type} {A : Arith F} {L : NumPy F}.

Lemma range_from_nth (fuel : nat) :
  forall (i stop step : Z) (k : nat) (j : Z),
    nth_error (range_from fuel i stop step) k = Some j ->
    (j = i + Z.of_nat k * step /\ j < stop)%Z.
Proof.
  induction fuel as [|fuel IH]; intros i stop step k j; simpl.
  - destruct k; discriminate.
  - destruct (Z.ltb_spec i stop) as [Hlt|Hge].
    + destruct k as [|k]; cbn [nth_error].
      * intros [= <-]. lia.
      * intros H. apply IH in H. lia.
    + destruct k; discriminate.
Qed.

Lemma range_from_complete (fuel : nat) :
  forall (i stop step : Z) (k : nat),
    (0 < step)%Z -> (stop - i <= Z.of_nat fuel)%Z ->
    (i + Z.of_nat k * step < stop)%Z ->
    nth_error (range_from fuel i stop step) k = Some (i + Z.of_nat k * step)%Z.
Proof.
  induction fuel as [|fuel IH]; intros i stop step k Hs Hf Hk.
  - exfalso. nia.
  - simpl. destruct (Z.ltb_spec i stop) as [Hlt|Hge]; [|exfalso; nia].
    destruct k as [|k]; cbn [nth_error].
    + f_equal. lia.
    + rewrite (@IH (i + step)%Z stop step k) by lia. f_equal. lia.
Qed.

(** The offsets of the loop: the multiples of the hop that leave strictly
    more than [BLOCK] samples. *)
Lemma py_range_spec (stop : Z) (step : nat) (offsets : list Z) :
  py_range stop step = Some offsets ->
  step <> 0 /\
  forall (k : nat) (i : Z),
    nth_error offsets k = Some i <->
    (i = Z.of_nat k * Z.of_nat step /\ i < stop)%Z.
Proof.
  unfold py_range. destruct step as [|step]; [discriminate|].
  intros [= <-]. split; [discriminate|].
  change (Z.pos (Pos.of_succ_nat step)) with (Z.of_nat (S step)).
  intros k i. split.
  - intros H. apply range_from_nth in H. lia.
  - intros [-> Hlt].
    rewrite (@range_from_complete (Z.to_nat stop) 0 stop (Z.of_nat (S step)) k) by lia.
    f_equal.
Qed.

Lemma slice_length (audio : list F) (i : Z) (len : nat) :
  (0 <= i)%Z -> (i + Z.of_nat len <= Z.of_nat (length audio))%Z ->
  length (slice audio i len) = len.
Proof.
  intros Hi Hl. unfold slice.
  rewrite length_firstn, length_skipn. lia.
Qed.

Lemma drive_block_n0 (c : config F) (audio : list F) (ls : loop_state F) (i : Z) :
  ls_n0 (drive_block c audio ls i)
  = (ls_n0 ls + Z.of_nat (length (slice audio i (BLOCK c))))%Z.
Proof.
  unfold drive_block.
  destruct (_process_block c (slice audio i (BLOCK c)) (ls_n0 ls) (ls_bank ls)).
  reflexivity.
Qed.

Lemma drive_block_bank (c : config F) (audio : list F) (ls : loop_state F) (i : Z) :
  ls_bank (drive_block c audio ls i)
  = fst (_process_block c (slice audio i (BLOCK c)) (ls_n0 ls) (ls_bank ls)).
Proof.
  unfold drive_block.
  destruct (_process_block c (slice audio i (BLOCK c)) (ls_n0 ls) (ls_bank ls)).
  reflexivity.
Qed.

Lemma drive_block_rho (c : config F) (audio : list F) (ls : loop_state F) (i : Z) :
  all_rho_values (drive_block c audio ls i)
  = all_rho_values ls
    ++ block_values [snd (_process_block c (slice audio i (BLOCK c)) (ls_n0 ls) (ls_bank ls))].
Proof.
  unfold drive_block, block_values.
  destruct (_process_block c (slice audio i (BLOCK c)) (ls_n0 ls) (ls_bank ls)) as [s' rhos].
  destruct rhos; simpl; [rewrite app_nil_r|]; reflexivity.
Qed.

(** Over full windows the index advances by [BLOCK] per block. *)
Lemma fold_drive_n0 (c : config F) (audio : list F) (offs : list Z) :
  forall ls : loop_state F,
    Forall (fun i => 0 <= i /\ i + Z.of_nat (BLOCK c) <= Z.of_nat (length audio))%Z offs ->
    ls_n0 (fold_left (drive_block c audio) offs ls)
    = (ls_n0 ls + Z.of_nat (length offs) * Z.of_nat (BLOCK c))%Z.
Proof.
  induction offs as [|i offs IH]; intros ls Hall; cbn [fold_left length].
  - lia.
  - inversion Hall as [|? ? [Hi Hl] Hall']; subst.
    rewrite IH by assumption.
    rewrite drive_block_n0, slice_length by assumption. lia.
Qed.

(** The loop of [process_file] is a run of [_process_block] over
    [block_inputs], and collects the block values of that run. *)
Lemma fold_drive_run (c : config F) (audio : list F) (offs : list Z) :
  forall ls : loop_state F,
    ls_bank (fold_left (drive_block c audio) offs ls)
    = run_blocks c (block_inputs c audio offs (ls_n0 ls)) (ls_bank ls)
    /\ all_rho_values (fold_left (drive_block c audio) offs ls)
       = all_rho_values ls
         ++ block_values (rho_lists c (block_inputs c audio offs (ls_n0 ls)) (ls_bank ls)).
Proof.
  induction offs as [|i offs IH]; intros ls; simpl.
  - split; [reflexivity|]. unfold block_values. simpl. now rewrite app_nil_r.
  - destruct (IH (drive_block c audio ls i)) as [Hb Hr].
    rewrite Hb, Hr, drive_block_n0, drive_block_bank, drive_block_rho.
    split; [reflexivity|].
    rewrite <- app_assoc. f_equal.
    unfold block_values. simpl.
    destruct (negb _); reflexivity.
Qed.

Lemma process_file_ok (a : analyzer F) (audio : list F) (offsets : list Z) :
  py_range (Z.of_nat (length audio) - Z.of_nat (BLOCK (cfg a))) (BLOCK (cfg a) / 2)
  = Some offsets ->
  process_file a (Some (audio, FS (cfg a)))
  = (let ls := fold_left (drive_block (cfg a) audio) offsets loop_init in
     ({| cfg := cfg a; state := ls_bank ls |}, Row (rho_mean_abs_of (all_rho_values ls)))).
Proof.
  intros H. unfold process_file. rewrite Z.eqb_refl. cbn [negb]. rewrite H. reflexivity.
Qed.

Lemma process_file_cfg (a : analyzer F) (wav : option (list F * Z)) :
  cfg (fst (process_file a wav)) = cfg a.
Proof.
  unfold process_file. destruct wav as [[audio fs]|]; [|reflexivity].
  destruct (negb _); [reflexivity|].
  destruct (py_range _ _); reflexivity.
Qed.

Lemma run_files_cfg (files : list (option (list F * Z))) :
  forall a : analyzer F, cfg (run_files a files) = cfg a.
Proof.
  unfold run_files.
  induction files as [|w files IH]; intros a; simpl; [reflexivity|].
  rewrite IH. apply process_file_cfg.
Qed.

(** The outcome of a file depends on the analyzer through its
    configuration only. *)
Lemma process_file_outcome (a b : analyzer F) (wav : option (list F * Z)) :
  cfg a = cfg b -> snd (process_file a wav) = snd (process_file b wav).
Proof.
  intros E. unfold process_file. destruct wav as [[audio fs]|]; [|reflexivity].
  rewrite E. destruct (negb _); [reflexivity|].
  destruct (py_range _ _); reflexivity.
Qed.

(** A file that is analysed leaves the analyzer in a state that depends on
    the configuration and the file only. *)
Lemma process_file_state (a b : analyzer F) (wav : option (list F * Z)) :
  cfg a = cfg b ->
  snd (process_file b wav) <> Skipped ->
  fst (process_file a wav) = fst (process_file b wav).
Proof.
  intros E. unfold process_file. destruct wav as [[audio fs]|]; [|cbn; congruence].
  rewrite E. destruct (negb _); [cbn; congruence|].
  destruct (py_range _ _); reflexivity.
Qed.

(** C2, amended: the index handed to [_process_block] with the [k]-th
    block counts the samples of the blocks processed before it: it is
    [k * BLOCK], while the block starts at sample [k * (BLOCK / 2)] of the
    file. *)
Theorem C2_block_index (c : config F) (audio : list F) (offsets : list Z)
        (k : nat) (i : Z) :
  py_range (Z.of_nat (length audio) - Z.of_nat (BLOCK c)) (BLOCK c / 2) = Some offsets ->
  nth_error offsets k = Some i ->
  let ls := fold_left (drive_block c audio) (firstn k offsets) loop_init in
  i = (Z.of_nat k * Z.of_nat (BLOCK c / 2))%Z
  /\ ls_n0 ls = (Z.of_nat k * Z.of_nat (BLOCK c))%Z
  /\ ls_bank (drive_block c audio ls i)
     = fst (_process_block c (slice audio i (BLOCK c))
                           (Z.of_nat k * Z.of_nat (BLOCK c)) (ls_bank ls)).
Proof.
  intros Hr Hk ls.
  destruct (py_range_spec _ _ _ Hr) as [Hstep Hspec].
  assert (Hn0 : ls_n0 ls = (Z.of_nat k * Z.of_nat (BLOCK c))%Z).
  { unfold ls. rewrite fold_drive_n0.
    - simpl. rewrite length_firstn.
      assert (k < length offsets) by (apply nth_error_Some; congruence).
      lia.
    - apply Forall_forall. intros j Hj.
      apply (In_nth_error (firstn k offsets)) in Hj. destruct Hj as [m Hm].
      assert (Hm' : nth_error offsets m = Some j).
      { destruct (Nat.lt_ge_cases m k) as [Hlt|Hge].
        - now rewrite nth_error_firstn in Hm; destruct (Nat.ltb_spec m k); [|lia].
        - rewrite nth_error_firstn in Hm. destruct (Nat.ltb_spec m k); [lia|discriminate]. }
      apply Hspec in Hm'. lia. }
  split; [apply Hspec in Hk; tauto|].
  split; [exact Hn0|].
  rewrite drive_block_bank, Hn0. reflexivity.
Qed.

(** C3: the windows that are processed start at the multiples [i] of the
    hop with [i + BLOCK < L], strictly: a file of exactly [BLOCK] samples
    (more generally, the full window that ends at the last sample) is not
    processed, and the file then yields 0.0. *)
Theorem C3_processed_windows (c : config F) (audio : list F) (offsets : list Z) :
  py_range (Z.of_nat (length audio) - Z.of_nat (BLOCK c)) (BLOCK c / 2) = Some offsets ->
  (forall i : Z,
      In i offsets <->
      (exists k : nat, i = Z.of_nat k * Z.of_nat (BLOCK c / 2))%Z
      /\ (i + Z.of_nat (BLOCK c) < Z.of_nat (length audio))%Z)
  /\ (length audio = BLOCK c ->
      offsets = []
      /\ process_file (init c) (Some (audio, FS c))
         = ({| cfg := c; state := empty_bank |}, Row zero)).
Proof.
  intros Hr. destruct (py_range_spec _ _ _ Hr) as [Hstep Hspec]. split.
  - intros i. split.
    + intros Hi. apply In_nth_error in Hi. destruct Hi as [k Hk].
      apply Hspec in Hk. split; [exists k; tauto|lia].
    + intros [[k ->] Hlt]. apply (nth_error_In offsets k). apply Hspec. lia.
  - intros Hlen.
    assert (E : offsets = []).
    { destruct offsets as [|i rest]; [reflexivity|].
      exfalso. assert (H0 : nth_error (i :: rest) 0 = Some i) by reflexivity.
      apply Hspec in H0. lia. }
    split; [exact E|].
    subst offsets. exact (process_file_ok (init c) audio [] Hr).
Qed.

(** C9: the outcome of analysing a file is the same whatever files the
    analyzer has processed before, and so is the bank it leaves:
    [process_file] starts from the empty bank and reads nothing else of the
    analyzer than its configuration, which no analysis changes. The outcome
    is a function of the configuration and the samples: two analyses of one
    buffer give the same value. *)
Theorem C9_files_independent (c : config F) (files : list (option (list F * Z)))
        (wav : option (list F * Z)) :
  snd (process_file (run_files (init c) files) wav) = snd (process_file (init c) wav)
  /\ cfg (run_files (init c) files) = c
  /\ (snd (process_file (init c) wav) <> Skipped ->
      fst (process_file (run_files (init c) files) wav) = fst (process_file (init c) wav))
  /\ snd (process_file (fst (process_file (init c) wav)) wav)
     = snd (process_file (init c) wav).
Proof.
  split; [|split; [|split]].
  - apply process_file_outcome. apply run_files_cfg.
  - apply run_files_cfg.
  - apply process_file_state. apply run_files_cfg.
  - apply process_file_outcome. apply process_file_cfg.
Qed.
End Driver.

(** ** The store *)

Section StoreFacts.
Context {T : Type}.

Lemma store_set_length (r : nat) (v : T) (h : list T) :
  length (store_set r v h) = length h.
Proof.
  revert r. induction h as [|w h IH]; intros [|r]; simpl; auto.
Qed.

Lemma store_set_same (r : nat) (v : T) (h : list T) :
  r < length h -> nth_error (store_set r v h) r = Some v.
Proof.
  revert r. induction h as [|w h IH]; intros [|r] Hr; simpl in *; try lia; auto.
  apply IH. lia.
Qed.

Lemma store_set_other (r r' : nat) (v : T) (h : list T) :
  r <> r' -> nth_error (store_set r v h) r' = nth_error h r'.
Proof.
  revert r r'. induction h as [|w h IH]; intros [|r] [|r'] Hr; simpl; auto; try congruence.
Qed.

Lemma store_set_lookup (r r' : nat) (v w : T) (h : list T) :
  nth_error h r = Some w ->
  nth_error (store_set r v h) r' = if Nat.eq_dec r r' then Some v else nth_error h r'.
Proof.
  intros Hw. destruct (Nat.eq_dec r r') as [<-|Hne].
  - apply store_set_same. apply nth_error_Some. congruence.
  - now apply store_set_other.
Qed.
End StoreFacts.

(** ** The timeout sweep *)

Section Sweep.
Context {F : Type} {A : Arith F} {L : NumPy F}.

Lemma holders_cons (r : nat) (e : F * nat) (d : dict F nat) :
  holders r (e :: d) = if Nat.eq_dec (snd e) r then S (holders r d) else holders r d.
Proof. reflexivity. Qed.

Lemma in_bank_holders (r : nat) (s : bank F) :
  in_bank r s <-> 1 <= holders r (tracks s).
Proof.
  unfold in_bank, holders. rewrite (count_occ_In Nat.eq_dec). lia.
Qed.

(** The sweep visits an object once per key that holds it. *)
Lemma sweep_heap (c : config F) (u : bool) (d : dict F nat) :
  forall (h : list (track F)) (rm : list F) (r : nat),
    nth_error (fst (fold_left (sweep_entry c u) d (h, rm))) r
    = option_map (Nat.iter (holders r d) (sweep_track c u)) (nth_error h r).
Proof.
  induction d as [|e d IH]; intros h rm r.
  - simpl. now destruct (nth_error h r).
  - cbn [fold_left]. rewrite holders_cons. unfold sweep_entry at 2. cbn [fst snd].
    destruct (nth_error h (snd e)) as [st|] eqn:Hst.
    + rewrite IH, (store_set_lookup _ r _ _ _ Hst).
      destruct (Nat.eq_dec (snd e) r) as [<-|Hne]; [|reflexivity].
      rewrite Hst. cbn [option_map]. now rewrite Nat.iter_succ_r.
    + rewrite IH. destruct (Nat.eq_dec (snd e) r) as [<-|Hne]; [|reflexivity].
      now rewrite Hst.
Qed.

Lemma handle_timeouts_heap (c : config F) (u : bool) (s : bank F) (r : nat) :
  nth_error (heap (_handle_timeouts c u s)) r
  = option_map (Nat.iter (holders r (tracks s)) (sweep_track c u)) (nth_error (heap s) r).
Proof. unfold _handle_timeouts. cbn [heap]. apply sweep_heap. Qed.

(** What a visit leaves alone. *)
Lemma sweep_track_frame (c : config F) (u : bool) (st : track F) :
  f0 (sweep_track c u st) = f0 st
  /\ prev_phase (sweep_track c u st) = prev_phase st
  /\ finst_hist (sweep_track c u st) = finst_hist st
  /\ mag_hist (sweep_track c u st) = mag_hist st
  /\ seen (sweep_track c u st) = seen st.
Proof. unfold sweep_track. destruct (negb (seen st)); cbn; auto. Qed.

Lemma sweep_iter_frame (c : config F) (u : bool) (n : nat) (st : track F) :
  f0 (Nat.iter n (sweep_track c u) st) = f0 st
  /\ prev_phase (Nat.iter n (sweep_track c u) st) = prev_phase st
  /\ finst_hist (Nat.iter n (sweep_track c u) st) = finst_hist st
  /\ mag_hist (Nat.iter n (sweep_track c u) st) = mag_hist st
  /\ seen (Nat.iter n (sweep_track c u) st) = seen st.
Proof.
  induction n as [|n IH]; [cbn; auto 6|]. rewrite Nat.iter_succ.
  destruct IH as (I1 & I2 & I3 & I4 & I5).
  destruct (sweep_track_frame c u (Nat.iter n (sweep_track c u) st))
    as (J1 & J2 & J3 & J4 & J5).
  rewrite J1, J2, J3, J4, J5. auto 6.
Qed.

(** What [n] visits do to a track that was not seen. *)
Lemma sweep_iter_unseen (c : config F) (n : nat) (st : track F) :
  seen st = false ->
  miss_count (Nat.iter n (sweep_track c true) st) = miss_count st + n
  /\ history (Nat.iter n (sweep_track c true) st)
     = Nat.iter n (fun h => deque_append (HIST_LEN c) h zero) (history st).
Proof.
  intros Hs. induction n as [|n IH]; [cbn; split; [lia|reflexivity]|].
  rewrite !Nat.iter_succ. destruct IH as [I1 I2].
  pose proof (sweep_iter_frame c true n st) as (_ & _ & _ & _ & I5).
  unfold sweep_track at 1 3. rewrite I5, Hs. cbn. rewrite I1, I2. split; [lia|reflexivity].
Qed.

(** The correlations read the frequency histories and nothing else. *)
Lemma rho_vals_ext (d : dict F nat) (h h' : list (track F)) :
  (forall r, option_map finst_hist (nth_error h r) = option_map finst_hist (nth_error h' r)) ->
  forall acc, fold_left (rho_entry h) d acc = fold_left (rho_entry h') d acc.
Proof.
  intros E. induction d as [|e d IH]; intros acc; cbn [fold_left]; [reflexivity|].
  rewrite IH. f_equal. unfold rho_entry. specialize (E (snd e)).
  destruct (nth_error h (snd e)), (nth_error h' (snd e)); cbn in E; try congruence.
  now injection E as ->.
Qed.

(** C6, amended: the sweep appends its zero to [history], a deque of
    [HIST_LEN] entries, once per key that holds the track; it leaves the
    instantaneous-frequency history [finst_hist] as it was, and the
    correlations, which read [finst_hist] only, are the same with the store
    as it was before the sweep. *)
Theorem C6_zero_goes_to_history (c : config F) (s : bank F) (r : nat) (st : track F) :
  nth_error (heap s) r = Some st ->
  exists st' : track F,
    nth_error (heap (_handle_timeouts c true s)) r = Some st'
    /\ finst_hist st' = finst_hist st
    /\ (seen st = false ->
        history st'
        = Nat.iter (holders r (tracks s)) (fun h => deque_append (HIST_LEN c) h zero)
                   (history st))
    /\ (in_bank r s -> 1 <= holders r (tracks s))
    /\ rho_vals (_handle_timeouts c true s)
       = rho_vals {| tracks := tracks (_handle_timeouts c true s); heap := heap s |}.
Proof.
  intros Hst. eexists. split; [rewrite handle_timeouts_heap, Hst; reflexivity|].
  split; [apply sweep_iter_frame|].
  split; [intros Hs; now apply sweep_iter_unseen|].
  split; [apply in_bank_holders|].
  unfold rho_vals. cbn [tracks heap]. apply rho_vals_ext. intros r'.
  change (fst (fold_left (sweep_entry c true) (tracks s) (heap s, [])))
    with (heap (_handle_timeouts c true s)).
  rewrite handle_timeouts_heap. destruct (nth_error (heap s) r'); cbn; [|reflexivity].
  f_equal. apply sweep_iter_frame.
Qed.
End Sweep.

(** ** The loop over the peaks *)

Section Peaks.
Context {F : Type} {A : Arith F} {L : NumPy F}.

Lemma resolve_peak_cases (c : config F) (s : bank F) (f : F) :
  (exists m, resolve_peak c s f = (s, m))
  \/ (resolve_peak c s f
      = ({| tracks := tracks s ++ [(f, length (heap s))];
            heap := heap s ++ [new_track c f] |}, Some f)
      /\ dict_mem f (tracks s) = false
      /\ length (tracks s) < MAX_TRACKS c).
Proof.
  unfold resolve_peak. destruct (_match_track c s f) as [k|]; [left; eauto|].
  unfold _ensure_track. destruct (dict_mem f (tracks s)); [left; eauto|].
  destruct (Nat.leb_spec (MAX_TRACKS c) (length (tracks s))); [left; eauto|].
  right. auto.
Qed.

Lemma process_peak_cases (c : config F) (x : list F) (n0 : Z) (s : bank F) (f : F) :
  process_peak c x n0 s f = fst (resolve_peak c s f)
  \/ exists (k : F) (r : nat) (st : track F),
      snd (resolve_peak c s f) = Some k
      /\ dict_find k (tracks (fst (resolve_peak c s f))) = Some r
      /\ nth_error (heap (fst (resolve_peak c s f))) r = Some st
      /\ process_peak c x n0 s f
         = {| tracks := dict_set (f0 (update_track c x n0 f st)) r
                          (if negb (feq k f)
                           then dict_pop k (tracks (fst (resolve_peak c s f)))
                           else tracks (fst (resolve_peak c s f)));
              heap := store_set r (update_track c x n0 f st)
                                (heap (fst (resolve_peak c s f))) |}.
Proof.
  unfold process_peak. destruct (resolve_peak c s f) as [s1 [k|]]; cbn [fst snd]; auto.
  destruct (dict_find k (tracks s1)) as [r|] eqn:Hr; auto.
  destruct (nth_error (heap s1) r) as [st|] eqn:Hst; auto.
  right. exists k, r, st. auto.
Qed.

End Peaks.


(** ** The trend correlation *)

Section Trend.
Context {F : Type} {A : Arith F} {L : NumPy F}.

Lemma rho_entry_spec (h : list (track F)) (acc : list F) (e : F * nat) :
  rho_entry h acc e
  = acc ++ map pearson
               (filter qualifies
                       match nth_error h (snd e) with
                       | Some st => [finst_hist st]
                       | None => []
                       end).
Proof.
  unfold rho_entry, qualifies, pearson.
  destruct (nth_error h (snd e)) as [st|]; cbn [filter map]; [|now rewrite app_nil_r].
  destruct (3 <=? length (finst_hist st)); cbn [andb]; [|now rewrite app_nil_r].
  destruct (flt lit_1e_9 (rho_denom (finst_hist st))); cbn [map]; [reflexivity|].
  now rewrite app_nil_r.
Qed.

(** The loop over the tracks collects the coefficients of the histories
    that qualify. *)
Lemma rho_vals_spec (s : bank F) :
  rho_vals s = map pearson (filter qualifies (bank_hists s)).
Proof.
  unfold rho_vals, bank_hists.
  enough (G : forall acc,
             fold_left (rho_entry (heap s)) (tracks s) acc
             = acc ++ map pearson
                          (filter qualifies
                                  (flat_map (fun e => match nth_error (heap s) (snd e) with
                                                      | Some st => [finst_hist st]
                                                      | None => []
                                                      end) (tracks s))))
    by apply (G []).
  induction (tracks s) as [|e d IH]; intros acc; cbn [fold_left flat_map].
  - cbn. now rewrite app_nil_r.
  - rewrite IH, rho_entry_spec, filter_app, map_app, app_assoc. reflexivity.
Qed.

Lemma process_block_rho (c : config F) (b : list F) (n0 : Z) (s : bank F) :
  snd (_process_block c b n0 s)
  = if silent b then []
    else map pearson (filter qualifies (bank_hists (fst (_process_block c b n0 s)))).
Proof.
  unfold _process_block. destruct (silent b); cbn [fst snd]; [reflexivity|].
  apply rho_vals_spec.
Qed.
(** The loop computes the coefficient of the specification. *)
Lemma combine_map {X Y X' Y' : Type} (f : X -> X') (g : Y -> Y') (x : list X) (t : list Y) :
  combine (map f x) (map g t) = map (fun p => (f (fst p), g (snd p))) (combine x t).
Proof.
  revert t. induction x as [|a x IH]; intros [|b t]; cbn [map combine]; try reflexivity.
  now rewrite IH.
Qed.

Lemma np_mean_spec (l : list F) : np_mean l = spec_mean l.
Proof. reflexivity. Qed.

Lemma rho_denom_spec (x_hist : list F) : rho_denom x_hist = spec_denominator x_hist.
Proof.
  unfold rho_denom, spec_denominator, centered, tau, spec_index, sq.
  rewrite !map_map, !np_mean_spec. reflexivity.
Qed.

Lemma rho_num_spec (x_hist : list F) :
  rho_num x_hist
  = np_sum (map (fun p => fmul (fsub (fst p) (spec_mean x_hist))
                               (fsub (snd p) (spec_mean (spec_index (length x_hist)))))
                (combine x_hist (spec_index (length x_hist)))).
Proof.
  unfold rho_num, centered, tau, spec_index.
  rewrite combine_map, map_map, !np_mean_spec. reflexivity.
Qed.

Lemma pearson_spec (x_hist : list F) : pearson x_hist = spec_rho x_hist.
Proof. unfold pearson, spec_rho. now rewrite rho_num_spec, rho_denom_spec. Qed.

Lemma qualifies_spec (x_hist : list F) : qualifies x_hist = spec_contributes x_hist.
Proof. unfold qualifies, spec_contributes. now rewrite rho_denom_spec. Qed.

Lemma filter_ext_all {X : Type} (f g : X -> bool) (l : list X) :
  (forall v, f v = g v) -> filter f l = filter g l.
Proof. intros E. induction l as [|v l IH]; cbn; [reflexivity|]. now rewrite E, IH. Qed.

(** A block that is not silent returns, for every entry of the dict whose
    history contributes, the coefficient of the specification. *)
Lemma process_block_spec_rho (c : config F) (b : list F) (n0 : Z) (s : bank F) :
  snd (_process_block c b n0 s)
  = if silent b then []
    else map spec_rho
             (filter spec_contributes (bank_hists (fst (_process_block c b n0 s)))).
Proof.
  rewrite process_block_rho. destruct (silent b); [reflexivity|].
  rewrite (filter_ext_all _ _ _ qualifies_spec).
  apply map_ext, pearson_spec.
Qed.

(** The value of a file that has blocks: the mean of the absolute values
    of the block values, each the mean of the correlations of one block
    that has some; 0.0 without any. *)
Lemma process_file_spec (c : config F) (audio : list F) (offsets : list Z) :
  py_range (Z.of_nat (length audio) - Z.of_nat (BLOCK c)) (BLOCK c / 2) = Some offsets ->
  snd (process_file (init c) (Some (audio, FS c)))
  = Row match block_values (rho_lists c (block_inputs c audio offsets 0) empty_bank) with
        | [] => zero
        | vs => spec_mean (map fabs vs)
        end.
Proof.
  intros Hr. rewrite (process_file_ok (init c) audio offsets Hr). cbn [snd cfg init].
  destruct (fold_drive_run c audio offsets loop_init) as [_ ->].
  cbn [all_rho_values loop_init app ls_n0 ls_bank].
  unfold rho_mean_abs_of. now destruct (block_values _).
Qed.
End Trend.

(** ** The dict *)

Section DictFacts.
Context {F : Type} {A : Arith F}.

Lemma dict_find_None (k : F) (d : dict F nat) :
  dict_find k d = None <-> forall e, In e d -> feq (fst e) k = false.
Proof.
  induction d as [|[k' v] d IH]; simpl.
  - split; [intros _ e []|reflexivity].
  - destruct (feq k' k) eqn:E.
    + split; [discriminate|]. intros H. specialize (H (k', v) (or_introl eq_refl)).
      simpl in H. congruence.
    + rewrite IH. split.
      * intros H e [<-|He]; auto.
      * intros H e He. apply H. now right.
Qed.

Lemma dict_find_In (k : F) (d : dict F nat) (r : nat) :
  dict_find k d = Some r -> exists k', In (k', r) d /\ feq k' k = true.
Proof.
  induction d as [|[k' v] d IH]; simpl; [discriminate|].
  destruct (feq k' k) eqn:E.
  - intros [= ->]. exists k'. auto.
  - intros H. destruct (IH H) as (k'' & Hin & Hk). exists k''. auto.
Qed.

Lemma dict_pop_incl (k : F) (d : dict F nat) (e : F * nat) :
  In e (dict_pop k d) -> In e d.
Proof.
  induction d as [|[k' v] d IH]; simpl; [auto|].
  destruct (feq k' k); simpl; tauto.
Qed.

Lemma dict_set_incl (k : F) (v : nat) (d : dict F nat) (e : F * nat) :
  In e (dict_set k v d) -> snd e = v \/ In e d.
Proof.
  induction d as [|[k' v'] d IH]; simpl.
  - intros [<-|[]]. now left.
  - destruct (feq k' k); simpl; intros [<-|H]; auto. destruct (IH H); auto.
Qed.

Lemma dict_find_pop (k k0 : F) (d : dict F nat) :
  dict_find k0 d = None -> dict_find k0 (dict_pop k d) = None.
Proof.
  rewrite !dict_find_None. intros H e He. apply H. eapply dict_pop_incl; eauto.
Qed.

Lemma uniq_pop (k : F) (d : dict F nat) : uniq d -> uniq (dict_pop k d).
Proof.
  induction d as [|[k' v] d IH]; simpl; [auto|].
  intros [Hf Hu]. destruct (feq k' k); simpl; auto using dict_find_pop.
Qed.

Lemma fold_pop_incl (rm : list F) :
  forall (d : dict F nat) (e : F * nat),
    In e (fold_left (fun d' k => dict_pop k d') rm d) -> In e d.
Proof.
  induction rm as [|k rm IH]; intros d e; simpl; [auto|].
  intros H. apply IH in H. eapply dict_pop_incl; eauto.
Qed.

Lemma uniq_fold_pop (rm : list F) :
  forall d : dict F nat, uniq d -> uniq (fold_left (fun d' k => dict_pop k d') rm d).
Proof.
  induction rm as [|k rm IH]; intros d Hu; simpl; auto using uniq_pop.
Qed.

Context {K : KeyEq F}.

Lemma dict_find_set_None (k k0 : F) (v : nat) (d : dict F nat) :
  dict_find k0 d = None -> feq k k0 = false -> dict_find k0 (dict_set k v d) = None.
Proof.
  intros Hd Hk. induction d as [|[k1 v1] d IH]; simpl in *.
  - now rewrite Hk.
  - destruct (feq k1 k0) eqn:E0; [discriminate|].
    destruct (feq k1 k); simpl; rewrite E0; auto.
Qed.

Lemma uniq_set (k : F) (v : nat) (d : dict F nat) : uniq d -> uniq (dict_set k v d).
Proof.
  induction d as [|[k' v'] d IH]; simpl; [auto|].
  intros [Hf Hu]. destruct (feq k' k) eqn:E; simpl; [auto|].
  split; [|auto]. apply dict_find_set_None; [assumption|].
  now rewrite feq_sym.
Qed.

Lemma uniq_app (k : F) (v : nat) (d : dict F nat) :
  uniq d -> dict_mem k d = false -> uniq (d ++ [(k, v)]).
Proof.
  unfold dict_mem. destruct (dict_find k d) eqn:Hk; [discriminate|]. intros Hu _.
  induction d as [|[k' v'] d IH]; simpl in *; [auto|].
  destruct Hu as [Hf Hu]. destruct (feq k' k) eqn:E; [discriminate|].
  split; [|auto].
  rewrite dict_find_None in *. intros e He. apply in_app_or in He.
  destruct He as [He|[<-|[]]]; [auto|]. simpl. now rewrite feq_sym.
Qed.

(** With unique keys, [pop] removes the entries with that key. *)
Lemma dict_pop_spec (k : F) (d : dict F nat) (e : F * nat) :
  uniq d -> (In e (dict_pop k d) <-> In e d /\ feq (fst e) k = false).
Proof.
  induction d as [|[k1 v1] d IH]; simpl; [tauto|].
  intros [Hf Hu]. rewrite dict_find_None in Hf.
  destruct (feq k1 k) eqn:E.
  - split.
    + intros He. split; [now right|].
      destruct (feq (fst e) k) eqn:E'; [|reflexivity].
      rewrite <- (Hf e He). symmetry.
      apply feq_trans with k; [assumption|]. now rewrite feq_sym.
    + intros [[<-|He] Hk]; [simpl in Hk; congruence|assumption].
  - simpl. rewrite (IH Hu). split.
    + intros [<-|[He Hk]]; auto.
    + intros [[<-|He] Hk]; auto.
Qed.

Lemma fold_pop_spec (rm : list F) :
  forall (d : dict F nat) (e : F * nat),
    uniq d ->
    (In e (fold_left (fun d' k => dict_pop k d') rm d)
     <-> In e d /\ forall k, In k rm -> feq (fst e) k = false).
Proof.
  induction rm as [|k rm IH]; intros d e Hu; simpl.
  - split; [intros H; split; [assumption|intros k []]|tauto].
  - rewrite (IH _ e (uniq_pop k d Hu)), (dict_pop_spec k d e Hu). split.
    + intros [[He Hk] Hrm]. split; [assumption|]. intros k' [<-|Hk']; auto.
    + intros [He Hrm]. split; [split|]; auto.
Qed.

(** With unique keys, two entries with equal keys are one entry. *)
Lemma uniq_entry (d : dict F nat) (e e' : F * nat) :
  uniq d -> In e d -> In e' d -> feq (fst e) (fst e') = true -> e = e'.
Proof.
  induction d as [|e0 d IH]; simpl; [tauto|].
  intros [Hf Hu] [<-|He] [<-|He'] Hk; auto.
  - rewrite dict_find_None in Hf. specialize (Hf _ He').
    rewrite feq_sym in Hf. congruence.
  - rewrite dict_find_None in Hf. specialize (Hf _ He). congruence.
Qed.
End DictFacts.

Section SweepKeys.
Context {F : Type} {A : Arith F} {L : NumPy F}.

Lemma holders_app (r : nat) (d1 d2 : dict F nat) :
  holders r (d1 ++ d2) = holders r d1 + holders r d2.
Proof. unfold holders, values. now rewrite map_app, count_occ_app. Qed.

Lemma sweep_track_unseen (c : config F) (u : bool) (st : track F) :
  seen st = false -> miss_count (sweep_track c u st) = S (miss_count st).
Proof. intros H. unfold sweep_track. now rewrite H. Qed.

Lemma sweep_entry_some (c : config F) (u : bool) (h : list (track F)) (rm : list F)
      (e : F * nat) (st : track F) :
  nth_error h (snd e) = Some st ->
  sweep_entry c u (h, rm) e
  = (store_set (snd e) (sweep_track c u st) h,
     if negb (seen st) && (TIMEOUT_BLOCKS c <=? miss_count (sweep_track c u st))
     then rm ++ [fst e] else rm).
Proof. intros H. unfold sweep_entry. cbn [fst snd]. now rewrite H. Qed.

Lemma sweep_entry_none (c : config F) (u : bool) (h : list (track F)) (rm : list F)
      (e : F * nat) :
  nth_error h (snd e) = None -> sweep_entry c u (h, rm) e = (h, rm).
Proof. intros H. unfold sweep_entry. cbn [fst snd]. now rewrite H. Qed.

(** The keys the sweep collects: those of the entries whose track is not
    seen and has reached the timeout when the entry is visited. *)
Lemma sweep_rm (c : config F) (u : bool) (d : dict F nat) :
  forall (h : list (track F)) (rm : list F) (k : F),
    In k (snd (fold_left (sweep_entry c u) d (h, rm))) <->
    In k rm \/
    exists (d1 : dict F nat) (r : nat) (d2 : dict F nat) (st : track F),
      d = d1 ++ (k, r) :: d2 /\ nth_error h r = Some st /\ seen st = false
      /\ TIMEOUT_BLOCKS c <= miss_count st + holders r d1 + 1.
Proof.
  induction d as [|e d IH]; intros h rm k.
  - simpl. split; [auto|]. intros [H|(d1 & r & d2 & st & E & _)]; [assumption|].
    destruct d1; discriminate.
  - cbn [fold_left].
    destruct (nth_error h (snd e)) as [st0|] eqn:H0.
    + rewrite (sweep_entry_some c u h rm e st0 H0), IH. split.
      * intros [Hk|(d1 & r & d2 & st1 & E & Hst1 & Hs1 & Ht)].
        -- destruct (negb (seen st0) && (TIMEOUT_BLOCKS c <=? miss_count (sweep_track c u st0)))
             eqn:Hb; [|now left].
           apply in_app_or in Hk. destruct Hk as [Hk|[<-|[]]]; [now left|].
           apply andb_prop in Hb. destruct Hb as [Hb1 Hb2].
           apply negb_true_iff in Hb1. apply Nat.leb_le in Hb2.
           rewrite (sweep_track_unseen c u st0 Hb1) in Hb2.
           right. exists [], (snd e), d, st0. destruct e; cbn in *.
           repeat split; auto. lia.
        -- right. rewrite (store_set_lookup (snd e) r _ _ _ H0) in Hst1.
           destruct (Nat.eq_dec (snd e) r) as [Er|Ner].
           ++ injection Hst1 as <-.
              destruct (sweep_track_frame c u st0) as (_ & _ & _ & _ & J5).
              rewrite J5 in Hs1. rewrite (sweep_track_unseen c u st0 Hs1) in Ht.
              exists (e :: d1), r, d2, st0. rewrite holders_cons.
              destruct (Nat.eq_dec (snd e) r); [|contradiction].
              subst d. repeat split; auto; [congruence|lia].
           ++ exists (e :: d1), r, d2, st1. rewrite holders_cons.
              destruct (Nat.eq_dec (snd e) r); [contradiction|].
              subst d. repeat split; auto.
      * intros [Hk|(d1 & r & d2 & st & E & Hst & Hs & Ht)].
        -- left. destruct (negb _ && _); [apply in_or_app|]; auto.
        -- destruct d1 as [|e1 d1]; cbn [app] in E; injection E as -> ->.
           ++ cbn [snd] in H0. rewrite H0 in Hst. injection Hst as ->.
              left. rewrite Hs, (sweep_track_unseen c u st Hs). cbn [negb andb].
              cbn [holders values map count_occ] in Ht.
              destruct (Nat.leb_spec (TIMEOUT_BLOCKS c) (S (miss_count st))); [|lia].
              apply in_or_app. right. now left.
           ++ right. rewrite holders_cons in Ht.
              destruct (Nat.eq_dec (snd e1) r) as [Er|Ner].
              ** rewrite Er, Hst in H0. injection H0 as <-.
                 exists d1, r, d2, (sweep_track c u st).
                 destruct (sweep_track_frame c u st) as (_ & _ & _ & _ & J5).
                 rewrite (store_set_lookup (snd e1) r _ _ _ (eq_trans (f_equal _ Er) Hst)).
                 destruct (Nat.eq_dec (snd e1) r); [|contradiction].
                 rewrite J5, (sweep_track_unseen c u st Hs).
                 repeat split; auto. lia.
              ** exists d1, r, d2, st.
                 rewrite (store_set_lookup (snd e1) r _ _ _ H0).
                 destruct (Nat.eq_dec (snd e1) r); [contradiction|].
                 repeat split; auto.
    + rewrite (sweep_entry_none c u h rm e H0), IH. split.
      * intros [Hk|(d1 & r & d2 & st & E & Hst & Hs & Ht)]; [now left|].
        right. exists (e :: d1), r, d2, st. rewrite holders_cons.
        destruct (Nat.eq_dec (snd e) r) as [Er|Ner]; [congruence|].
        subst d. repeat split; auto.
      * intros [Hk|(d1 & r & d2 & st & E & Hst & Hs & Ht)]; [now left|].
        destruct d1 as [|e1 d1]; cbn [app] in E; injection E as -> ->.
        -- cbn [snd] in H0. congruence.
        -- right. exists d1, r, d2, st. rewrite holders_cons in Ht.
           destruct (Nat.eq_dec (snd e1) r) as [Er|Ner]; [congruence|].
           repeat split; auto.
Qed.
End SweepKeys.

Section Loop.
Context {F : Type} {A : Arith F} {L : NumPy F}.

Lemma in_bank_entry (r : nat) (s : bank F) :
  in_bank r s <-> exists k, In (k, r) (tracks s).
Proof.
  unfold in_bank, values. rewrite in_map_iff. split.
  - intros ([k r'] & E & H). cbn in E. subst. eauto.
  - intros (k & H). exists (k, r). auto.
Qed.

Lemma resolve_peak_heap (c : config F) (s : bank F) (f : F) :
  exists ext, heap (fst (resolve_peak c s f)) = heap s ++ ext.
Proof.
  destruct (resolve_peak_cases c s f) as [[m ->]|[-> _]]; cbn.
  - exists []. now rewrite app_nil_r.
  - eauto.
Qed.

Lemma resolve_peak_bank (c : config F) (s : bank F) (f : F) (r : nat) :
  in_bank r (fst (resolve_peak c s f)) -> in_bank r s \/ length (heap s) <= r.
Proof.
  destruct (resolve_peak_cases c s f) as [[m ->]|[-> _]]; cbn; [auto|].
  unfold in_bank, values. cbn. rewrite map_app, in_app_iff. cbn.
  intros [H|[<-|[]]]; auto.
Qed.

Lemma process_peak_length (c : config F) (x : list F) (n0 : Z) (s : bank F) (f : F) :
  length (heap s) <= length (heap (process_peak c x n0 s f)).
Proof.
  destruct (resolve_peak_heap c s f) as [ext He].
  destruct (process_peak_cases c x n0 s f) as [->|(k & r & st & _ & _ & _ & ->)];
    cbn [heap]; rewrite ?store_set_length, He, length_app; lia.
Qed.

Lemma process_peak_bank (c : config F) (x : list F) (n0 : Z) (s : bank F) (f : F) (r : nat) :
  in_bank r (process_peak c x n0 s f) -> in_bank r s \/ length (heap s) <= r.
Proof.
  destruct (process_peak_cases c x n0 s f) as [->|(k & r0 & st & _ & Hf & _ & ->)].
  - apply resolve_peak_bank.
  - rewrite in_bank_entry. cbn [tracks]. intros (k' & Hin).
    apply resolve_peak_bank with c f.
    apply dict_set_incl in Hin. cbn [snd] in Hin. destruct Hin as [->|Hin].
    + apply dict_find_In in Hf. destruct Hf as (k'' & Hin & _).
      apply in_bank_entry. eauto.
    + apply in_bank_entry. exists k'.
      destruct (negb (feq k f)); [eapply dict_pop_incl|]; eauto.
Qed.

(** A peak changes the state of the track it goes to and of no other; the
    track it changes is flagged. *)
Lemma process_peak_heap (c : config F) (x : list F) (n0 : Z) (s : bank F) (f : F) (r : nat) :
  r < length (heap s) ->
  nth_error (heap (process_peak c x n0 s f)) r = nth_error (heap s) r
  \/ seen_flag (process_peak c x n0 s f) r = Some true.
Proof.
  intros Hr. destruct (resolve_peak_heap c s f) as [ext He].
  assert (H1 : nth_error (heap (fst (resolve_peak c s f))) r = nth_error (heap s) r).
  { rewrite He. now apply nth_error_app1. }
  destruct (process_peak_cases c x n0 s f) as [->|(k & r0 & st & _ & _ & Hst & ->)];
    [now left|].
  unfold seen_flag. cbn [heap]. rewrite (store_set_lookup r0 r _ _ _ Hst).
  destruct (Nat.eq_dec r0 r); [right; reflexivity|now left].
Qed.

Lemma peaks_length (c : config F) (x : list F) (n0 : Z) (peaks : list F) :
  forall s : bank F,
    length (heap s) <= length (heap (fold_left (process_peak c x n0) peaks s)).
Proof.
  induction peaks as [|f peaks IH]; intros s; cbn [fold_left]; [lia|].
  etransitivity; [apply (process_peak_length c x n0 s f)|apply IH].
Qed.

Lemma peaks_bank (c : config F) (x : list F) (n0 : Z) (peaks : list F) (r : nat) :
  forall s : bank F,
    in_bank r (fold_left (process_peak c x n0) peaks s) ->
    in_bank r s \/ length (heap s) <= r.
Proof.
  induction peaks as [|f peaks IH]; intros s; cbn [fold_left]; [auto|].
  intros H. apply IH in H. destruct H as [H|H].
  - now apply process_peak_bank in H.
  - right. pose proof (process_peak_length c x n0 s f). lia.
Qed.

(** A track whose flag is down after the loop was touched by no peak. *)
Lemma peaks_unseen (c : config F) (x : list F) (n0 : Z) (peaks : list F) (r : nat) :
  forall s : bank F,
    r < length (heap s) ->
    seen_flag (fold_left (process_peak c x n0) peaks s) r = Some false ->
    nth_error (heap (fold_left (process_peak c x n0) peaks s)) r = nth_error (heap s) r.
Proof.
  induction peaks as [|f peaks IH]; intros s Hr Hs; cbn [fold_left] in *; [reflexivity|].
  pose proof (process_peak_length c x n0 s f) as Hl.
  assert (Hr1 : r < length (heap (process_peak c x n0 s f))) by lia.
  pose proof (IH _ Hr1 Hs) as E1. rewrite E1.
  destruct (process_peak_heap c x n0 s f r Hr) as [E|E]; [assumption|].
  exfalso. unfold seen_flag in E, Hs. rewrite E1 in Hs. congruence.
Qed.

Lemma mark_unseen_heap (d : dict F nat) :
  forall (h : list (track F)) (r : nat),
    nth_error (fold_left (fun h' e => store_upd (snd e) clear_seen h') d h) r
    = nth_error h r
    \/ nth_error (fold_left (fun h' e => store_upd (snd e) clear_seen h') d h) r
       = option_map clear_seen (nth_error h r).
Proof.
  induction d as [|e d IH]; intros h r; cbn [fold_left]; [now left|].
  unfold store_upd at 2 4. destruct (nth_error h (snd e)) as [st|] eqn:Hst; [|apply IH].
  destruct (IH (store_set (snd e) (clear_seen st) h) r) as [E|E]; rewrite E;
    rewrite (store_set_lookup (snd e) r _ _ _ Hst);
    destruct (Nat.eq_dec (snd e) r) as [<-|]; rewrite ?Hst; auto.
Qed.

Lemma mark_unseen_miss (s : bank F) (r : nat) :
  option_map miss_count (nth_error (heap (mark_unseen s)) r)
  = option_map miss_count (nth_error (heap s) r).
Proof.
  unfold mark_unseen. cbn [heap].
  destruct (mark_unseen_heap (tracks s) (heap s) r) as [->| ->]; [reflexivity|].
  now destruct (nth_error (heap s) r).
Qed.

Lemma mark_unseen_length (s : bank F) : length (heap (mark_unseen s)) = length (heap s).
Proof.
  unfold mark_unseen. cbn [heap]. generalize (heap s).
  induction (tracks s) as [|e d IH]; intros h; cbn [fold_left]; [reflexivity|].
  rewrite IH. unfold store_upd. destruct (nth_error h (snd e)); [apply store_set_length|reflexivity].
Qed.

Lemma handle_timeouts_length (c : config F) (u : bool) (s : bank F) :
  length (heap (_handle_timeouts c u s)) = length (heap s).
Proof.
  unfold _handle_timeouts. cbn [heap]. generalize (heap s) (@nil F).
  induction (tracks s) as [|e d IH]; intros h rm; cbn [fold_left]; [reflexivity|].
  destruct (nth_error h (snd e)) as [st|] eqn:Hst.
  - rewrite (sweep_entry_some c u h rm e st Hst), IH. apply store_set_length.
  - rewrite (sweep_entry_none c u h rm e Hst). apply IH.
Qed.

Lemma handle_timeouts_incl (c : config F) (u : bool) (s : bank F) (e : F * nat) :
  In e (tracks (_handle_timeouts c u s)) -> In e (tracks s).
Proof. unfold _handle_timeouts. cbn [tracks]. apply fold_pop_incl. Qed.

Lemma track_block_length (c : config F) (x : list F) (n0 : Z) (peaks : list F) (s : bank F) :
  length (heap s) <= length (heap (track_block c x n0 peaks s)).
Proof.
  unfold track_block. rewrite handle_timeouts_length, <- (mark_unseen_length s).
  apply peaks_length.
Qed.

Lemma track_block_bank (c : config F) (x : list F) (n0 : Z) (peaks : list F) (s : bank F)
      (r : nat) :
  in_bank r (track_block c x n0 peaks s) -> in_bank r s \/ length (heap s) <= r.
Proof.
  unfold track_block. rewrite in_bank_entry. intros (k & H).
  apply handle_timeouts_incl in H.
  assert (H' : in_bank r (fold_left (process_peak c x n0) peaks (mark_unseen s)))
    by (apply in_bank_entry; eauto).
  apply peaks_bank in H'. now rewrite mark_unseen_length in H'.
Qed.

Lemma process_block_length (c : config F) (b : list F) (n0 : Z) (s : bank F) :
  length (heap s) <= length (heap (fst (_process_block c b n0 s))).
Proof.
  unfold _process_block. destruct (silent b); cbn [fst]; [lia|apply track_block_length].
Qed.

(** A track object that is out of the bank stays out. *)
Lemma process_block_bank (c : config F) (b : list F) (n0 : Z) (s : bank F) (r : nat) :
  in_bank r (fst (_process_block c b n0 s)) -> in_bank r s \/ length (heap s) <= r.
Proof.
  unfold _process_block. destruct (silent b); cbn [fst]; [auto|apply track_block_bank].
Qed.

Lemma run_blocks_bank (c : config F) (inputs : list (list F * Z)) (r : nat) :
  forall s : bank F,
    in_bank r (run_blocks c inputs s) -> in_bank r s \/ length (heap s) <= r.
Proof.
  unfold run_blocks.
  induction inputs as [|bn inputs IH]; intros s; cbn [fold_left]; [auto|].
  intros H. apply IH in H. destruct H as [H|H].
  - now apply process_block_bank in H.
  - right. pose proof (process_block_length c (fst bn) (snd bn) s). lia.
Qed.
End Loop.

Section Eviction.
Context {F : Type} {A : Arith F} {L : NumPy F} {K : KeyEq F}.

Lemma process_peak_uniq (c : config F) (x : list F) (n0 : Z) (s : bank F) (f : F) :
  uniq (tracks s) -> uniq (tracks (process_peak c x n0 s f)).
Proof.
  intros Hu.
  assert (Hu1 : uniq (tracks (fst (resolve_peak c s f)))).
  { destruct (resolve_peak_cases c s f) as [[m ->]|[-> [Hm _]]]; cbn; [assumption|].
    now apply uniq_app. }
  destruct (process_peak_cases c x n0 s f) as [->|(k & r & st & _ & _ & _ & ->)];
    [assumption|].
  cbn [tracks]. apply uniq_set. destruct (negb (feq k f)); [now apply uniq_pop|assumption].
Qed.

Lemma peaks_uniq (c : config F) (x : list F) (n0 : Z) (peaks : list F) :
  forall s : bank F,
    uniq (tracks s) -> uniq (tracks (fold_left (process_peak c x n0) peaks s)).
Proof.
  induction peaks as [|f peaks IH]; intros s Hu; cbn [fold_left]; [assumption|].
  apply IH. now apply process_peak_uniq.
Qed.

Lemma track_block_uniq (c : config F) (x : list F) (n0 : Z) (peaks : list F) (s : bank F) :
  uniq (tracks s) -> uniq (tracks (track_block c x n0 peaks s)).
Proof.
  intros Hu. unfold track_block, _handle_timeouts. cbn [tracks].
  apply uniq_fold_pop. now apply peaks_uniq.
Qed.

Lemma process_block_uniq (c : config F) (b : list F) (n0 : Z) (s : bank F) :
  uniq (tracks s) -> uniq (tracks (fst (_process_block c b n0 s))).
Proof.
  intros Hu. unfold _process_block.
  destruct (silent b); cbn [fst]; [assumption|now apply track_block_uniq].
Qed.

(** An entry that survives the sweep with its flag down, under a key that
    is a number: the count of its track was below the timeout when the
    entry was visited. *)
Lemma sweep_survivor (c : config F) (s : bank F) (k : F) (r : nat) (st' : track F) :
  uniq (tracks s) ->
  is_number k ->
  In (k, r) (tracks (_handle_timeouts c true s)) ->
  nth_error (heap (_handle_timeouts c true s)) r = Some st' ->
  seen st' = false ->
  exists st : track F,
    nth_error (heap s) r = Some st
    /\ miss_count st + 1 < TIMEOUT_BLOCKS c
    /\ miss_count st < miss_count st'.
Proof.
  intros Hu Hnum Hin Hst' Hs'.
  rewrite handle_timeouts_heap in Hst'.
  destruct (nth_error (heap s) r) as [st|] eqn:Hst; [|discriminate].
  cbn in Hst'. injection Hst' as <-.
  destruct (sweep_iter_frame c true (holders r (tracks s)) st) as (_ & _ & _ & _ & J5).
  rewrite J5 in Hs'.
  destruct (sweep_iter_unseen c (holders r (tracks s)) st Hs') as [Hm _].
  unfold _handle_timeouts in Hin. cbn [tracks] in Hin.
  apply (fold_pop_spec _ _ _ Hu) in Hin. destruct Hin as [Hin Hrm]. cbn [fst] in Hrm.
  destruct (in_split _ _ Hin) as (d1 & d2 & Hd).
  exists st. split; [reflexivity|].
  assert (Hh : 1 <= holders r (tracks s)).
  { rewrite Hd, holders_app, holders_cons. cbn [snd].
    destruct (Nat.eq_dec r r); [lia|contradiction]. }
  split; [|lia].
  destruct (Nat.lt_ge_cases (miss_count st + holders r d1 + 1) (TIMEOUT_BLOCKS c))
    as [Hlt|Hge]; [lia|].
  exfalso.
  assert (Hk : In k (snd (fold_left (sweep_entry c true) (tracks s) (heap s, [])))).
  { apply sweep_rm. right. exists d1, r, d2, st. auto. }
  apply Hrm in Hk. unfold is_number in Hnum. congruence.
Qed.

(** An entry the sweep removes: its track is not seen and its count has
    reached the timeout. *)
Lemma sweep_removed (c : config F) (s : bank F) (k : F) (r : nat) :
  uniq (tracks s) ->
  In (k, r) (tracks s) ->
  ~ In (k, r) (tracks (_handle_timeouts c true s)) ->
  exists st' : track F,
    nth_error (heap (_handle_timeouts c true s)) r = Some st'
    /\ seen st' = false
    /\ TIMEOUT_BLOCKS c <= miss_count st'.
Proof.
  intros Hu Hin Hout.
  set (rm := snd (fold_left (sweep_entry c true) (tracks s) (heap s, []))).
  assert (Hex : exists k', In k' rm /\ feq k k' = true).
  { destruct (existsb (feq k) rm) eqn:E.
    - apply existsb_exists in E. exact E.
    - exfalso. apply Hout. unfold _handle_timeouts. cbn [tracks].
      apply (fold_pop_spec _ _ _ Hu). split; [assumption|].
      intros k' Hk'. cbn [fst].
      destruct (feq k k') eqn:E'; [|reflexivity].
      assert (existsb (feq k) rm = true) by (apply existsb_exists; eauto).
      congruence. }
  destruct Hex as (k' & Hk' & Hkk).
  apply sweep_rm in Hk'. destruct Hk' as [[]|(d1 & r' & d2 & st & Hd & Hst & Hs & Ht)].
  assert (Hin' : In (k', r') (tracks s)).
  { rewrite Hd. apply in_or_app. right. now left. }
  assert (E : (k, r) = (k', r')) by (apply (uniq_entry (tracks s)); assumption).
  injection E as <- <-.
  rewrite handle_timeouts_heap, Hst. cbn [option_map]. eexists. split; [reflexivity|].
  destruct (sweep_iter_frame c true (holders r (tracks s)) st) as (_ & _ & _ & _ & J5).
  destruct (sweep_iter_unseen c (holders r (tracks s)) st Hs) as [Hm _].
  split; [congruence|].
  rewrite Hm, Hd, holders_app, holders_cons. cbn [snd].
  destruct (Nat.eq_dec r r); [lia|contradiction].
Qed.

(** The loop over the entries of line 97 clears the flag of every track
    the dict holds, once per key. *)
Lemma mark_unseen_iter (d : dict F nat) :
  forall (h : list (track F)) (r : nat),
    nth_error (fold_left (fun h' e => store_upd (snd e) clear_seen h') d h) r
    = option_map (Nat.iter (holders r d) clear_seen) (nth_error h r).
Proof.
  induction d as [|e d IH]; intros h r.
  - cbn. now destruct (nth_error h r).
  - cbn [fold_left]. rewrite holders_cons. unfold store_upd at 2.
    destruct (nth_error h (snd e)) as [st|] eqn:Hst.
    + rewrite IH, (store_set_lookup _ r _ _ _ Hst).
      destruct (Nat.eq_dec (snd e) r) as [<-|Hne]; [|reflexivity].
      rewrite Hst. cbn [option_map]. now rewrite Nat.iter_succ_r.
    + rewrite IH. destruct (Nat.eq_dec (snd e) r) as [<-|Hne]; [|reflexivity].
      now rewrite Hst.
Qed.

Lemma clear_seen_iter (n : nat) (st : track F) :
  1 <= n -> Nat.iter n clear_seen st = clear_seen st.
Proof.
  induction n as [|n IH]; [lia|]. intros _. rewrite Nat.iter_succ.
  destruct n as [|n]; [reflexivity|]. now rewrite IH by lia.
Qed.

Lemma mark_unseen_banked (s : bank F) (r : nat) (st : track F) :
  in_bank r s ->
  nth_error (heap s) r = Some st ->
  nth_error (heap (mark_unseen s)) r = Some (clear_seen st).
Proof.
  intros Hin Hst. unfold mark_unseen. cbn [heap]. rewrite mark_unseen_iter, Hst.
  cbn [option_map]. f_equal. apply clear_seen_iter. now apply in_bank_holders.
Qed.

(** A peak that goes to another track leaves the state of [r] as it is,
    and files [r] under no new key. *)
Lemma peak_elsewhere (c : config F) (x : list F) (n0 : Z) (s : bank F) (f : F) (r : nat) :
  r < length (heap s) ->
  peak_target c s f <> Some r ->
  nth_error (heap (process_peak c x n0 s f)) r = nth_error (heap s) r
  /\ forall k : F, In (k, r) (tracks (process_peak c x n0 s f)) -> In (k, r) (tracks s).
Proof.
  intros Hr Ht. unfold peak_target in Ht. unfold process_peak.
  assert (H1 : nth_error (heap (fst (resolve_peak c s f))) r = nth_error (heap s) r
               /\ forall k, In (k, r) (tracks (fst (resolve_peak c s f)))
                            -> In (k, r) (tracks s)).
  { destruct (resolve_peak_cases c s f) as [[m E]|[E _]]; rewrite E; cbn [fst tracks heap].
    - now split.
    - split; [now apply nth_error_app1|].
      intros k Hin. apply in_app_or in Hin. destruct Hin as [Hin|[[= _ <-]|[]]];
        [exact Hin|lia]. }
  destruct (resolve_peak c s f) as [s1 [k|]]; cbn [fst] in H1; [|exact H1].
  destruct (dict_find k (tracks s1)) as [r'|] eqn:Hf; [|exact H1].
  destruct (nth_error (heap s1) r') as [st|] eqn:Hst; [|exact H1].
  assert (Hne : r' <> r) by congruence.
  destruct H1 as [Hh Hk]. cbn [tracks heap]. split.
  - now rewrite (store_set_other r' r _ _ Hne).
  - intros k' Hin. apply dict_set_incl in Hin. cbn [snd] in Hin.
    destruct Hin as [E|Hin]; [congruence|]. apply Hk.
    destruct (negb (feq k f)); [now apply dict_pop_incl in Hin|exact Hin].
Qed.

Lemma peaks_elsewhere (c : config F) (x : list F) (n0 : Z) (peaks : list F) (r : nat) :
  forall s : bank F,
    r < length (heap s) ->
    no_peak_for c x n0 peaks s r ->
    nth_error (heap (fold_left (process_peak c x n0) peaks s)) r = nth_error (heap s) r
    /\ forall k : F,
        In (k, r) (tracks (fold_left (process_peak c x n0) peaks s)) -> In (k, r) (tracks s).
Proof.
  induction peaks as [|f peaks IH]; intros s Hr Hno; cbn [fold_left]; [now split|].
  cbn [no_peak_for] in Hno. destruct Hno as [Hf Hno].
  destruct (peak_elsewhere c x n0 s f r Hr Hf) as [E1 G1].
  pose proof (process_peak_length c x n0 s f) as Hl.
  destruct (IH (process_peak c x n0 s f) ltac:(lia) Hno) as [E2 G2].
  split; [now rewrite E2|]. intros k Hin. now apply G1, G2.
Qed.

(** One block in which no peak goes to the track [r] of the bank, and
    after which [r] is still in the bank: its count went up, and stays
    below the timeout; it is held by keys that held it before. *)
Lemma track_block_miss (c : config F) (x : list F) (n0 : Z) (peaks : list F)
      (s : bank F) (r : nat) (st : track F) :
  uniq (tracks s) ->
  (forall k : F, In (k, r) (tracks s) -> is_number k) ->
  in_bank r s ->
  nth_error (heap s) r = Some st ->
  no_peak_for c x n0 peaks (mark_unseen s) r ->
  in_bank r (track_block c x n0 peaks s) ->
  miss_count st + 1 < TIMEOUT_BLOCKS c
  /\ (forall k : F, In (k, r) (tracks (track_block c x n0 peaks s)) -> In (k, r) (tracks s))
  /\ exists st' : track F,
      nth_error (heap (track_block c x n0 peaks s)) r = Some st'
      /\ miss_count st < miss_count st'.
Proof.
  intros Hu Hnum Hb Hst Hno Hin.
  assert (Hr : r < length (heap (mark_unseen s))).
  { rewrite mark_unseen_length. apply nth_error_Some. congruence. }
  destruct (peaks_elsewhere c x n0 peaks r (mark_unseen s) Hr Hno) as [E G].
  set (s2 := fold_left (process_peak c x n0) peaks (mark_unseen s)) in *.
  assert (Hu2 : uniq (tracks s2)) by (apply peaks_uniq; assumption).
  rewrite (mark_unseen_banked s r st Hb Hst) in E.
  unfold track_block in *. fold s2 in Hin |- *.
  assert (Hkeys : forall k, In (k, r) (tracks (_handle_timeouts c true s2))
                            -> In (k, r) (tracks s)).
  { intros k Hk. apply handle_timeouts_incl in Hk. now apply G in Hk. }
  apply in_bank_entry in Hin. destruct Hin as [k Hin].
  assert (Hst' : exists st', nth_error (heap (_handle_timeouts c true s2)) r = Some st'
                             /\ seen st' = false).
  { rewrite handle_timeouts_heap, E. cbn [option_map]. eexists. split; [reflexivity|].
    destruct (sweep_iter_frame c true (holders r (tracks s2)) (clear_seen st))
      as (_ & _ & _ & _ & J5).
    now rewrite J5. }
  destruct Hst' as (st' & Hst' & Hseen).
  destruct (sweep_survivor c s2 k r st' Hu2 (Hnum k (Hkeys k Hin)) Hin Hst' Hseen)
    as (st2 & Hst2 & Hlt & Hup).
  rewrite E in Hst2. injection Hst2 as <-. cbn [miss_count clear_seen] in Hlt, Hup.
  split; [exact Hlt|]. split; [exact Hkeys|]. exists st'. now split.
Qed.

(** Over a run of non-silent blocks in which no peak goes to the track,
    the count bounds the length of the run while the track is in the bank. *)
Lemma run_miss (c : config F) (inputs : list (list F * Z)) (r : nat) :
  forall (s : bank F) (st : track F),
    uniq (tracks s) ->
    (forall k : F, In (k, r) (tracks s) -> is_number k) ->
    nth_error (heap s) r = Some st ->
    Forall (fun bn => silent (fst bn) = false) inputs ->
    unmatched c inputs s r ->
    inputs <> [] ->
    in_bank r (run_blocks c inputs s) ->
    miss_count st + length inputs < TIMEOUT_BLOCKS c.
Proof.
  induction inputs as [|bn rest IH]; intros s st Hu Hnum Hst Hns Hun Hne Hin; [congruence|].
  inversion Hns as [|? ? Hb Hns']; subst.
  cbn [unmatched] in Hun. destruct Hun as [[Hsil|Hno] Hun]; [congruence|].
  unfold run_blocks in Hin. cbn [fold_left] in Hin.
  fold (run_blocks c rest (fst (_process_block c (fst bn) (snd bn) s))) in Hin.
  assert (E : fst (_process_block c (fst bn) (snd bn) s)
              = track_block c (fst bn) (snd bn) (peak_freqs c (fst bn)) s).
  { unfold _process_block. now rewrite Hb. }
  rewrite E in *.
  set (s1 := track_block c (fst bn) (snd bn) (peak_freqs c (fst bn)) s) in *.
  assert (Hr : r < length (heap s)) by (apply nth_error_Some; congruence).
  assert (Hin1 : in_bank r s1).
  { destruct (run_blocks_bank c rest r s1 Hin) as [H|H]; [assumption|].
    exfalso. pose proof (track_block_length c (fst bn) (snd bn) (peak_freqs c (fst bn)) s).
    fold s1 in H0. lia. }
  assert (Hin0 : in_bank r s).
  { destruct (track_block_bank c (fst bn) (snd bn) (peak_freqs c (fst bn)) s r Hin1)
      as [H|H]; [assumption|lia]. }
  destruct (track_block_miss c (fst bn) (snd bn) (peak_freqs c (fst bn)) s r st
                             Hu Hnum Hin0 Hst Hno Hin1)
    as (Hlt & Hkeys & st1 & Hst1 & Hup).
  destruct rest as [|bn' rest'].
  - cbn [length]. lia.
  - assert (Hu1 : uniq (tracks s1)) by (apply track_block_uniq; assumption).
    assert (Hnum1 : forall k, In (k, r) (tracks s1) -> is_number k)
      by (intros k Hk; apply Hnum, Hkeys, Hk).
    specialize (IH s1 st1 Hu1 Hnum1 Hst1 Hns' Hun ltac:(discriminate) Hin).
    cbn [length] in *. lia.
Qed.
End Eviction.

(** ** Well-formed banks and the capacity *)

Section WellFormed.
Context {F : Type} {A : Arith F} {L : NumPy F} {K : KeyEq F}.
Hypothesis ema_fix : ema_fixes_keys (F := F).
Hypothesis feq_refl : forall k : F, feq k k = true.

Lemma dict_pop_length (k : F) (d : dict F nat) (r : nat) :
  dict_find k d = Some r -> S (length (dict_pop k d)) = length d.
Proof.
  induction d as [|[k1 v1] d IH]; simpl; [discriminate|].
  destruct (feq k1 k); [reflexivity|]. intros H. simpl. f_equal. auto.
Qed.

Lemma dict_set_length (k : F) (v : nat) (d : dict F nat) :
  length (dict_set k v d) <= S (length d).
Proof.
  induction d as [|[k1 v1] d IH]; simpl; [lia|].
  destruct (feq k1 k); simpl; lia.
Qed.

Lemma dict_set_entry (k : F) (v : nat) (d : dict F nat) (e : F * nat) :
  In e (dict_set k v d) -> (snd e = v /\ feq (fst e) k = true) \/ In e d.
Proof.
  induction d as [|[k1 v1] d IH]; simpl.
  - intros [<-|[]]. left. split; [reflexivity|apply feq_refl].
  - destruct (feq k1 k) eqn:E; simpl; intros [<-|H]; auto.
    destruct (IH H); auto.
Qed.

(** Storing the value a key already holds changes nothing. *)
Lemma dict_set_same (k k0 : F) (r : nat) (d : dict F nat) :
  uniq d -> In (k0, r) d -> feq k0 k = true -> dict_set k r d = d.
Proof.
  induction d as [|[k1 v1] d IH]; simpl; [tauto|].
  intros [Hf Hu] Hin Hk. destruct (feq k1 k) eqn:E.
  - f_equal. f_equal.
    assert (E1 : feq k1 k0 = true).
    { apply feq_trans with k; [assumption|]. now rewrite feq_sym. }
    destruct Hin as [[= -> ->]|Hin]; [reflexivity|].
    rewrite dict_find_None in Hf. specialize (Hf _ Hin). cbn in Hf.
    rewrite feq_sym in Hf. congruence.
  - destruct Hin as [[= -> ->]|Hin]; [congruence|].
    f_equal. auto.
Qed.

Lemma values_pop_incl (k : F) (d : dict F nat) (v : nat) :
  In v (values (dict_pop k d)) -> In v (values d).
Proof.
  unfold values. rewrite !in_map_iff. intros (e & <- & He).
  exists e. split; [reflexivity|]. eapply dict_pop_incl; eauto.
Qed.

Lemma nodup_values_pop (k : F) (d : dict F nat) :
  NoDup (values d) -> NoDup (values (dict_pop k d)).
Proof.
  induction d as [|[k1 v1] d IH]; simpl; [auto|].
  intros H. inversion H as [|? ? Hn Hd]; subst.
  destruct (feq k1 k); [assumption|]. unfold values in *. simpl. constructor; [|auto].
  intros Hv. apply Hn. eapply values_pop_incl; eauto.
Qed.

Lemma nodup_values_fold_pop (rm : list F) :
  forall d : dict F nat,
    NoDup (values d) -> NoDup (values (fold_left (fun d' k => dict_pop k d') rm d)).
Proof.
  induction rm as [|k rm IH]; intros d H; simpl; auto using nodup_values_pop.
Qed.

(** [pop] takes out the value the key holds. *)
Lemma pop_find_values (k : F) (d : dict F nat) (r : nat) :
  dict_find k d = Some r -> NoDup (values d) -> ~ In r (values (dict_pop k d)).
Proof.
  induction d as [|[k1 v1] d IH]; simpl; [discriminate|].
  intros Hf Hn. inversion Hn as [|? ? Hn1 Hn2]; subst.
  destruct (feq k1 k).
  - injection Hf as <-. assumption.
  - unfold values in *. simpl. intros [<-|Hin].
    + apply Hn1. apply dict_find_In in Hf. destruct Hf as (k' & Hin & _).
      unfold values. apply in_map_iff. exists (k', v1). auto.
    + now apply (IH Hf Hn2).
Qed.

Lemma nodup_values_set (k : F) (v : nat) (d : dict F nat) :
  ~ In v (values d) -> NoDup (values d) -> NoDup (values (dict_set k v d)).
Proof.
  unfold values. induction d as [|[k1 v1] d IH]; simpl.
  - intros _ _. constructor; [intros []|constructor].
  - intros Hv Hn. inversion Hn as [|? ? Hn1 Hn2]; subst.
    destruct (feq k1 k); simpl.
    + constructor; [tauto|assumption].
    + constructor; [|apply IH; tauto].
      rewrite in_map_iff. intros (e & E & He).
      apply dict_set_incl in He. destruct He as [He|He]; [intuition congruence|].
      apply Hn1. apply in_map_iff. eauto.
Qed.

(** Taking a peak keeps a well-formed bank well-formed and within the
    capacity. *)
Lemma process_peak_well_formed (c : config F) (x : list F) (n0 : Z) (s : bank F) (f : F) :
  well_formed s -> length (tracks s) <= MAX_TRACKS c ->
  well_formed (process_peak c x n0 s f)
  /\ length (tracks (process_peak c x n0 s f)) <= MAX_TRACKS c.
Proof.
  intros (Hu & Hn & Hk) Hlen.
  assert (W1 : well_formed (fst (resolve_peak c s f))
               /\ length (tracks (fst (resolve_peak c s f))) <= MAX_TRACKS c).
  { destruct (resolve_peak_cases c s f) as [[m ->]|[-> [Hm Hlt]]]; cbn [fst].
    - repeat split; assumption.
    - split; [|cbn [tracks]; rewrite length_app; cbn; lia].
      split; [cbn [tracks]; now apply uniq_app|]. split.
      + cbn [tracks]. unfold values. rewrite map_app. cbn [map snd].
        apply NoDup_app; [exact Hn|repeat constructor; intros []|].
        intros v Hv [<-|[]]. unfold values in Hv. apply in_map_iff in Hv.
        destruct Hv as ([k r] & E & Hin). cbn in E. subst r.
        destruct (Hk _ _ Hin) as (st & Hst & _).
        assert (length (heap s) < length (heap s)) by (apply nth_error_Some; congruence).
        lia.
      + intros k r Hin. cbn [tracks heap] in *. apply in_app_or in Hin.
        destruct Hin as [Hin|[[= <- <-]|[]]].
        * destruct (Hk _ _ Hin) as (st & Hst & Hf). exists st.
          split; [|assumption]. rewrite nth_error_app1; [assumption|].
          apply nth_error_Some. congruence.
        * exists (new_track c f). split; [|apply feq_refl].
          rewrite nth_error_app2 by lia. now rewrite Nat.sub_diag. }
  destruct W1 as [(Hu1 & Hn1 & Hk1) Hlen1].
  destruct (process_peak_cases c x n0 s f) as [->|(k & r & st & _ & Hf & Hst & ->)];
    [repeat split; assumption|].
  set (s1 := fst (resolve_peak c s f)) in *.
  set (st' := update_track c x n0 f st).
  destruct (dict_find_In _ _ _ Hf) as (k0 & Hin0 & Hk0).
  destruct (Hk1 _ _ Hin0) as (st0 & Hst0 & Hf0).
  assert (st0 = st) by congruence. subst st0.
  destruct (feq k f) eqn:Ekf; cbn [negb].
  - (* the match is the peak: the key stays *)
    assert (Ek' : feq k0 (f0 st') = true).
    { rewrite feq_sym. apply ema_fix; [assumption|].
      rewrite feq_sym. apply feq_trans with k; assumption. }
    rewrite (dict_set_same (f0 st') k0 r (tracks s1) Hu1 Hin0 Ek').
    split; [|assumption]. split; [assumption|]. split; [assumption|].
    intros ke re Hin. cbn [tracks heap] in *.
    rewrite (store_set_lookup r re _ _ _ Hst).
    destruct (Hk1 _ _ Hin) as (ste & Hste & Hfe).
    destruct (Nat.eq_dec r re) as [<-|Hne]; [|eauto].
    exists st'. split; [reflexivity|].
    assert (E : (ke, r) = (k0, r)).
    { destruct (in_split _ _ Hin0) as (d1 & d2 & Hd).
      rewrite Hd in Hin, Hn1. unfold values in Hn1.
      rewrite map_app in Hn1. cbn [map snd] in Hn1.
      apply NoDup_remove_2 in Hn1.
      apply in_app_or in Hin. destruct Hin as [Hin|[Hin|Hin]]; [|congruence|];
        exfalso; apply Hn1; apply in_or_app; [left|right];
        apply in_map_iff; exists (ke, r); auto. }
    injection E as ->. now rewrite feq_sym.
  - (* the match is another key: it is popped *)
    assert (Hout : ~ In r (values (dict_pop k (tracks s1)))) by now apply pop_find_values.
    split.
    + split; [cbn [tracks]; apply uniq_set; now apply uniq_pop|]. split.
      * cbn [tracks]. apply nodup_values_set; [assumption|now apply nodup_values_pop].
      * intros ke re Hin. cbn [tracks heap] in *.
        rewrite (store_set_lookup r re _ _ _ Hst).
        apply dict_set_entry in Hin. cbn [fst snd] in Hin.
        destruct Hin as [[-> Hke]|Hin].
        -- destruct (Nat.eq_dec r r); [|contradiction].
           exists st'. split; [reflexivity|]. now rewrite feq_sym.
        -- destruct (Nat.eq_dec r re) as [<-|Hne].
           ++ exfalso. apply Hout. unfold values. apply in_map_iff. exists (ke, r). auto.
           ++ apply dict_pop_incl in Hin. apply (Hk1 _ _ Hin).
    + cbn [tracks]. pose proof (dict_set_length (f0 st') r (dict_pop k (tracks s1))).
      pose proof (dict_pop_length k (tracks s1) r Hf). lia.
Qed.

Lemma mark_unseen_f0 (s : bank F) (r : nat) :
  option_map f0 (nth_error (heap (mark_unseen s)) r)
  = option_map f0 (nth_error (heap s) r).
Proof.
  unfold mark_unseen. cbn [heap].
  destruct (mark_unseen_heap (tracks s) (heap s) r) as [->| ->]; [reflexivity|].
  now destruct (nth_error (heap s) r).
Qed.

Lemma keyed_by_f0_ext (s s' : bank F) :
  (forall e, In e (tracks s') -> In e (tracks s)) ->
  (forall r, option_map f0 (nth_error (heap s') r) = option_map f0 (nth_error (heap s) r)) ->
  keyed_by_f0 s -> keyed_by_f0 s'.
Proof.
  intros Ht Hh Hk k r Hin. destruct (Hk k r (Ht _ Hin)) as (st & Hst & Hf).
  specialize (Hh r). rewrite Hst in Hh.
  destruct (nth_error (heap s') r) as [st'|]; [|discriminate].
  cbn in Hh. injection Hh as Hh. exists st'. split; [reflexivity|congruence].
Qed.

Lemma mark_unseen_well_formed (s : bank F) : well_formed s -> well_formed (mark_unseen s).
Proof.
  intros (Hu & Hn & Hk). repeat split; [assumption|assumption|].
  apply (keyed_by_f0_ext s); [auto|apply mark_unseen_f0|assumption].
Qed.

Lemma fold_pop_length (rm : list F) :
  forall d : dict F nat, length (fold_left (fun d' k => dict_pop k d') rm d) <= length d.
Proof.
  induction rm as [|k rm IH]; intros d; simpl; [lia|].
  etransitivity; [apply IH|]. clear.
  induction d as [|[k1 v1] d IH]; simpl; [lia|]. destruct (feq k1 k); simpl; lia.
Qed.

Lemma handle_timeouts_well_formed (c : config F) (u : bool) (s : bank F) :
  well_formed s -> well_formed (_handle_timeouts c u s).
Proof.
  intros (Hu & Hn & Hk). split; [|split].
  - unfold _handle_timeouts. cbn [tracks]. now apply uniq_fold_pop.
  - unfold _handle_timeouts. cbn [tracks]. now apply nodup_values_fold_pop.
  - apply (keyed_by_f0_ext s); [apply handle_timeouts_incl| |assumption].
    intros r. rewrite handle_timeouts_heap. destruct (nth_error (heap s) r); cbn; [|reflexivity].
    f_equal. apply sweep_iter_frame.
Qed.

Lemma handle_timeouts_tracks_length (c : config F) (u : bool) (s : bank F) :
  length (tracks (_handle_timeouts c u s)) <= length (tracks s).
Proof. unfold _handle_timeouts. cbn [tracks]. apply fold_pop_length. Qed.

Lemma peaks_well_formed (c : config F) (x : list F) (n0 : Z) (peaks : list F) :
  forall s : bank F,
    well_formed s -> length (tracks s) <= MAX_TRACKS c ->
    well_formed (fold_left (process_peak c x n0) peaks s)
    /\ length (tracks (fold_left (process_peak c x n0) peaks s)) <= MAX_TRACKS c.
Proof.
  induction peaks as [|f peaks IH]; intros s Hw Hl; cbn [fold_left]; [auto|].
  destruct (process_peak_well_formed c x n0 s f Hw Hl). now apply IH.
Qed.

(** With exact blends the bank is within its capacity after every peak of
    a block and after the sweep. *)
Lemma track_block_capacity (c : config F) (x : list F) (n0 : Z) (peaks : list F)
      (s : bank F) :
  well_formed s -> length (tracks s) <= MAX_TRACKS c ->
  (forall n : nat,
      length (tracks (fold_left (process_peak c x n0) (firstn n peaks) (mark_unseen s)))
      <= MAX_TRACKS c)
  /\ well_formed (track_block c x n0 peaks s)
  /\ length (tracks (track_block c x n0 peaks s)) <= MAX_TRACKS c.
Proof.
  intros Hw Hl.
  assert (Hw1 : well_formed (mark_unseen s)) by now apply mark_unseen_well_formed.
  split; [intros n; now apply peaks_well_formed|].
  destruct (peaks_well_formed c x n0 peaks (mark_unseen s) Hw1 Hl) as [Hw2 Hl2].
  unfold track_block. split; [now apply handle_timeouts_well_formed|].
  etransitivity; [apply handle_timeouts_tracks_length|exact Hl2].
Qed.

Lemma run_blocks_capacity (c : config F) (inputs : list (list F * Z)) :
  forall s : bank F,
    well_formed s -> length (tracks s) <= MAX_TRACKS c ->
    well_formed (run_blocks c inputs s)
    /\ length (tracks (run_blocks c inputs s)) <= MAX_TRACKS c.
Proof.
  unfold run_blocks.
  induction inputs as [|bn inputs IH]; intros s Hw Hl; cbn [fold_left]; [auto|].
  apply IH; unfold _process_block; destruct (silent (fst bn)); cbn [fst]; try assumption;
    now apply track_block_capacity.
Qed.
End WellFormed.

(** ** The timeout *)

Section Timeout.
Context {F : Type} {A : Arith F} {L : NumPy F}.

Lemma process_block_silent (c : config F) (b : list F) (n0 : Z) (s : bank F) :
  silent b = true -> _process_block c b n0 s = (s, []).
Proof. intros H. unfold _process_block. now rewrite H. Qed.

(** Over a run of non-silent blocks no peak of which goes to the track, a
    track of the bank whose keys are numbers is out of the bank once the
    run is [TIMEOUT_BLOCKS] long. *)
Lemma unmatched_evicted {K : KeyEq F} (c : config F) (s : bank F) (r : nat)
      (inputs : list (list F * Z)) :
  uniq (tracks s) ->
  r < length (heap s) ->
  (forall k : F, In (k, r) (tracks s) -> is_number k) ->
  Forall (fun bn => silent (fst bn) = false) inputs ->
  unmatched c inputs s r ->
  inputs <> [] ->
  TIMEOUT_BLOCKS c <= length inputs ->
  ~ in_bank r (run_blocks c inputs s).
Proof.
  intros Hu Hr Hnum Hns Hun Hne Hlen Hin.
  destruct (nth_error (heap s) r) as [st|] eqn:Hst.
  - pose proof (run_miss c inputs r s st Hu Hnum Hst Hns Hun Hne Hin). lia.
  - apply nth_error_None in Hst. lia.
Qed.

(** C5, amended: blocks rejected by the silence guard leave the bank and
    the counts as they are, and do not count. A track none of whose keys is
    a NaN and to which no peak goes (by [_match_track] or [_ensure_track])
    over [TIMEOUT_BLOCKS] (at least one) consecutive non-silent blocks is
    out of the bank after the last of them, whatever its flag and count
    were before. The sweep removes an entry only when its track is not seen
    and its count has reached [TIMEOUT_BLOCKS]. A track object that is out
    of the bank never comes back. Keys are unique, as in any dict; [==] on
    floats is symmetric and transitive. *)
Theorem C5_timeout_eviction {K : KeyEq F} (c : config F) (s : bank F) :
  uniq (tracks s) ->
  (forall (r : nat) (inputs : list (list F * Z)),
      r < length (heap s) ->
      (forall k : F, In (k, r) (tracks s) -> is_number k) ->
      Forall (fun bn => silent (fst bn) = false) inputs ->
      unmatched c inputs s r ->
      inputs <> [] ->
      TIMEOUT_BLOCKS c <= length inputs ->
      ~ in_bank r (run_blocks c inputs s))
  /\ (forall (b : list F) (n0 : Z),
         silent b = true -> _process_block c b n0 s = (s, []))
  /\ (forall (k : F) (r : nat),
         In (k, r) (tracks s) ->
         ~ In (k, r) (tracks (_handle_timeouts c true s)) ->
         exists st' : track F,
           nth_error (heap (_handle_timeouts c true s)) r = Some st'
           /\ seen st' = false
           /\ TIMEOUT_BLOCKS c <= miss_count st')
  /\ (forall (r : nat) (inputs : list (list F * Z)),
         r < length (heap s) ->
         ~ in_bank r s ->
         ~ in_bank r (run_blocks c inputs s)).
Proof.
  intros Hu. repeat split.
  - intros r inputs. now apply unmatched_evicted.
  - intros b n0. apply process_block_silent.
  - intros k r. now apply sweep_removed.
  - intros r inputs Hr Hout Hin.
    destruct (run_blocks_bank c inputs r s Hin); [contradiction|lia].
Qed.
End Timeout.
(** ** Exact arithmetic: deciding comparisons *)

Section ExactFacts.
Import Exact.
#[local] Open Scope R_scope.

Lemma Rltb_true (x y : R) : x < y -> Rltb x y = true.
Proof. intros H. unfold Rltb. destruct (Rlt_dec x y); [reflexivity|contradiction]. Qed.

Lemma Rltb_false (x y : R) : y <= x -> Rltb x y = false.
Proof. intros H. unfold Rltb. destruct (Rlt_dec x y); [lra|reflexivity]. Qed.

Lemma Rleb_true (x y : R) : x <= y -> Rleb x y = true.
Proof. intros H. unfold Rleb. destruct (Rle_dec x y); [reflexivity|contradiction]. Qed.

Lemma Rleb_false (x y : R) : y < x -> Rleb x y = false.
Proof. intros H. unfold Rleb. destruct (Rle_dec x y); [lra|reflexivity]. Qed.

Lemma Reqb_true (x y : R) : x = y -> Reqb x y = true.
Proof. intros H. unfold Reqb. destruct (Req_dec_T x y); [reflexivity|contradiction]. Qed.

Lemma Reqb_false (x y : R) : x <> y -> Reqb x y = false.
Proof. intros H. unfold Reqb. destruct (Req_dec_T x y); [contradiction|reflexivity]. Qed.

Lemma Rltb_lt (x y : R) : Rltb x y = true <-> x < y.
Proof. unfold Rltb. destruct (Rlt_dec x y); split; auto; discriminate. Qed.

Lemma Reqb_eq (x y : R) : Reqb x y = true <-> x = y.
Proof. unfold Reqb. destruct (Req_dec_T x y); split; auto; discriminate. Qed.

Lemma exact_key_eq : KeyEq R.
Proof.
  split.
  - intros k k'. cbn. unfold Reqb.
    destruct (Req_dec_T k k'), (Req_dec_T k' k); congruence.
  - intros k k' k''. cbn. rewrite !Reqb_eq. congruence.
Qed.

(** Every real is a number. *)
Lemma exact_number (k : R) : is_number k.
Proof. unfold is_number. cbn. now apply Reqb_true. Qed.

Lemma arctan2_pos_x (y x : R) : 0 < x -> arctan2 y x = atan (y / x).
Proof. intros H. unfold arctan2. destruct (Rlt_dec 0 x); [reflexivity|contradiction]. Qed.



Lemma principal_angle_exact (a : R) :
  _principal_angle a = (a + PI) - IZR (Zfloor ((a + PI) / (2 * PI))) * (2 * PI) - PI.
Proof. reflexivity. Qed.

(** Over the reals the wrapped angle is congruent to [a] modulo [2 pi] and
    lies in [[-pi, pi)]. *)
Lemma principal_angle_real (a : R) :
  _principal_angle a = (a + PI) - IZR (Zfloor ((a + PI) / (2 * PI))) * (2 * PI) - PI
  /\ - PI <= _principal_angle a < PI
  /\ exists k : Z, _principal_angle a = a - IZR k * (2 * PI).
Proof.
  pose proof (principal_angle_exact a) as E.
  split; [exact E|]. rewrite E.
  pose proof PI_RGT_0 as Hpi.
  pose proof (Zfloor_bound ((a + PI) / (2 * PI))) as [Hlo Hhi].
  set (q := IZR (Zfloor ((a + PI) / (2 * PI)))) in *.
  assert (Hx : a + PI = (a + PI) / (2 * PI) * (2 * PI)) by (field; lra).
  split.
  - split; nra.
  - exists (Zfloor ((a + PI) / (2 * PI))). fold q. lra.
Qed.

Lemma principal_angle_real_pi : _principal_angle PI = - PI.
Proof.
  pose proof PI_RGT_0 as Hpi. rewrite principal_angle_exact.
  replace ((PI + PI) / (2 * PI)) with (IZR 1) by (field; lra).
  rewrite ZfloorZ. lra.
Qed.
End ExactFacts.

(** ** Exact arithmetic: the correlation *)

Section ExactTrend.
Import Exact.
#[local] Open Scope R_scope.

Lemma sum_cons (v : R) (l : list R) : sum (v :: l) = v + sum l.
Proof. reflexivity. Qed.

Lemma sum_sq_nonneg (l : list R) : 0 <= sum (map sq l).
Proof.
  induction l as [|v l IH]; cbn [map]; [cbn; lra|].
  rewrite sum_cons. unfold sq at 1. cbn [fmul arith].
  pose proof (Rle_0_sqr v) as Q. unfold Rsqr in Q. lra.
Qed.

Lemma cauchy_schwarz_step (a b SA SB SC : R) :
  0 <= SA -> 0 <= SB -> SC * SC <= SA * SB ->
  (a * b + SC) * (a * b + SC) <= (a * a + SA) * (b * b + SB).
Proof.
  intros HA HB IH.
  assert (H : 2 * (a * b * SC) <= a * a * SB + b * b * SA).
  { destruct (Req_dec SA 0) as [E|N].
    - subst SA. rewrite Rmult_0_l in IH.
      pose proof (Rle_0_sqr SC) as Q. unfold Rsqr in Q.
      assert (E : SC * SC = 0) by lra. apply Rmult_integral in E.
      assert (SC = 0) by tauto. subst SC.
      pose proof (Rle_0_sqr a) as Qa. unfold Rsqr in Qa.
      pose proof (Rmult_le_pos _ _ Qa HB). lra.
    - assert (0 <= SA * (a * a * SB + b * b * SA - 2 * (a * b * SC))).
      { replace (SA * (a * a * SB + b * b * SA - 2 * (a * b * SC)))
          with ((b * SA - a * SC) * (b * SA - a * SC) + a * a * (SA * SB - SC * SC))
          by ring.
        pose proof (Rle_0_sqr a) as Qa. unfold Rsqr in Qa.
        assert (0 <= a * a * (SA * SB - SC * SC)) by (apply Rmult_le_pos; lra).
        pose proof (Rle_0_sqr (b * SA - a * SC)) as Q. unfold Rsqr in Q. lra. }
      assert (0 < SA) by lra.
      apply Rnot_lt_le. intros C.
      assert (SA * (a * a * SB + b * b * SA - 2 * (a * b * SC)) < 0).
      { replace 0 with (SA * 0) by ring. apply Rmult_lt_compat_l; lra. }
      lra. }
  assert (E : (a * a + SA) * (b * b + SB) - (a * b + SC) * (a * b + SC)
              = (a * a * SB + b * b * SA - 2 * (a * b * SC)) + (SA * SB - SC * SC)) by ring.
  lra.
Qed.

Lemma cauchy_schwarz (l : list (R * R)) :
  sum (map (fun p => fst p * snd p) l) * sum (map (fun p => fst p * snd p) l)
  <= sum (map sq (map fst l)) * sum (map sq (map snd l)).
Proof.
  induction l as [|[a b] l IH]; cbn [map fst snd]; [cbn; lra|].
  rewrite !sum_cons. unfold sq at 1 3. cbn [fmul arith].
  apply cauchy_schwarz_step; [apply sum_sq_nonneg|apply sum_sq_nonneg|exact IH].
Qed.

Lemma map_fst_combine (x t : list R) :
  length x = length t -> map fst (combine x t) = x /\ map snd (combine x t) = t.
Proof.
  revert t. induction x as [|a x IH]; intros [|b t] H; cbn in *; try discriminate; auto.
  destruct (IH t) as [E1 E2]; [congruence|]. now rewrite E1, E2.
Qed.

Lemma centered_length (l : list R) : length (centered l) = length l.
Proof. unfold centered. apply length_map. Qed.

Lemma tau_length (n : nat) : length (tau (F := R) n) = n.
Proof. unfold tau. now rewrite length_map, length_seq. Qed.

(** The numerator of the coefficient is at most its denominator. *)
Lemma rho_num_le_denom (x_hist : list R) : Rabs (rho_num x_hist) <= rho_denom x_hist.
Proof.
  unfold rho_num, rho_denom. cbn [np_sum numpy fsqrt fmul arith].
  set (xc := centered x_hist). set (tc := centered (tau (length x_hist))).
  assert (Hlen : length xc = length tc).
  { unfold xc, tc. now rewrite !centered_length, tau_length. }
  destruct (map_fst_combine xc tc Hlen) as [E1 E2].
  pose proof (cauchy_schwarz (combine xc tc)) as CS. rewrite E1, E2 in CS.
  rewrite <- sqrt_Rsqr_abs. apply sqrt_le_1_alt. exact CS.
Qed.

Lemma pearson_bound (x_hist : list R) : qualifies x_hist = true -> Rabs (pearson x_hist) <= 1.
Proof.
  unfold qualifies, pearson. intros H. apply andb_prop in H. destruct H as [_ H].
  cbn [flt fdiv arith lit_1e_9] in *. apply Rltb_lt in H.
  assert (Hpos : 0 < rho_denom x_hist).
  { eapply Rlt_trans; [|exact H]. apply Rinv_0_lt_compat. apply pow_lt. lra. }
  pose proof (rho_num_le_denom x_hist) as Hn.
  unfold Rdiv. rewrite Rabs_mult, (Rabs_pos_eq (/ _)) by (left; now apply Rinv_0_lt_compat).
  apply (Rmult_le_reg_r (rho_denom x_hist)); [assumption|].
  rewrite Rmult_assoc, Rinv_l by lra. lra.
Qed.

Lemma rho_vals_bound (s : bank R) : Forall (fun v => Rabs v <= 1) (rho_vals s).
Proof.
  rewrite rho_vals_spec. apply Forall_forall. intros v Hv.
  apply in_map_iff in Hv. destruct Hv as (h & <- & Hh).
  apply filter_In in Hh. now apply pearson_bound.
Qed.

Lemma np_mean_exact (l : list R) : np_mean l = sum l / INR (length l).
Proof. unfold np_mean. cbn [fdiv np_sum numpy arith of_int]. now rewrite <- INR_IZR_INZ. Qed.

Lemma sum_bound (l : list R) :
  Forall (fun v => Rabs v <= 1) l -> Rabs (sum l) <= INR (length l).
Proof.
  induction 1 as [|v l Hv Hl IH]; [cbn; rewrite Rabs_R0; lra|].
  rewrite sum_cons. change (length (v :: l)) with (S (length l)). rewrite S_INR.
  eapply Rle_trans; [apply Rabs_triang|]. lra.
Qed.

Lemma mean_bound (l : list R) :
  l <> [] -> Forall (fun v => Rabs v <= 1) l -> Rabs (np_mean l) <= 1.
Proof.
  intros Hne Hl. rewrite np_mean_exact.
  assert (Hn : 0 < INR (length l)).
  { apply lt_0_INR. destruct l; [congruence|cbn; lia]. }
  unfold Rdiv. rewrite Rabs_mult, (Rabs_pos_eq (/ _)) by (left; now apply Rinv_0_lt_compat).
  apply (Rmult_le_reg_r (INR (length l))); [assumption|].
  rewrite Rmult_assoc, Rinv_l by lra. pose proof (sum_bound l Hl). lra.
Qed.

Lemma rho_lists_bound (c : config R) (inputs : list (list R * Z)) :
  forall s : bank R, Forall (Forall (fun v => Rabs v <= 1)) (rho_lists c inputs s).
Proof.
  induction inputs as [|bn inputs IH]; intros s; cbn [rho_lists]; constructor; [|apply IH].
  unfold _process_block. destruct (silent (fst bn)); cbn [snd]; [constructor|].
  apply rho_vals_bound.
Qed.

Lemma block_values_bound (rhos : list (list R)) :
  Forall (Forall (fun v => Rabs v <= 1)) rhos ->
  Forall (fun v => Rabs v <= 1) (block_values rhos).
Proof.
  intros H. unfold block_values. apply Forall_forall. intros v Hv.
  apply in_map_iff in Hv. destruct Hv as (l & <- & Hl).
  apply filter_In in Hl. destruct Hl as [Hl Hne].
  rewrite Forall_forall in H. apply mean_bound; [|now apply H].
  destruct l; [discriminate|congruence].
Qed.

Lemma sum_abs_nonneg (l : list R) : 0 <= sum (map Rabs l).
Proof.
  induction l as [|u l IH]; cbn [map]; [cbn; lra|].
  rewrite sum_cons. pose proof (Rabs_pos u). lra.
Qed.

Lemma rho_mean_abs_bound (all : list R) :
  Forall (fun v => Rabs v <= 1) all -> 0 <= rho_mean_abs_of all <= 1.
Proof.
  intros H. unfold rho_mean_abs_of. destruct all as [|v all]; [cbn; lra|].
  set (l := v :: all) in *.
  assert (Hl : Forall (fun w => Rabs w <= 1) (map fabs l)).
  { apply Forall_forall. intros w Hw. apply in_map_iff in Hw.
    destruct Hw as (u & <- & Hu). rewrite Forall_forall in H.
    cbn [fabs arith]. rewrite Rabs_Rabsolu. now apply H. }
  assert (Hne : map fabs l <> []) by discriminate.
  pose proof (mean_bound (map fabs l) Hne Hl) as Hb.
  split; [|eapply Rle_trans; [apply RRle_abs|exact Hb]].
  rewrite np_mean_exact. apply Rmult_le_pos.
  - apply sum_abs_nonneg.
  - left. apply Rinv_0_lt_compat. apply lt_0_INR. cbn. lia.
Qed.

(** Over the reals the scalar a file analysis reports lies in [[0, 1]]. *)
Lemma exact_rho_mean_abs_bound
      (a a' : analyzer R) (wav : option (list R * Z)) (rho : R) :
  process_file a wav = (a', Row rho) -> 0 <= rho <= 1.
Proof.
  unfold process_file. destruct wav as [[audio fs]|]; [|discriminate].
  destruct (negb _); [discriminate|].
  destruct (py_range _ _) as [offsets|]; [|discriminate].
  intros [= _ <-]. apply rho_mean_abs_bound.
  destruct (fold_drive_run (cfg a) audio offsets loop_init) as [_ ->].
  cbn [all_rho_values loop_init app]. apply block_values_bound, rho_lists_bound.
Qed.

Lemma sum_repeat (v : R) (n : nat) : sum (repeat v n) = INR n * v.
Proof.
  induction n as [|n IH]; [cbn; lra|].
  change (repeat v (S n)) with (v :: repeat v n). rewrite sum_cons, IH, S_INR. lra.
Qed.

(** A constant history has a zero denominator. *)
Lemma constant_history_excluded (v : R) (n : nat) : qualifies (repeat v n) = false.
Proof.
  unfold qualifies. destruct (3 <=? length (repeat v n)) eqn:H3; [|reflexivity].
  cbn [andb flt arith lit_1e_9]. apply Rltb_false.
  apply Nat.leb_le in H3. rewrite repeat_length in H3.
  assert (E : sum (map sq (centered (repeat v n))) = 0).
  { unfold centered. rewrite np_mean_exact, sum_repeat, repeat_length.
    assert (Hn : INR n <> 0) by (apply not_0_INR; lia).
    replace (INR n * v / INR n) with v by (field; exact Hn).
    cbn [fsub arith]. generalize n. clear. intros n.
    induction n as [|n IH]; [reflexivity|].
    cbn [repeat map]. rewrite sum_cons, IH. unfold sq. cbn [fmul arith]. ring. }
  unfold rho_denom. cbn [np_sum numpy fsqrt fmul arith]. rewrite E, Rmult_0_l, sqrt_0.
  left. apply Rinv_0_lt_compat. apply pow_lt. lra.
Qed.

Lemma exact_ema_fixes_keys : ema_fixes_keys (F := R).
Proof.
  intros a b k Ha Hb. cbn [feq arith] in *. rewrite Reqb_eq in *. subst a b.
  unfold ema. cbn [fadd fmul arith lit_0_9 lit_0_1]. field.
Qed.

Lemma empty_bank_well_formed : well_formed (F := R) empty_bank.
Proof.
  repeat split; [constructor|]. intros k r [].
Qed.

(** In exact arithmetic the bank of a file analysis is well formed and
    within its capacity after every block, and after every peak of a block. *)
Lemma exact_capacity_bound (c : config R) (inputs : list (list R * Z)) :
  well_formed (run_blocks c inputs empty_bank)
  /\ (length (tracks (run_blocks c inputs empty_bank)) <= MAX_TRACKS c)%nat
  /\ forall (x : list R) (n0 : Z) (peaks : list R) (n : nat),
      (length (tracks (fold_left (process_peak c x n0) (firstn n peaks)
                                 (mark_unseen (run_blocks c inputs empty_bank))))
       <= MAX_TRACKS c)%nat.
Proof.
  destruct (run_blocks_capacity (K := exact_key_eq) exact_ema_fixes_keys exact_number c inputs empty_bank
                                empty_bank_well_formed) as [Hw Hl]; [cbn; lia|].
  split; [exact Hw|]. split; [exact Hl|]. intros x n0 peaks n.
  now apply (track_block_capacity (K := exact_key_eq) exact_ema_fixes_keys exact_number).
Qed.

End ExactTrend.

(** ** Exact arithmetic: the statements at concrete inputs *)

Section ExactExamples.
Import Exact.
#[local] Open Scope R_scope.
#[local] Arguments Rltb : simpl never.
#[local] Arguments Rleb : simpl never.
#[local] Arguments Reqb : simpl never.
#[local] Arguments block_phase : simpl never.






Lemma silent_zero (c : config R) : silent [0] = true.
Proof. unfold silent, np_mean, sq. cbn. apply Rltb_true.
  assert (0 < / 10 ^ 10) by (apply Rinv_0_lt_compat, pow_lt; lra). lra.
Qed.

Lemma silent_one : silent [1] = false.
Proof. unfold silent, np_mean, sq. cbn. apply Rltb_false.
  assert (/ 10 ^ 10 <= / 1); [|lra].
  apply Rinv_le_contravar; [lra|]. apply pow_R1_Rle. lra.
Qed.

Lemma band_bins_one (timeout : nat) : band_bins (cfg_one timeout) = [].
Proof.
  unfold band_bins, bins_f. cbn. rewrite Rleb_false; [reflexivity|]. lra.
Qed.

Lemma peak_freqs_one (timeout : nat) (x : list R) : peak_freqs (cfg_one timeout) x = [].
Proof. unfold peak_freqs. now rewrite band_bins_one. Qed.

Lemma bins_bin (timeout : nat) : bins_f (cfg_bin timeout) = [0].
Proof. unfold bins_f. cbn. f_equal. lra. Qed.

Lemma band_bins_bin (timeout : nat) : band_bins (cfg_bin timeout) = [0%nat].
Proof.
  unfold band_bins. rewrite bins_bin. cbn.
  rewrite !Rleb_true by lra. reflexivity.
Qed.

(** The block [1] has magnitude 1 at its one bin, above the threshold. *)
Lemma peak_freqs_bin (timeout : nat) : peak_freqs (cfg_bin timeout) [1] = [0].
Proof.
  unfold peak_freqs. rewrite band_bins_bin, bins_bin. cbn.
  replace (2 * PI * 0 * 0 / 1) with 0 by field.
  rewrite cos_0, sin_0.
  replace (1 * 1 * 1 + 0) with 1 by ring.
  replace (- (1 * 1 * 0) + 0) with 0 by ring.
  replace (1 * 1 + 0 * 0) with 1 by ring. rewrite sqrt_1.
  rewrite Rltb_true; [reflexivity|].
  apply Rdiv_lt_0_compat; [lra|].
  assert (0 < / (10 * (10 * (10 * (10 * (10 * (10 * (10 * (10 * (10 * (10 * (10
                 * (10 * 1))))))))))))) by (apply Rinv_0_lt_compat; lra).
  lra.
Qed.

(** The peak at 0 Hz is out of the reach of a track at 100 Hz: it opens a
    track of its own. *)
Lemma peak_target_bin (timeout : nat) :
  peak_target (cfg_bin timeout) (mark_unseen (bank_one 100 [])) 0 = Some 1%nat.
Proof.
  unfold peak_target, resolve_peak, _match_track, _ensure_track, dict_mem.
  cbn. rewrite Rleb_false.
  2:{ replace (100 - 0) with 100 by ring. rewrite Rabs_pos_eq by lra. lra. }
  rewrite Reqb_false by lra. cbn.
  rewrite Reqb_false by lra. rewrite Reqb_true by reflexivity. reflexivity.
Qed.

(** C5 refuted as stated: with a timeout of one block, a silent block in
    which the track is matched by no peak leaves it in the bank. *)
Lemma C5_silent_block_does_not_count :
  TIMEOUT_BLOCKS (cfg_one 1) = 1%nat
  /\ silent [0] = true
  /\ in_bank 0 (bank_one 100 [])
  /\ unmatched (cfg_one 1) [([0], 0%Z)] (bank_one 100 []) 0
  /\ in_bank 0 (run_blocks (cfg_one 1) [([0], 0%Z)] (bank_one 100 [])).
Proof.
  assert (E : _process_block (cfg_one 1) [0] 0 (bank_one 100 []) = (bank_one 100 [], []))
    by (apply process_block_silent, (silent_zero (cfg_one 1))).
  split; [reflexivity|]. split; [exact (silent_zero (cfg_one 1))|].
  split; [cbn; auto|].
  unfold run_blocks. cbn [unmatched fold_left fst snd].
  rewrite E. split; [|cbn; auto].
  split; [|exact I]. left. exact (silent_zero (cfg_one 1)).
Qed.

Lemma C5_timeout_eviction_witness :
  ~ in_bank 0 (run_blocks (cfg_bin 1) [([1], 0%Z)] (bank_one 100 [])).
Proof.
  refine (proj1 (C5_timeout_eviction (K := exact_key_eq) (cfg_bin 1) (bank_one 100 []) _)
                0%nat [([1], 0%Z)] _ _ _ _ _ _).
  - cbn. auto.
  - cbn. lia.
  - intros k _. apply exact_number.
  - constructor; [exact silent_one|constructor].
  - cbn [unmatched fst snd]. split; [|exact I]. right.
    rewrite peak_freqs_bin. cbn [no_peak_for]. split; [|exact I].
    rewrite peak_target_bin. discriminate.
  - discriminate.
  - cbn. lia.
Defined.

(** C6 refuted as stated: after the sweep of a block without peaks the
    frequency history of the track is what it was, the zero is in
    [history]. *)
Lemma C6_zero_not_in_finst_hist :
  seen_flag (track_block (cfg_one 20) [1] 0 [] bank_ramp) 0 = Some false
  /\ option_map history
                (nth_error (heap (track_block (cfg_one 20) [1] 0 [] bank_ramp)) 0)
     = Some [0]
  /\ option_map finst_hist
                (nth_error (heap (track_block (cfg_one 20) [1] 0 [] bank_ramp)) 0)
     <> Some ([1; 2; 3] ++ [0]).
Proof.
  split; [reflexivity|]. split; [reflexivity|].
  cbn. discriminate.
Qed.

Lemma C6_zero_goes_to_history_witness :
  exists st' : track R,
    nth_error (heap (_handle_timeouts (cfg_one 20) true bank_ramp)) 0 = Some st'
    /\ finst_hist st' = [1; 2; 3]
    /\ (false = false ->
        history st'
        = Nat.iter (holders 0 (tracks bank_ramp))
                   (fun h => deque_append 50 h zero) [])
    /\ (in_bank 0 bank_ramp -> (1 <= holders 0 (tracks bank_ramp))%nat)
    /\ rho_vals (_handle_timeouts (cfg_one 20) true bank_ramp)
       = rho_vals {| tracks := tracks (_handle_timeouts (cfg_one 20) true bank_ramp);
                     heap := heap bank_ramp |}.
Proof.
  apply (C6_zero_goes_to_history (cfg_one 20) bank_ramp 0
                                 (track_at 100 [1; 2; 3])).
  reflexivity.
Defined.

(** C2 refuted as stated: with blocks of four samples and a file of nine,
    the second block starts at sample 2 and is handed the index 4. *)
Lemma C2_index_is_not_the_block_start :
  py_range (Z.of_nat (length audio_nine) - Z.of_nat (BLOCK cfg_four)) (BLOCK cfg_four / 2)
  = Some [0; 2; 4]%Z
  /\ ls_n0 (fold_left (drive_block cfg_four audio_nine) (firstn 1 [0; 2; 4]%Z) loop_init)
     = 4%Z
  /\ ls_n0 (fold_left (drive_block cfg_four audio_nine) (firstn 1 [0; 2; 4]%Z) loop_init)
     <> (Z.of_nat 1 * Z.of_nat (BLOCK cfg_four / 2))%Z.
Proof.
  assert (E : ls_n0 (fold_left (drive_block cfg_four audio_nine) (firstn 1 [0; 2; 4]%Z)
                               loop_init) = 4%Z).
  { cbn [firstn fold_left]. rewrite drive_block_n0. reflexivity. }
  split; [reflexivity|]. split; [exact E|]. rewrite E. discriminate.
Qed.

Lemma C2_block_index_witness :
  2%Z = (Z.of_nat 1 * Z.of_nat (BLOCK cfg_four / 2))%Z
  /\ ls_n0 (fold_left (drive_block cfg_four audio_nine) (firstn 1 [0; 2; 4]%Z) loop_init)
     = (Z.of_nat 1 * Z.of_nat (BLOCK cfg_four))%Z
  /\ ls_bank (drive_block cfg_four audio_nine
                          (fold_left (drive_block cfg_four audio_nine)
                                     (firstn 1 [0; 2; 4]%Z) loop_init) 2)
     = fst (_process_block cfg_four (slice audio_nine 2 (BLOCK cfg_four))
                           (Z.of_nat 1 * Z.of_nat (BLOCK cfg_four))
                           (ls_bank (fold_left (drive_block cfg_four audio_nine)
                                               (firstn 1 [0; 2; 4]%Z) loop_init))).
Proof.
  apply (C2_block_index cfg_four audio_nine [0; 2; 4]%Z 1 2); reflexivity.
Defined.

Lemma C3_processed_windows_witness :
  (forall i : Z,
      In i [] <->
      (exists k : nat, i = Z.of_nat k * Z.of_nat (BLOCK cfg_four / 2))%Z
      /\ (i + Z.of_nat (BLOCK cfg_four) < Z.of_nat (length audio_four))%Z)
  /\ (length audio_four = BLOCK cfg_four ->
      @nil Z = []
      /\ process_file (init cfg_four) (Some (audio_four, FS cfg_four))
         = ({| cfg := cfg_four; state := empty_bank |}, Row zero)).
Proof.
  apply (C3_processed_windows cfg_four audio_four []). reflexivity.
Defined.

End ExactExamples.

(** ** Exact arithmetic: the analysis of a file of three blocks *)

Section ExactFile.
Import Exact.
#[local] Open Scope R_scope.
#[local] Arguments Rltb : simpl never.
#[local] Arguments Rleb : simpl never.
#[local] Arguments Reqb : simpl never.
#[local] Arguments block_phase : simpl never.
#[local] Arguments arctan2 : simpl never.

Lemma bins_two : bins_f cfg_two = [0; 2].
Proof. unfold bins_f. cbn. f_equal; [lra|]. f_equal. field. Qed.

Lemma band_bins_two : band_bins cfg_two = [0%nat].
Proof.
  unfold band_bins. rewrite bins_two. cbn.
  rewrite (Rleb_true 0 0), (Rleb_true 0 1), (Rleb_true 0 2), (Rleb_false 2 1) by lra.
  reflexivity.
Qed.

Lemma hanning_two : hanning 2 = [0; 0].
Proof.
  unfold hanning. cbn [map seq].
  change (1 - Z.of_nat 2 + 2 * Z.of_nat 0)%Z with (-1)%Z.
  change (1 - Z.of_nat 2 + 2 * Z.of_nat 1)%Z with 1%Z.
  change (INR (2 - 1)) with 1.
  replace (PI * -1 / 1) with (- PI) by field.
  replace (PI * 1 / 1) with PI by field.
  rewrite cos_neg, cos_PI. f_equal; [lra|]. f_equal. lra.
Qed.

Lemma rfft_abs_zero : rfft_abs [0; 0] = [0; 0].
Proof.
  unfold rfft_abs. cbn [length Nat.div Nat.add seq map combine fst snd sum fold_right].
  change (seq 0 (fst (Nat.divmod 2 1 0 1) + 1)) with [0%nat; 1%nat]. cbn [map].
  rewrite !Rmult_0_l, !Ropp_0, !Rplus_0_r, !Rmult_0_l, Rplus_0_r, sqrt_0. reflexivity.
Qed.

(** The window of two samples is zero: every block has the magnitude 0 at
    the bin of the band, which the threshold lets through. *)
Lemma peak_freqs_two (a b : R) : peak_freqs cfg_two [a; b] = [0].
Proof.
  unfold peak_freqs. rewrite band_bins_two, bins_two.
  cbn [length np_hanning np_rfft_abs np_median numpy]. rewrite hanning_two.
  cbn [map combine fst snd fmul arith].
  rewrite !Rmult_0_r, rfft_abs_zero.
  cbn. rewrite Rltb_true; [reflexivity|].
  unfold Rdiv. rewrite Rmult_0_l. lra.
Qed.

(** At 0 Hz the oscillator is 1: the block is summed. *)
Lemma block_phase_two (a b : R) (n0 : Z) :
  block_phase cfg_two 0 [a; b] n0 = arctan2 0 (a + b).
Proof.
  unfold block_phase, np_angle, np_vdot, local_oscillator, lo_angle.
  cbn [length seq map combine fst snd np_sum np_cos np_sin np_arctan2 numpy sum fold_right
       fsub fmul fdiv arith zero of_int].
  rewrite !Rmult_0_r, !Rmult_0_l, cos_0, sin_0. f_equal; lra.
Qed.

Lemma arctan2_right (x : R) : 0 < x -> arctan2 0 x = 0.
Proof.
  intros H. rewrite arctan2_pos_x by assumption.
  unfold Rdiv. rewrite Rmult_0_l. apply atan_0.
Qed.

Lemma arctan2_left (x : R) : x < 0 -> arctan2 0 x = PI.
Proof.
  intros H. unfold arctan2.
  destruct (Rlt_dec 0 x); [lra|]. destruct (Rlt_dec x 0); [|contradiction].
  destruct (Rle_dec 0 0); [|lra].
  unfold Rdiv. rewrite Rmult_0_l, atan_0. lra.
Qed.

Lemma principal_angle_real_minus_pi : _principal_angle (- PI) = - PI.
Proof.
  pose proof PI_RGT_0 as Hpi. rewrite principal_angle_exact.
  replace ((- PI + PI) / (2 * PI)) with (IZR 0) by (field; lra).
  rewrite ZfloorZ. lra.
Qed.
Lemma ema_zero : ema 0 0 = 0.
Proof. unfold ema. cbn. lra. Qed.

Lemma silent_two (a b : R) : 1 <= a * a + b * b -> silent [a; b] = false.
Proof.
  intros H. unfold silent, np_mean, sq.
  cbn [map length np_sum numpy sum fold_right fmul fdiv flt arith of_int lit_1e_10 Z.of_nat
       Pos.of_succ_nat Pos.succ].
  apply Rltb_false.
  assert (/ 10 ^ 10 <= / 1) by (apply Rinv_le_contravar; [lra|apply pow_R1_Rle; lra]).
  lra.
Qed.

(** The estimate of a block: the center frequency 0 and the deviation the
    phase advance gives. *)
Lemma update_track_two (a b : R) (n0 : Z) (st : track R) :
  f0 st = 0 -> mag_hist st = [] -> history st = [] -> miss_count st = 0%nat ->
  (length (finst_hist st) < 8)%nat ->
  update_track cfg_two [a; b] n0 0 st
  = track_seen (arctan2 0 (a + b))
               (finst_hist st
                ++ [match prev_phase st with
                    | None => 0
                    | Some p => _principal_angle (arctan2 0 (a + b) - p) / PI
                    end]).
Proof.
  intros E0 E1 E2 E3 Hlen. unfold update_track, track_seen.
  rewrite E0, E1, E2, E3, ema_zero, block_phase_two.
  f_equal. unfold deque_append. rewrite length_app. cbn [length SMOOTH cfg_two].
  replace (length (finst_hist st) + 1 - 8)%nat with 0%nat by lia. cbn [skipn].
  f_equal. f_equal. pose proof PI_RGT_0 as Hpi.
  destruct (prev_phase st) as [p|];
    cbn [fadd fdiv fmul fsub arith of_int two zero np_pi Z.of_nat Pos.of_succ_nat Pos.succ];
    change (IZR (FS cfg_two)) with 4; field; lra.
Qed.

(** The first block opens the track at 0 Hz. *)
Lemma process_peak_first (a b : R) (n0 : Z) :
  process_peak cfg_two [a; b] n0 empty_bank 0 = bank_seen (arctan2 0 (a + b)) [0].
Proof.
  unfold process_peak, resolve_peak, _match_track, _ensure_track, dict_mem.
  cbn [tracks heap empty_bank dict_find Nat.leb MAX_TRACKS cfg_two length app].
  cbn [dict_find feq arith]. rewrite Reqb_true by reflexivity.
  cbn [nth_error negb store_set].
  rewrite update_track_two; [|reflexivity|reflexivity|reflexivity|reflexivity|cbn; lia].
  cbn [f0 track_seen dict_set feq arith new_track finst_hist prev_phase app].
  rewrite Reqb_true by reflexivity. reflexivity.
Qed.

(** The next blocks update it. *)
Lemma process_peak_next (a b : R) (n0 : Z) (st : track R) :
  f0 st = 0 -> mag_hist st = [] -> history st = [] -> miss_count st = 0%nat ->
  (length (finst_hist st) < 8)%nat ->
  process_peak cfg_two [a; b] n0 {| tracks := [(0, 0%nat)]; heap := [st] |} 0
  = {| tracks := [(0, 0%nat)]; heap := [update_track cfg_two [a; b] n0 0 st] |}.
Proof.
  intros E0 E1 E2 E3 Hlen.
  unfold process_peak, resolve_peak, _match_track.
  cbn [tracks heap fold_left nearest fst snd err_lt err_le lt_inf arith].
  cbn [fabs fsub fle arith TOL_HZ fdiv of_int FS BLOCK cfg_two].
  rewrite Rleb_true.
  2:{ replace (0 - 0) with 0 by ring. rewrite Rabs_R0. cbn. lra. }
  cbn [tracks heap dict_find feq arith]. rewrite Reqb_true by reflexivity.
  cbn [nth_error negb store_set].
  rewrite update_track_two by assumption.
  cbn [f0 track_seen dict_set feq arith]. rewrite Reqb_true by reflexivity. reflexivity.
Qed.

Lemma sweep_seen (p : R) (hist : list R) :
  _handle_timeouts cfg_two true (bank_seen p hist) = bank_seen p hist.
Proof. reflexivity. Qed.

Lemma block_first (a b : R) (n0 : Z) :
  1 <= a * a + b * b ->
  _process_block cfg_two [a; b] n0 empty_bank
  = (bank_seen (arctan2 0 (a + b)) [0], rho_vals (bank_seen (arctan2 0 (a + b)) [0])).
Proof.
  intros H. unfold _process_block. rewrite silent_two, peak_freqs_two by assumption.
  unfold track_block. change (mark_unseen empty_bank) with (empty_bank (F := R)).
  cbn [fold_left]. rewrite process_peak_first, sweep_seen. reflexivity.
Qed.

Lemma block_next (a b : R) (n0 : Z) (p : R) (hist : list R) :
  1 <= a * a + b * b -> (length hist < 8)%nat ->
  _process_block cfg_two [a; b] n0 (bank_seen p hist)
  = (bank_seen (arctan2 0 (a + b)) (hist ++ [_principal_angle (arctan2 0 (a + b) - p) / PI]),
     rho_vals (bank_seen (arctan2 0 (a + b))
                         (hist ++ [_principal_angle (arctan2 0 (a + b) - p) / PI]))).
Proof.
  intros H Hlen. unfold _process_block. rewrite silent_two, peak_freqs_two by assumption.
  unfold track_block.
  change (mark_unseen (bank_seen p hist))
    with {| tracks := [(0, 0%nat)]; heap := [clear_seen (track_seen p hist)] |}.
  cbn [fold_left].
  rewrite process_peak_next; [|reflexivity|reflexivity|reflexivity|reflexivity|exact Hlen].
  rewrite update_track_two; [|reflexivity|reflexivity|reflexivity|reflexivity|exact Hlen].
  cbn [finst_hist prev_phase clear_seen track_seen].
  change {| tracks := [(0, 0%nat)];
            heap := [track_seen (arctan2 0 (a + b))
                                (hist ++ [_principal_angle (arctan2 0 (a + b) - p) / PI])] |}
    with (bank_seen (arctan2 0 (a + b))
                    (hist ++ [_principal_angle (arctan2 0 (a + b) - p) / PI])).
  rewrite sweep_seen. reflexivity.
Qed.
(** The correlation of the estimates 0, -1, -1. *)
Lemma rho_falling (p : R) :
  rho_vals (bank_seen p [0; -1; -1]) = [- (sqrt 3 / 2)].
Proof.
  assert (Hs : sqrt (2 / 3 * 2) = 2 / sqrt 3).
  { replace (2 / 3 * 2) with (2 * 2 / 3) by field.
    rewrite sqrt_div_alt by lra. now rewrite sqrt_square by lra. }
  assert (H3 : 1 <= sqrt 3).
  { rewrite <- sqrt_1 at 1. apply sqrt_le_1_alt. lra. }
  assert (Hq : sqrt 3 * sqrt 3 = 3) by (apply sqrt_sqrt; lra).
  assert (Ed : rho_denom [0; -1; -1] = 2 / sqrt 3).
  { unfold rho_denom, centered, tau, np_mean, sq.
    cbn [length seq map np_sum numpy sum fold_right fsub fmul fdiv fsqrt arith of_int
         Z.of_nat Pos.of_succ_nat Pos.succ].
    rewrite <- Hs. f_equal. field. }
  assert (En : rho_num [0; -1; -1] = -1).
  { unfold rho_num, centered, tau, np_mean.
    cbn [length seq map combine fst snd np_sum numpy sum fold_right fsub fmul fdiv arith
         of_int Z.of_nat Pos.of_succ_nat Pos.succ].
    field. }
  unfold rho_vals. cbn [tracks heap bank_seen fold_left].
  unfold rho_entry. cbn [snd nth_error finst_hist track_seen length Nat.leb app].
  rewrite Ed, En. cbn [flt fdiv arith lit_1e_9].
  rewrite Rltb_true.
  2:{ assert (/ 10 ^ 9 <= / 1) by (apply Rinv_le_contravar; [lra|apply pow_R1_Rle; lra]).
      assert (0 < 2 / sqrt 3) by (apply Rdiv_lt_0_compat; lra).
      assert (sqrt 3 <= 2).
      { apply Rnot_lt_le. intros C. assert (2 * 2 < sqrt 3 * sqrt 3) by nra. lra. }
      assert (1 <= 2 / sqrt 3); [|lra].
      apply (Rmult_le_reg_r (sqrt 3)); [lra|]. unfold Rdiv.
      rewrite Rmult_assoc, Rinv_l by lra. lra. }
  f_equal. field. lra.
Qed.

(** The three blocks of the file: the phase is 0, pi and 0, the estimates
    are 0, -1 and -1. *)
Lemma run_five :
  rho_lists cfg_two (block_inputs cfg_two audio_five [0; 1; 2]%Z 0) empty_bank
  = [[]; []; [- (sqrt 3 / 2)]].
Proof.
  pose proof PI_RGT_0 as Hpi.
  change (block_inputs cfg_two audio_five [0; 1; 2]%Z 0)
    with [([1; 0], 0%Z); ([0; -1], 2%Z); ([-1; 2], 4%Z)].
  cbn [rho_lists fst snd].
  rewrite block_first by lra. cbn [fst snd].
  replace (1 + 0) with 1 by ring. rewrite arctan2_right by lra.
  rewrite block_next by (cbn; (lra || lia)). cbn [fst snd app].
  replace (0 + -1) with (-1) by ring. rewrite arctan2_left by lra.
  replace (PI - 0) with PI by ring. rewrite principal_angle_real_pi.
  replace (- PI / PI) with (-1) by (field; lra).
  rewrite block_next by (cbn; (lra || lia)). cbn [fst snd app].
  replace (-1 + 2) with 1 by ring. rewrite arctan2_right by lra.
  replace (0 - PI) with (- PI) by ring. rewrite principal_angle_real_minus_pi.
  replace (- PI / PI) with (-1) by (field; lra).
  rewrite rho_falling. reflexivity.
Qed.

(** The value the file reports. *)
Lemma file_five :
  py_range (Z.of_nat (length audio_five) - Z.of_nat (BLOCK cfg_two)) (BLOCK cfg_two / 2)
  = Some [0; 1; 2]%Z
  /\ snd (process_file (init cfg_two) (Some (audio_five, FS cfg_two))) = Row (sqrt 3 / 2).
Proof.
  split; [reflexivity|].
  rewrite (process_file_spec cfg_two audio_five [0; 1; 2]%Z) by reflexivity.
  rewrite run_five.
  unfold block_values, spec_mean, np_mean.
  cbn [filter length Nat.eqb negb map np_sum numpy sum fold_right fabs fdiv arith of_int
       Z.of_nat Pos.of_succ_nat].
  f_equal.
  assert (0 < sqrt 3) by (apply sqrt_lt_R0; lra).
  replace ((- (sqrt 3 / 2) + 0) / 1) with (- (sqrt 3 / 2)) by field.
  rewrite Rabs_Ropp, Rabs_pos_eq by lra. field.
Qed.
End ExactFile.

(** ** Binary64: the capacity of the bank *)

Section Capacity.
Context {F : Type} {A : Arith F} {L : NumPy F}.

(** With the bank full, a peak that matches no track is dropped. *)
Lemma full_bank_drops_peak (c : config F) (x : list F) (n0 : Z) (s : bank F) (f : F) :
  _match_track c s f = None ->
  dict_mem f (tracks s) = false ->
  MAX_TRACKS c <= length (tracks s) ->
  process_peak c x n0 s f = s.
Proof.
  intros Hm Hd Hfull. unfold process_peak, resolve_peak, _ensure_track.
  rewrite Hm, Hd. destruct (Nat.leb_spec (MAX_TRACKS c) (length (tracks s))); [reflexivity|lia].
Qed.
End Capacity.

Section Rounding.
Import Binary64.
#[local] Set Warnings "-inexact-float".
#[local] Open Scope float_scope.
Context {L : NumPy float}.

(** The containers behave as the Python ones. *)
Example deque_append_full : deque_append 2 [1; 2] 3 = [2; 3].
Proof. reflexivity. Qed.

Example deque_append_no_room : deque_append 0 [] 1 = [].
Proof. reflexivity. Qed.

Example dict_set_keeps_place : dict_set 2 7%nat [(1, 0%nat); (2, 1%nat); (3, 2%nat)]
                               = [(1, 0%nat); (2, 7%nat); (3, 2%nat)].
Proof. reflexivity. Qed.

Example dict_set_appends : dict_set 4 7%nat [(1, 0%nat); (2, 1%nat)]
                           = [(1, 0%nat); (2, 1%nat); (4, 7%nat)].
Proof. reflexivity. Qed.

Example dict_pop_entry : dict_pop 2 [(1, 0%nat); (2, 1%nat); (3, 2%nat)]
                         = [(1, 0%nat); (3, 2%nat)].
Proof. reflexivity. Qed.

Example py_range_9_4 : py_range (9 - 4) (4 / 2) = Some [0; 2; 4]%Z.
Proof. reflexivity. Qed.

Example py_range_short_file : py_range (3 - 4) (4 / 2) = Some [].
Proof. reflexivity. Qed.

Example py_range_zero_hop : py_range (9 - 1) (1 / 2) = None.
Proof. reflexivity. Qed.

Example tol_default : TOL_HZ cfg_default = 11.71875.
Proof. reflexivity. Qed.

(** With the defaults the blend of a bin frequency with itself is that
    frequency, for each of the 2049 bins; with blocks of 1000 samples it is
    not for 82 of the 501 bins. *)
Lemma default_bins_not_moved : moved_bins cfg_default = [].
Proof. vm_compute. reflexivity. Qed.

Lemma block_1000_bins_moved :
  length (bins_f cfg_1000) = 501%nat /\ length (moved_bins cfg_1000) = 82%nat.
Proof. split; vm_compute; reflexivity. Qed.

(** C4: the bank exceeds [MAX_TRACKS] in binary64. With [BLOCK = 1000] and
    room for one track, the peak at bin 14 (672 Hz, a bin of the band) starts
    a track at the key 672; line 104 leaves that key in place, since the match
    is the peak itself; the blend [0.9 * 672 + 0.1 * 672] rounds to
    672.0000000000001, and line 120 files the same track under this second
    key. After the block the bank holds two entries, for one track object.
    A peak that matches nothing is dropped when the bank is full. *)
Theorem C4_capacity_exceeded (x : list float) (n0 : Z) :
  MAX_TRACKS cfg_1000 = 1%nat
  /\ nth 14 (bins_f cfg_1000) zero = 672
  /\ existsb (Nat.eqb 14) (band_bins cfg_1000) = true
  /\ ema 672 672 = 672.0000000000001
  /\ tracks (track_block cfg_1000 x n0 [672] empty_bank)
     = [(672, 0%nat); (672.0000000000001, 0%nat)]
  /\ length (tracks (track_block cfg_1000 x n0 [672] empty_bank)) = 2%nat
  /\ (forall (s : bank float) (f : float),
         _match_track cfg_1000 s f = None ->
         dict_mem f (tracks s) = false ->
         (MAX_TRACKS cfg_1000 <= length (tracks s))%nat ->
         process_peak cfg_1000 x n0 s f = s).
Proof.
  assert (E : tracks (track_block cfg_1000 x n0 [672] empty_bank)
              = [(672, 0%nat); (672.0000000000001, 0%nat)]) by (vm_compute; reflexivity).
  split; [reflexivity|]. split; [vm_compute; reflexivity|].
  split; [vm_compute; reflexivity|]. split; [vm_compute; reflexivity|].
  split; [exact E|]. split; [now rewrite E|].
  intros s f. apply full_bank_drops_peak.
Qed.
End Rounding.

(** ** Binary64: keys, the remainder and the sums *)

Section Binary64Keys.
Import Binary64.

Lemma SFeqb_same (a b : spec_float) : SFeqb a b = true <-> same_value a b.
Proof.
  unfold SFeqb, SFcompare, same_value.
  destruct a as [s| s | |s m e], b as [s'|s'| |s' m' e']; try destruct s; try destruct s';
    try (split; [discriminate|intros H; try contradiction; try discriminate; fail]);
    try (split; [reflexivity|reflexivity]);
    try (split; [intros; exact I|reflexivity]).
  all: destruct (Z.compare_spec e e') as [E|E|E];
    try (split; [discriminate|intros (_ & _ & H); lia]).
  all: subst e'; change (Pos.compare_cont Eq m m') with (Pos.compare m m').
  all: destruct (Pos.compare_spec m m') as [E|E|E]; cbn [CompOpp];
    try (split; [discriminate|intros (_ & H & _); lia]).
  all: subst; split; auto; intros (H & _); discriminate H.
Qed.

Lemma same_value_sym (a b : spec_float) : same_value a b -> same_value b a.
Proof. destruct a, b; cbn; try tauto; try congruence. intros (-> & -> & ->). auto. Qed.

Lemma same_value_trans (a b c : spec_float) :
  same_value a b -> same_value b c -> same_value a c.
Proof.
  destruct a, b, c; cbn; try tauto; try congruence.
  intros (-> & -> & ->) (-> & -> & ->). auto.
Qed.

Lemma eqb_same (x y : float) :
  PrimFloat.eqb x y = true <-> same_value (Prim2SF x) (Prim2SF y).
Proof. rewrite FloatAxioms.eqb_spec. apply SFeqb_same. Qed.

(** [==] on binary64 is symmetric and transitive; it is reflexive on
    everything but NaN. *)
Lemma binary64_key_eq : KeyEq float.
Proof.
  split.
  - intros x y. cbn [feq arith].
    destruct (PrimFloat.eqb x y) eqn:E1, (PrimFloat.eqb y x) eqn:E2; try reflexivity.
    + apply eqb_same, same_value_sym, eqb_same in E1. congruence.
    + apply eqb_same, same_value_sym, eqb_same in E2. congruence.
  - intros x y z. cbn [feq arith]. rewrite !eqb_same. apply same_value_trans.
Qed.

Lemma binary64_number (k : float) : is_number k <-> Prim2SF k <> S754_nan.
Proof.
  unfold is_number. cbn [feq arith]. rewrite eqb_same.
  destruct (Prim2SF k); cbn; split; try congruence; try tauto; auto.
Qed.

Lemma nan_is_no_number : ~ is_number nan.
Proof. unfold is_number. cbn. discriminate. Qed.
End Binary64Keys.

Section Binary64Values.
Import Binary64.
#[local] Set Warnings "-inexact-float".
#[local] Open Scope float_scope.
Variable m : library.

(** The remainder of the platform, at the two ends of the range of
    [_principal_angle]. *)
Lemma principal_angle_pi :
  _principal_angle (L := numpy m) 3.141592653589793 = -3.141592653589793.
Proof. vm_compute. reflexivity. Qed.

Lemma principal_angle_below_minus_pi :
  _principal_angle (L := numpy m) (-3.1415926535897936) = 3.141592653589793.
Proof. vm_compute. reflexivity. Qed.

Lemma principal_angle_small :
  _principal_angle (L := numpy m) 0.1 = 0.10000000000000009.
Proof. vm_compute. reflexivity. Qed.

(** The correlation of a history that rises by equal steps exceeds 1. *)
Lemma rising_history_rho :
  spec_contributes (L := numpy m) hist_rising = true
  /\ spec_rho (L := numpy m) hist_rising = 1.0000000000000002
  /\ flt 1 (spec_rho (L := numpy m) hist_rising) = true.
Proof. vm_compute. auto. Qed.

Lemma rising_bank_rho :
  rho_vals (L := numpy m) (bank_with 1008.7 hist_rising) = [1.0000000000000002].
Proof. vm_compute. reflexivity. Qed.

Lemma rising_bank_file_value :
  rho_mean_abs_of (L := numpy m)
                  (block_values (L := numpy m)
                                [rho_vals (L := numpy m) (bank_with 1008.7 hist_rising)])
  = 1.0000000000000002.
Proof. vm_compute. reflexivity. Qed.

(** The mean of a constant history need not be the constant: such a
    history passes the test on the denominator. *)
Lemma flat_history_mean :
  spec_mean (L := numpy m) hist_flat = 17230.59999999999
  /\ spec_denominator (L := numpy m) hist_flat = 1.0155370760544955e-09.
Proof. vm_compute. auto. Qed.

Lemma flat_history_contributes :
  spec_contributes (L := numpy m) hist_flat = true
  /\ spec_rho (L := numpy m) hist_flat = 0.
Proof. vm_compute. auto. Qed.

Lemma flat_high_history_contributes :
  spec_contributes (L := numpy m) hist_flat_high = true
  /\ spec_rho (L := numpy m) hist_flat_high = 0.
Proof. vm_compute. auto. Qed.

Lemma flat_bank_rho :
  rho_vals (L := numpy m) (bank_with 17230.6 hist_flat) = [0].
Proof. vm_compute. reflexivity. Qed.
End Binary64Values.

(** ** The phase wrap and the correlation, over the reals and on binary64 *)

Section BothArithmetics.
#[local] Set Warnings "-inexact-float".
#[local] Open Scope R_scope.

(** C7: [_principal_angle a] is [((a + pi) mod 2 pi) - pi], with the
    remainder of the arithmetic. Over the reals, where the remainder is
    that of the floored quotient, the result is congruent to [a] modulo
    [2 pi] and lies in [[-pi, pi)]. On binary64 both ends are reached: the
    float pi goes to minus the float pi, and the float just below minus pi
    goes to plus pi, the remainder being rounded to [2 pi]. *)
Theorem C7_principal_angle_range :
  (forall (F : Type) (A : Arith F) (L : NumPy F) (a : F),
      _principal_angle a = fsub (np_mod (fadd a np_pi) (fmul two np_pi)) np_pi)
  /\ (forall a : R,
         @_principal_angle R Exact.arith Exact.numpy a
         = (a + PI) - IZR (Zfloor ((a + PI) / (2 * PI))) * (2 * PI) - PI
         /\ - PI <= @_principal_angle R Exact.arith Exact.numpy a < PI
         /\ exists k : Z, @_principal_angle R Exact.arith Exact.numpy a = a - IZR k * (2 * PI))
  /\ (forall m : Binary64.library,
         @_principal_angle float Binary64.arith (Binary64.numpy m) 3.141592653589793%float
         = (-3.141592653589793)%float
         /\ @_principal_angle float Binary64.arith (Binary64.numpy m)
                              (-3.1415926535897936)%float
            = 3.141592653589793%float).
Proof.
  split; [reflexivity|]. split.
  - exact principal_angle_real.
  - intros m. split; [apply principal_angle_pi|apply principal_angle_below_minus_pi].
Qed.

(** C7 refuted as stated: pi is sent to -pi, over the reals and on
    binary64, so that the result is outside [(-pi, pi]]. *)
Lemma C7_pi_maps_to_minus_pi :
  (@_principal_angle R Exact.arith Exact.numpy PI = - PI
   /\ ~ (- PI < @_principal_angle R Exact.arith Exact.numpy PI <= PI))
  /\ (forall m : Binary64.library,
         @_principal_angle float Binary64.arith (Binary64.numpy m) 3.141592653589793%float
         = (-3.141592653589793)%float
         /\ PrimFloat.ltb (-3.141592653589793)%float
                          (@_principal_angle float Binary64.arith (Binary64.numpy m)
                                             3.141592653589793%float)
            = false).
Proof.
  split.
  - rewrite principal_angle_real_pi. split; [reflexivity|]. lra.
  - intros m. rewrite principal_angle_pi. split; reflexivity.
Qed.

(** C8: a block that is not silent returns, for each entry of the dict
    whose track has a history of at least 3 estimates with a denominator
    above 1e-9, the Pearson coefficient of the history against 0, 1, 2, ...;
    the block value is the mean of these, the file reports the mean of the
    absolute block values, and 0 without any. This holds in every
    arithmetic. A constant history is left out over the reals; on binary64
    the mean of 22 estimates of 17230.6 Hz is not 17230.6, the denominator
    passes the test and the history contributes the value 0. *)
Theorem C8_trend_aggregation :
  (forall (F : Type) (A : Arith F) (L : NumPy F)
          (c : config F) (audio : list F) (offsets : list Z),
      py_range (Z.of_nat (length audio) - Z.of_nat (BLOCK c)) (BLOCK c / 2) = Some offsets ->
      snd (process_file (init c) (Some (audio, FS c)))
      = Row match block_values (rho_lists c (block_inputs c audio offsets 0) empty_bank) with
            | [] => zero
            | vs => spec_mean (map fabs vs)
            end
      /\ block_values (rho_lists c (block_inputs c audio offsets 0) empty_bank)
         = map spec_mean
               (filter (fun l => negb (Nat.eqb (length l) 0))
                       (rho_lists c (block_inputs c audio offsets 0) empty_bank)))
  /\ (forall (F : Type) (A : Arith F) (L : NumPy F)
             (c : config F) (b : list F) (n0 : Z) (s : bank F),
         snd (_process_block c b n0 s)
         = if silent b then []
           else map spec_rho
                    (filter spec_contributes (bank_hists (fst (_process_block c b n0 s)))))
  /\ (forall (F : Type) (A : Arith F) (L : NumPy F) (x : list F),
         spec_contributes x = true
         <-> (3 <= length x)%nat /\ flt lit_1e_9 (spec_denominator x) = true)
  /\ (forall (v : R) (n : nat),
         @spec_contributes R Exact.arith Exact.numpy (repeat v n) = false)
  /\ (forall m : Binary64.library,
         @spec_contributes float Binary64.arith (Binary64.numpy m)
                           (repeat 17230.6%float 22) = true
         /\ @spec_rho float Binary64.arith (Binary64.numpy m) (repeat 17230.6%float 22)
            = 0%float).
Proof.
  split; [|split; [|split; [|split]]].
  - intros F A L c audio offsets Hr. split; [now apply process_file_spec|reflexivity].
  - intros F A L c b n0 s. apply process_block_spec_rho.
  - intros F A L x. unfold spec_contributes. now rewrite andb_true_iff, Nat.leb_le.
  - intros v n. rewrite <- (@qualifies_spec R Exact.arith Exact.numpy).
    apply constant_history_excluded.
  - intros m. apply flat_history_contributes.
Qed.

(** C8 refuted as stated: on binary64 a constant history can contribute.
    The loop over the tracks returns a correlation, 0, for a bank whose
    track holds 22 estimates of 17230.6 Hz, and for 6 of 1048576.1 Hz. *)
Lemma C8_constant_history_contributes :
  (forall m : Binary64.library,
      @rho_vals float Binary64.arith (Binary64.numpy m)
                (bank_with 17230.6%float (repeat 17230.6%float 22))
      = [0%float])
  /\ (forall m : Binary64.library,
         @rho_vals float Binary64.arith (Binary64.numpy m)
                   (bank_with 1048576.1%float (repeat 1048576.1%float 6))
         = [0%float]).
Proof.
  split; intros m; vm_compute; reflexivity.
Qed.

(** C10: over the reals the value a file analysis reports lies in
    [[0, 1]]. On binary64 the coefficient of the history 1000.0, 1002.9,
    1005.8, 1008.7 is 1.0000000000000002: it is what the loop over the
    tracks returns for a bank with this one track, and the block mean and
    the file mean of this one value leave it as it is. *)
Theorem C10_rho_mean_abs_in_unit_interval :
  (forall (a a' : analyzer R) (wav : option (list R * Z)) (rho : R),
      @process_file R Exact.arith Exact.numpy a wav = (a', Row rho) -> 0 <= rho <= 1)
  /\ (forall m : Binary64.library,
         @rho_vals float Binary64.arith (Binary64.numpy m)
                   (bank_with 1008.7%float [1000.0; 1002.9; 1005.8; 1008.7]%float)
         = [1.0000000000000002%float]
         /\ @rho_mean_abs_of float Binary64.arith (Binary64.numpy m)
              (@block_values float Binary64.arith (Binary64.numpy m)
                 [@rho_vals float Binary64.arith (Binary64.numpy m)
                            (bank_with 1008.7%float
                                       [1000.0; 1002.9; 1005.8; 1008.7]%float)])
            = 1.0000000000000002%float).
Proof.
  split.
  - exact exact_rho_mean_abs_bound.
  - intros m. split; [apply rising_bank_rho|apply rising_bank_file_value].
Qed.

(** C10 refuted as stated: on binary64 the reported value can be
    1.0000000000000002, above 1. *)
Lemma C10_rounded_correlation_above_one :
  (forall m : Binary64.library,
      @rho_vals float Binary64.arith (Binary64.numpy m)
                (bank_with 1008.7%float [1000.0; 1002.9; 1005.8; 1008.7]%float)
      = [1.0000000000000002%float])
  /\ (forall m : Binary64.library,
         PrimFloat.leb
           (@rho_mean_abs_of float Binary64.arith (Binary64.numpy m)
              (@block_values float Binary64.arith (Binary64.numpy m)
                 [@rho_vals float Binary64.arith (Binary64.numpy m)
                            (bank_with 1008.7%float
                                       [1000.0; 1002.9; 1005.8; 1008.7]%float)]))
           1%float
         = false).
Proof.
  split; intros m.
  - apply rising_bank_rho.
  - rewrite rising_bank_file_value. reflexivity.
Qed.
End BothArithmetics.

Section AtTheFile.
Import Exact.
#[local] Open Scope R_scope.

Lemma C8_trend_aggregation_witness :
  rho_lists cfg_two (block_inputs cfg_two audio_five [0; 1; 2]%Z 0) empty_bank
  = [[]; []; [- (sqrt 3 / 2)]]
  /\ snd (process_file (init cfg_two) (Some (audio_five, FS cfg_two)))
     = Row match block_values (rho_lists cfg_two (block_inputs cfg_two audio_five
                                                               [0; 1; 2]%Z 0)
                                         empty_bank) with
           | [] => zero
           | vs => spec_mean (map fabs vs)
           end
  /\ block_values (rho_lists cfg_two (block_inputs cfg_two audio_five [0; 1; 2]%Z 0)
                             empty_bank)
     = map spec_mean
           (filter (fun l => negb (Nat.eqb (length l) 0))
                   (rho_lists cfg_two (block_inputs cfg_two audio_five [0; 1; 2]%Z 0)
                              empty_bank)).
Proof.
  split; [exact run_five|].
  apply (proj1 C8_trend_aggregation R Exact.arith Exact.numpy cfg_two audio_five
               [0; 1; 2]%Z).
  reflexivity.
Defined.

Lemma C10_rho_mean_abs_in_unit_interval_witness : 0 <= sqrt 3 / 2 <= 1.
Proof.
  apply (proj1 C10_rho_mean_abs_in_unit_interval
               (init cfg_two)
               (fst (process_file (init cfg_two) (Some (audio_five, FS cfg_two))))
               (Some (audio_five, FS cfg_two))).
  rewrite <- (proj2 file_five). apply surjective_pairing.
Defined.
End AtTheFile.

(** ** Peak detection and matching, for every arithmetic *)

Section PeaksAndMatch.
Context {F : Type} {A : Arith F} {L : NumPy F}.

Lemma filter_seq_sorted (p : nat -> bool) (n m : nat) :
  StronglySorted lt (filter p (seq n m)).
Proof.
  revert n. induction m as [|m IH]; intros n; cbn [seq filter]; [constructor|].
  destruct (p n); [|apply IH]. constructor; [apply IH|].
  apply Forall_forall. intros b Hb. apply filter_In in Hb. destruct Hb as [Hb _].
  apply in_seq in Hb. lia.
Qed.

Lemma filter_sorted (p : nat -> bool) (l : list nat) :
  StronglySorted lt l -> StronglySorted lt (filter p l).
Proof.
  induction 1 as [|b l Hs IH Hb]; cbn [filter]; [constructor|].
  destruct (p b); [|assumption]. constructor; [assumption|].
  rewrite Forall_forall in *. intros b' Hb'. apply filter_In in Hb'. now apply Hb.
Qed.

(** X1: the peaks of a block are bin frequencies of the analyzer, taken at
    strictly increasing bin indices, each of them inside the band; there
    are no more peaks than bins. *)
Theorem peaks_are_band_bins (c : config F) (x : list F) :
  exists bs : list nat,
    peak_freqs c x = map (fun b => nth b (bins_f c) zero) bs
    /\ StronglySorted lt bs
    /\ Forall (fun b => b < BLOCK c / 2 + 1 /\ in_band c (nth b (bins_f c) zero)) bs
    /\ length (peak_freqs c x) <= BLOCK c / 2 + 1.
Proof.
  unfold peak_freqs.
  set (p := fun b => flt (PEAK_THRESH c) _).
  exists (filter p (band_bins c)). split; [reflexivity|]. split; [|split].
  - apply filter_sorted. unfold band_bins. apply filter_seq_sorted.
  - apply Forall_forall. intros b Hb. apply filter_In in Hb. destruct Hb as [Hb _].
    unfold band_bins in Hb. apply filter_In in Hb. destruct Hb as [Hs Hq].
    apply in_seq in Hs. apply andb_prop in Hq. split; [lia|exact Hq].
  - rewrite length_map.
    etransitivity; [apply filter_length_le|].
    unfold band_bins. etransitivity; [apply filter_length_le|]. now rewrite length_seq.
Qed.

(** The scan of [_match_track] ends on its start value or on a key of the
    dict with its distance to the peak. *)
Lemma nearest_fold (f : F) (d : dict F nat) :
  forall acc : option F * option F,
    fold_left (nearest f) d acc = acc
    \/ exists k r, In (k, r) d
                   /\ fold_left (nearest f) d acc = (Some k, Some (fabs (fsub k f))).
Proof.
  induction d as [|[k r] d IH]; intros acc; cbn [fold_left]; [now left|].
  destruct (IH (nearest f acc (k, r))) as [E|(k' & r' & Hin & E)].
  - rewrite E. unfold nearest. cbn [fst snd].
    destruct (err_lt _ _); [|now left].
    right. exists k, r. split; [now left|reflexivity].
  - right. exists k', r'. split; [now right|exact E].
Qed.

Lemma match_track_key (c : config F) (s : bank F) (f k : F) :
  _match_track c s f = Some k ->
  (exists r, In (k, r) (tracks s))
  /\ fle (fabs (fsub k f)) (TOL_HZ c) = true.
Proof.
  unfold _match_track. destruct (tracks s) as [|e d] eqn:Hd; [discriminate|].
  rewrite <- Hd.
  destruct (nearest_fold f (tracks s) (None, None)) as [E|(k' & r & Hin & E)]; rewrite E;
    cbn [fst snd err_le].
  - destruct (inf_le _); discriminate.
  - destruct (fle _ _) eqn:Hle; [|discriminate]. intros [= <-]. eauto.
Qed.

(** X2: the frequency [_match_track] returns is a key of the dict, and its
    distance to the peak, as the code computes it, is at most [TOL_HZ]
    (the comparison is inclusive); on an empty dict the answer is None. *)
Theorem match_is_a_key_within_tolerance (c : config F) (s : bank F) (f k : F) :
  _match_track c s f = Some k ->
  (exists r, In (k, r) (tracks s))
  /\ fle (fabs (fsub k f)) (TOL_HZ c) = true
  /\ _match_track c empty_bank f = None.
Proof.
  intros H. destruct (match_track_key c s f k H) as [H1 H2]. now repeat split.
Qed.
End PeaksAndMatch.

Section MatchExample.
Import Binary64.

Lemma match_is_a_key_within_tolerance_witness :
  (exists r, In (672%float, r)
                (tracks {| tracks := [(96%float, 0); (672%float, 1)]; heap := [] |}))
  /\ fle (fabs (fsub 672 684))%float (TOL_HZ cfg_1000) = true
  /\ _match_track cfg_1000 empty_bank 684%float = None.
Proof.
  apply (match_is_a_key_within_tolerance cfg_1000
           {| tracks := [(96%float, 0); (672%float, 1)]; heap := [] |} 684%float 672%float).
  vm_compute. reflexivity.
Defined.
End MatchExample.

(** ** The lookups of the peak loop *)

Section Lookups.
Context {F : Type} {A : Arith F} {L : NumPy F}.

Lemma store_upd_length {T : Type} (r : nat) (g : T -> T) (h : list T) :
  length (store_upd r g h) = length h.
Proof.
  unfold store_upd. destruct (nth_error h r); [apply store_set_length|reflexivity].
Qed.

Lemma resolve_peak_refs (c : config F) (s : bank F) (f : F) :
  refs_valid s -> refs_valid (fst (resolve_peak c s f)).
Proof.
  intros Hs. destruct (resolve_peak_cases c s f) as [[m E]|[E _]]; rewrite E; cbn [fst].
  - exact Hs.
  - intros e He. cbn [tracks heap] in *. rewrite length_app. cbn [length].
    apply in_app_or in He. destruct He as [He|[<-|[]]].
    + specialize (Hs e He). lia.
    + cbn [snd]. lia.
Qed.

Lemma process_peak_refs (c : config F) (x : list F) (n0 : Z) (s : bank F) (f : F) :
  refs_valid s -> refs_valid (process_peak c x n0 s f).
Proof.
  intros Hs. pose proof (resolve_peak_refs c s f Hs) as H1.
  destruct (process_peak_cases c x n0 s f) as [E|(k & r & st & _ & _ & Hst & E)];
    rewrite E; [exact H1|].
  intros e He. cbn [tracks heap] in *. rewrite store_set_length.
  apply dict_set_incl in He. destruct He as [->|He].
  - apply nth_error_Some. congruence.
  - apply H1. destruct (negb (feq k f)); [now apply dict_pop_incl in He|exact He].
Qed.

Lemma peaks_refs (c : config F) (x : list F) (n0 : Z) (peaks : list F) :
  forall s : bank F,
    refs_valid s -> refs_valid (fold_left (process_peak c x n0) peaks s).
Proof.
  induction peaks as [|f peaks IH]; intros s Hs; cbn [fold_left]; [exact Hs|].
  apply IH. now apply process_peak_refs.
Qed.

Lemma mark_unseen_refs (s : bank F) : refs_valid s -> refs_valid (mark_unseen s).
Proof.
  intros Hs e He. rewrite mark_unseen_length. now apply Hs.
Qed.

Lemma handle_timeouts_refs (c : config F) (u : bool) (s : bank F) :
  refs_valid s -> refs_valid (_handle_timeouts c u s).
Proof.
  intros Hs e He. rewrite handle_timeouts_length.
  apply Hs. now apply handle_timeouts_incl in He.
Qed.

Lemma process_block_refs (c : config F) (b : list F) (n0 : Z) (s : bank F) :
  refs_valid s -> refs_valid (fst (_process_block c b n0 s)).
Proof.
  intros Hs. unfold _process_block. destruct (silent b); cbn [fst]; [exact Hs|].
  unfold track_block. apply handle_timeouts_refs, peaks_refs, mark_unseen_refs, Hs.
Qed.

Lemma run_blocks_refs (c : config F) (inputs : list (list F * Z)) :
  forall s : bank F, refs_valid s -> refs_valid (run_blocks c inputs s).
Proof.
  unfold run_blocks.
  induction inputs as [|bn inputs IH]; intros s Hs; cbn [fold_left]; [exact Hs|].
  apply IH. now apply process_block_refs.
Qed.

Lemma peak_loop_refs (c : config F) (inputs : list (list F * Z)) (x : list F) (n0 : Z)
      (peaks : list F) :
  refs_valid (peak_loop c x n0 peaks (run_blocks c inputs empty_bank)).
Proof.
  unfold peak_loop. apply peaks_refs, mark_unseen_refs, run_blocks_refs.
  intros e [].
Qed.

Lemma dict_find_key (k : F) (r : nat) (d : dict F nat) :
  is_number k -> In (k, r) d -> exists e, In e d /\ dict_find k d = Some (snd e).
Proof.
  intros Hk. induction d as [|[k' r'] d IH]; intros Hin; [destruct Hin|].
  cbn [dict_find]. destruct (feq k' k) eqn:E.
  - exists (k', r'). split; [now left|reflexivity].
  - destruct Hin as [[= -> ->]|Hin]; [unfold is_number in Hk; congruence|].
    destruct (IH Hin) as (e & He & Hf). exists e. split; [now right|exact Hf].
Qed.

Lemma dict_find_last (k : F) (v : nat) (d : dict F nat) :
  is_number k -> dict_find k d = None -> dict_find k (d ++ [(k, v)]) = Some v.
Proof.
  intros Hk. induction d as [|[k' r'] d IH]; cbn [dict_find app].
  - unfold is_number in Hk. now rewrite Hk.
  - destruct (feq k' k); [discriminate|exact IH].
Qed.

(** The key the scan ends on was compared, with success. *)
Lemma nearest_fold_compared (f : F) (d : dict F nat) :
  forall acc : option F * option F,
    fold_left (nearest f) d acc = acc
    \/ exists k best, err_lt (fabs (fsub k f)) best = true
                      /\ fst (fold_left (nearest f) d acc) = Some k.
Proof.
  induction d as [|[k r] d IH]; intros acc; cbn [fold_left]; [now left|].
  destruct (IH (nearest f acc (k, r))) as [E|(k' & best & Hc & E)].
  - rewrite E. unfold nearest. cbn [fst snd].
    destruct (err_lt _ _) eqn:Hc; [|now left].
    right. exists k, (snd acc). split; [exact Hc|reflexivity].
  - right. exists k', best. split; [exact Hc|exact E].
Qed.

Lemma match_track_number (c : config F) (s : bank F) (f k : F) :
  compares_numbers -> _match_track c s f = Some k -> is_number k.
Proof.
  intros Hcmp. unfold _match_track. destruct (tracks s) as [|e d] eqn:Hd; [discriminate|].
  rewrite <- Hd.
  destruct (nearest_fold_compared f (tracks s) (None, None)) as [E|(k' & best & Hc & E)].
  - rewrite E. cbn [fst snd err_le]. destruct (inf_le _); discriminate.
  - destruct (err_le _ _); [|discriminate]. rewrite E. intros [= <-].
    exact (Hcmp k' f best Hc).
Qed.

Lemma resolve_peak_found (c : config F) (s s1 : bank F) (f k : F) :
  compares_numbers -> is_number f ->
  refs_valid s ->
  resolve_peak c s f = (s1, Some k) ->
  exists (r : nat) (st : track F),
    dict_find k (tracks s1) = Some r /\ nth_error (heap s1) r = Some st.
Proof.
  intros Hcmp Hnum Hs E.
  assert (Hs1 : refs_valid s1).
  { pose proof (resolve_peak_refs c s f Hs) as H. now rewrite E in H. }
  assert (Hk : exists r, dict_find k (tracks s1) = Some r).
  { unfold resolve_peak in E. destruct (_match_track c s f) as [k'|] eqn:Hm.
    - injection E as <- <-. pose proof (match_track_number c s f k' Hcmp Hm) as Hk'.
      apply match_track_key in Hm. destruct Hm as [[r0 Hin] _].
      destruct (dict_find_key k' r0 (tracks s) Hk' Hin) as (e & _ & Hf). eauto.
    - unfold _ensure_track, dict_mem in E.
      destruct (dict_find f (tracks s)) as [r|] eqn:Hf.
      + injection E as <- <-. eauto.
      + destruct (MAX_TRACKS c <=? length (tracks s)); [discriminate|].
        injection E as <- <-. cbn [tracks]. exists (length (heap s)).
        now apply dict_find_last. }
  destruct Hk as [r Hf]. exists r.
  destruct (dict_find_In k (tracks s1) r Hf) as (k' & Hin & _).
  specialize (Hs1 _ Hin). cbn [snd] in Hs1.
  destruct (nth_error (heap s1) r) as [st|] eqn:Hn.
  - exists st. now split.
  - apply nth_error_None in Hn. lia.
Qed.

(** X3: no lookup of the peak loop fails. At every point of the loop over
    the peaks of a block, after any run of blocks on a fresh dict, every
    key refers to an existing track object, and for a peak that is a
    number the key that lines 100-101 choose is found in the dict together
    with its track object: [self.tracks.pop(match)] and
    [self.tracks[match]] raise no KeyError. Of the arithmetic this takes
    that a comparison which holds has numbers on both sides, as on
    binary64, where every comparison with a NaN fails. *)
Theorem lookups_never_fail (c : config F) (inputs : list (list F * Z))
        (x : list F) (n0 : Z) (peaks : list F) (f : F) :
  compares_numbers -> is_number f ->
  let s := peak_loop c x n0 peaks (run_blocks c inputs empty_bank) in
  refs_valid s
  /\ forall (s1 : bank F) (k : F),
      resolve_peak c s f = (s1, Some k) ->
      exists (r : nat) (st : track F),
        dict_find k (tracks s1) = Some r
        /\ nth_error (heap s1) r = Some st
        /\ process_peak c x n0 s f
           = {| tracks := dict_set (f0 (update_track c x n0 f st)) r
                            (if negb (feq k f) then dict_pop k (tracks s1) else tracks s1);
                heap := store_set r (update_track c x n0 f st) (heap s1) |}.
Proof.
  intros Hcmp Hnum s. pose proof (peak_loop_refs c inputs x n0 peaks) as Hs. fold s in Hs.
  split; [exact Hs|]. intros s1 k E.
  destruct (resolve_peak_found c s s1 f k Hcmp Hnum Hs E) as (r & st & Hf & Hn).
  exists r, st. split; [exact Hf|]. split; [exact Hn|].
  unfold process_peak. rewrite E, Hf, Hn. reflexivity.
Qed.
End Lookups.

Section LookupExample.
Import Binary64.
#[local] Open Scope float_scope.

Lemma nan_compares_false (k f : float) (best : option float) :
  Prim2SF k = S754_nan -> err_lt (fabs (fsub k f)) best = false.
Proof.
  intros Hk.
  assert (E : Prim2SF (abs (k - f)) = S754_nan).
  { rewrite FloatAxioms.abs_spec, FloatAxioms.sub_spec, Hk. reflexivity. }
  destruct best as [b|]; cbn [err_lt flt lt_inf fabs fsub arith];
    rewrite FloatAxioms.ltb_spec, E; reflexivity.
Qed.

(** On binary64 a comparison that holds has numbers on both sides. *)
Lemma binary64_compares_numbers : compares_numbers (F := float).
Proof.
  intros k f best Hc. apply binary64_number. intros Hk.
  rewrite (nan_compares_false k f best Hk) in Hc. discriminate.
Qed.

Lemma lookups_never_fail_witness :
  is_number 672
  /\ forall m : library,
      let s := peak_loop (L := numpy m) cfg_1000 [] 0 []
                         (run_blocks (L := numpy m) cfg_1000 [] empty_bank) in
      refs_valid s
      /\ forall (s1 : bank float) (k : float),
          resolve_peak cfg_1000 s 672 = (s1, Some k) ->
          exists (r : nat) (st : track float),
            dict_find k (tracks s1) = Some r
            /\ nth_error (heap s1) r = Some st
            /\ process_peak (L := numpy m) cfg_1000 [] 0 s 672
               = {| tracks := dict_set (f0 (update_track (L := numpy m) cfg_1000 [] 0 672 st))
                                       r
                                       (if negb (feq k 672) then dict_pop k (tracks s1)
                                        else tracks s1);
                    heap := store_set r (update_track (L := numpy m) cfg_1000 [] 0 672 st)
                                      (heap s1) |}.
Proof.
  split; [reflexivity|]. intros m.
  exact (lookups_never_fail (L := numpy m) cfg_1000 [] [] 0 [] 672
                            binary64_compares_numbers eq_refl).
Defined.
End LookupExample.

(** ** What holds of every track object, for every arithmetic *)

Section HeapInvariant.
Context {F : Type} {A : Arith F} {L : NumPy F}.
Variable c : config F.
Variable P : track F -> Prop.
Hypothesis P_new : forall f : F, P (new_track c f).
Hypothesis P_update :
  forall (x : list F) (n0 : Z) (f : F) (st : track F), P st -> P (update_track c x n0 f st).
Hypothesis P_sweep : forall (u : bool) (st : track F), P st -> P (sweep_track c u st).
Hypothesis P_clear : forall st : track F, P st -> P (clear_seen st).

Lemma store_set_Forall (r : nat) (v : track F) (h : list (track F)) :
  Forall P h -> P v -> Forall P (store_set r v h).
Proof.
  intros Hh Hv. revert r. induction Hh as [|w h Hw Hh IH]; intros r; cbn [store_set].
  - destruct r; constructor.
  - destruct r; constructor; auto.
Qed.

Lemma nth_error_Forall (h : list (track F)) (r : nat) (st : track F) :
  Forall P h -> nth_error h r = Some st -> P st.
Proof.
  intros Hh Hn. rewrite Forall_forall in Hh. apply Hh. eapply nth_error_In, Hn.
Qed.

Lemma resolve_peak_Forall (s : bank F) (f : F) :
  Forall P (heap s) -> Forall P (heap (fst (resolve_peak c s f))).
Proof.
  intros Hs. destruct (resolve_peak_cases c s f) as [[m E]|[E _]]; rewrite E; cbn [fst heap].
  - exact Hs.
  - apply Forall_app. split; [exact Hs|]. constructor; [apply P_new|constructor].
Qed.

Lemma process_peak_Forall (x : list F) (n0 : Z) (s : bank F) (f : F) :
  Forall P (heap s) -> Forall P (heap (process_peak c x n0 s f)).
Proof.
  intros Hs. pose proof (resolve_peak_Forall s f Hs) as H1.
  destruct (process_peak_cases c x n0 s f) as [E|(k & r & st & _ & _ & Hst & E)];
    rewrite E; [exact H1|].
  cbn [heap]. apply store_set_Forall; [exact H1|].
  apply P_update. eapply nth_error_Forall; eassumption.
Qed.

Lemma peaks_Forall (x : list F) (n0 : Z) (peaks : list F) :
  forall s : bank F,
    Forall P (heap s) -> Forall P (heap (fold_left (process_peak c x n0) peaks s)).
Proof.
  induction peaks as [|f peaks IH]; intros s Hs; cbn [fold_left]; [exact Hs|].
  apply IH. now apply process_peak_Forall.
Qed.

Lemma mark_unseen_Forall (s : bank F) :
  Forall P (heap s) -> Forall P (heap (mark_unseen s)).
Proof.
  unfold mark_unseen. cbn [heap]. generalize (heap s) as h.
  induction (tracks s) as [|e d IH]; intros h Hh; cbn [fold_left]; [exact Hh|].
  apply IH. unfold store_upd. destruct (nth_error h (snd e)) as [st|] eqn:Hn; [|exact Hh].
  apply store_set_Forall; [exact Hh|]. apply P_clear. eapply nth_error_Forall; eassumption.
Qed.

Lemma handle_timeouts_Forall (u : bool) (s : bank F) :
  Forall P (heap s) -> Forall P (heap (_handle_timeouts c u s)).
Proof.
  unfold _handle_timeouts. cbn [heap]. generalize (heap s) as h. generalize (@nil F) as rm.
  induction (tracks s) as [|e d IH]; intros rm h Hh; cbn [fold_left fst]; [exact Hh|].
  destruct (nth_error h (snd e)) as [st|] eqn:Hn.
  - rewrite (sweep_entry_some c u h rm e st Hn). apply IH.
    apply store_set_Forall; [exact Hh|]. apply P_sweep. eapply nth_error_Forall; eassumption.
  - rewrite (sweep_entry_none c u h rm e Hn). now apply IH.
Qed.

Lemma process_block_Forall (b : list F) (n0 : Z) (s : bank F) :
  Forall P (heap s) -> Forall P (heap (fst (_process_block c b n0 s))).
Proof.
  intros Hs. unfold _process_block. destruct (silent b); cbn [fst]; [exact Hs|].
  unfold track_block. apply handle_timeouts_Forall, peaks_Forall, mark_unseen_Forall, Hs.
Qed.

Lemma run_blocks_Forall (inputs : list (list F * Z)) :
  forall s : bank F, Forall P (heap s) -> Forall P (heap (run_blocks c inputs s)).
Proof.
  unfold run_blocks.
  induction inputs as [|bn inputs IH]; intros s Hs; cbn [fold_left]; [exact Hs|].
  apply IH. now apply process_block_Forall.
Qed.

(** The track objects an analyzer holds after any sequence of files. *)
Lemma run_files_Forall (files : list (option (list F * Z))) :
  forall a : analyzer F,
    cfg a = c -> Forall P (heap (state a)) -> Forall P (heap (state (run_files a files))).
Proof.
  unfold run_files.
  induction files as [|w files IH]; intros a Hc Ha; cbn [fold_left]; [exact Ha|].
  apply IH; [now rewrite process_file_cfg|].
  unfold process_file. destruct w as [[audio fs]|]; cbn [fst]; [|exact Ha].
  destruct (negb (fs =? FS (cfg a))%Z); cbn [fst]; [exact Ha|].
  destruct (py_range _ _) as [offsets|]; cbn [fst state]; [|constructor].
  rewrite (proj1 (fold_drive_run (cfg a) audio offsets loop_init)). rewrite Hc.
  apply run_blocks_Forall. constructor.
Qed.

(** After any run of blocks on a fresh dict, and after any sequence of
    files. *)
Lemma reachable_Forall (inputs : list (list F * Z)) (files : list (option (list F * Z))) :
  Forall P (heap (run_blocks c inputs empty_bank))
  /\ Forall P (heap (state (run_files (init c) files))).
Proof.
  split.
  - apply run_blocks_Forall. constructor.
  - apply run_files_Forall; [reflexivity|constructor].
Qed.
End HeapInvariant.

Section Deques.
Context {F : Type} {A : Arith F} {L : NumPy F}.

Lemma deque_append_length (maxlen : nat) (d : list F) (v : F) :
  length (deque_append maxlen d v) = Nat.min maxlen (S (length d)).
Proof.
  unfold deque_append. rewrite length_skipn, length_app. cbn [length]. lia.
Qed.

Lemma skipn_incl (n : nat) (l : list F) (w : F) : In w (skipn n l) -> In w l.
Proof.
  intros Hw. rewrite <- (firstn_skipn n l). apply in_or_app. now right.
Qed.

Lemma deque_append_Forall (Q : F -> Prop) (maxlen : nat) (d : list F) (v : F) :
  Forall Q d -> Q v -> Forall Q (deque_append maxlen d v).
Proof.
  intros Hd Hv. unfold deque_append. apply Forall_forall. intros w Hw.
  apply skipn_incl in Hw. apply in_app_or in Hw.
  destruct Hw as [Hw|[<-|[]]]; [|exact Hv]. rewrite Forall_forall in Hd. now apply Hd.
Qed.

(** X4: the deques respect their [maxlen]. After any run of blocks on a
    fresh dict, and after any sequence of files, every track object the
    analyzer holds has at most SMOOTH frequency estimates and at most
    HIST_LEN entries in [history]. *)
Theorem deques_within_maxlen (c : config F) (inputs : list (list F * Z))
        (files : list (option (list F * Z))) :
  Forall (within_maxlen c) (heap (run_blocks c inputs empty_bank))
  /\ Forall (within_maxlen c) (heap (state (run_files (init c) files))).
Proof.
  apply (reachable_Forall c (within_maxlen c)).
  - intros f. unfold within_maxlen. cbn. lia.
  - intros x n0 f st (H1 & H2 & H3). unfold within_maxlen, update_track.
    cbn [finst_hist mag_hist history]. rewrite deque_append_length. lia.
  - intros u st (H1 & H2 & H3). unfold within_maxlen, sweep_track.
    destruct (negb (seen st)); cbn [finst_hist mag_hist history]; [|lia].
    destruct u; [rewrite deque_append_length|]; lia.
  - intros st H. exact H.
Qed.

(** X5: two deques of a track carry no measurement. After any run of
    blocks on a fresh dict, and after any sequence of files, [mag_hist] of
    every track object is still empty (nothing is ever appended to it),
    and [history] holds nothing but the zeros of the timeout sweep. *)
Theorem idle_deques_carry_nothing (c : config F) (inputs : list (list F * Z))
        (files : list (option (list F * Z))) :
  Forall idle_deques (heap (run_blocks c inputs empty_bank))
  /\ Forall idle_deques (heap (state (run_files (init c) files))).
Proof.
  apply (reachable_Forall c idle_deques).
  - intros f. split; cbn; constructor.
  - intros x n0 f st H. exact H.
  - intros u st [H1 H2]. unfold idle_deques, sweep_track.
    destruct (negb (seen st)); cbn [mag_hist history]; [|now split].
    split; [exact H1|]. destruct u; [|exact H2].
    now apply deque_append_Forall.
  - intros st H. exact H.
Qed.

(** X6: a track without a phase reference has never been updated. After
    any run of blocks on a fresh dict, and after any sequence of files, a
    track object whose [prev_phase] is None has no frequency estimate and
    is not marked seen; so every estimate in a history was computed
    together with a phase. *)
Theorem no_estimate_without_phase (c : config F) (inputs : list (list F * Z))
        (files : list (option (list F * Z))) :
  Forall fresh_or_updated (heap (run_blocks c inputs empty_bank))
  /\ Forall fresh_or_updated (heap (state (run_files (init c) files))).
Proof.
  apply (reachable_Forall c fresh_or_updated).
  - intros f _. now split.
  - intros x n0 f st _. unfold update_track. cbn [prev_phase]. discriminate.
  - intros u st H. unfold sweep_track.
    destruct (negb (seen st)); cbn [prev_phase finst_hist seen]; exact H.
  - intros st H Hp. cbn [prev_phase finst_hist seen clear_seen] in *.
    split; [now apply H|reflexivity].
Qed.
End Deques.

(** ** The timeout sweep on a bank with one key per track *)

Section SweepPost.
Context {F : Type} {A : Arith F} {L : NumPy F} {K : KeyEq F}.

Lemma nodup_holders (r : nat) (d : dict F nat) :
  NoDup (values d) -> In r (values d) -> holders r d = 1.
Proof.
  intros Hn Hin. unfold holders.
  pose proof (proj1 (NoDup_count_occ Nat.eq_dec (values d)) Hn r) as Hle.
  pose proof (proj1 (count_occ_In Nat.eq_dec (values d) r) Hin) as Hpos. lia.
Qed.

Lemma sweep_keeps_live (c : config F) (u : bool) (s : bank F) (k : F) (r : nat)
      (st : track F) :
  uniq (tracks s) ->
  is_number k ->
  In (k, r) (tracks (_handle_timeouts c u s)) ->
  nth_error (heap s) r = Some st ->
  seen st = false ->
  S (miss_count st) < TIMEOUT_BLOCKS c.
Proof.
  intros Hu Hnum Hin Hst Hseen.
  destruct (Nat.lt_ge_cases (S (miss_count st)) (TIMEOUT_BLOCKS c)) as [Hlt|Hge];
    [exact Hlt|exfalso].
  assert (Hin0 : In (k, r) (tracks s)) by now apply handle_timeouts_incl in Hin.
  unfold _handle_timeouts in Hin. cbn [tracks] in Hin.
  apply (fold_pop_spec _ _ _ Hu) in Hin. destruct Hin as [_ Hrm].
  specialize (Hrm k). cbn [fst] in Hrm. unfold is_number in Hnum. rewrite Hnum in Hrm.
  assert (Hk : In k (snd (fold_left (sweep_entry c u) (tracks s) (heap s, [])))).
  { apply sweep_rm. right. apply in_split in Hin0. destruct Hin0 as (d1 & d2 & Hd).
    exists d1, r, d2, st. repeat split; try assumption. lia. }
  specialize (Hrm Hk). discriminate.
Qed.

Lemma sweep_once (c : config F) (u : bool) (s : bank F) (k : F) (r : nat) (st : track F) :
  NoDup (values (tracks s)) ->
  In (k, r) (tracks s) ->
  nth_error (heap s) r = Some st ->
  nth_error (heap (_handle_timeouts c u s)) r = Some (sweep_track c u st).
Proof.
  intros Hn Hin Hst.
  assert (Hh : holders r (tracks s) = 1).
  { apply nodup_holders; [exact Hn|]. unfold values. now apply (in_map snd) in Hin. }
  rewrite handle_timeouts_heap, Hh, Hst. reflexivity.
Qed.

Lemma sweep_track_live (c : config F) (u : bool) (st : track F) :
  (seen st = false -> S (miss_count st) < TIMEOUT_BLOCKS c) ->
  (seen (sweep_track c u st) = true /\ miss_count (sweep_track c u st) = 0)
  \/ (seen (sweep_track c u st) = false
      /\ 1 <= miss_count (sweep_track c u st) < TIMEOUT_BLOCKS c).
Proof.
  intros Hlive. unfold sweep_track. destruct (seen st) eqn:Hseen; cbn [negb seen miss_count].
  - left. now split.
  - right. specialize (Hlive eq_refl). split; [reflexivity|lia].
Qed.

(** X7: what the sweep leaves behind. On a dict with unique keys and one
    key per track object, every track that is still in the dict after
    [_handle_timeouts], under a key that is a number, either was seen and
    has [miss_count] 0, or was not seen and has a [miss_count] of at least
    1 and below TIMEOUT_BLOCKS. Of [==] on the keys this takes symmetry and
    transitivity, which binary64 has. *)
Theorem sweep_leaves_live_tracks (c : config F) (u : bool) (s : bank F) (k : F) (r : nat)
        (st' : track F) :
  uniq (tracks s) ->
  NoDup (values (tracks s)) ->
  is_number k ->
  In (k, r) (tracks (_handle_timeouts c u s)) ->
  nth_error (heap (_handle_timeouts c u s)) r = Some st' ->
  (seen st' = true /\ miss_count st' = 0)
  \/ (seen st' = false /\ 1 <= miss_count st' < TIMEOUT_BLOCKS c).
Proof.
  intros Hu Hn Hnum Hin Hst'.
  assert (Hin0 : In (k, r) (tracks s)) by now apply handle_timeouts_incl in Hin.
  destruct (nth_error (heap s) r) as [st|] eqn:Hst.
  - rewrite (sweep_once c u s k r st Hn Hin0 Hst) in Hst'. injection Hst' as <-.
    apply sweep_track_live. intros Hseen.
    exact (sweep_keeps_live c u s k r st Hu Hnum Hin Hst Hseen).
  - rewrite handle_timeouts_heap, Hst in Hst'. discriminate.
Qed.
End SweepPost.

Section SweepExample.
Import Binary64.
#[local] Set Warnings "-inexact-float".
#[local] Open Scope float_scope.

Lemma sweep_leaves_live_tracks_witness :
  (seen (sweep_track cfg_1000 true (clear_seen (track_with 1008.7 hist_rising))) = true
   /\ miss_count (sweep_track cfg_1000 true (clear_seen (track_with 1008.7 hist_rising)))
      = 0%nat)
  \/ (seen (sweep_track cfg_1000 true (clear_seen (track_with 1008.7 hist_rising))) = false
      /\ (1 <= miss_count (sweep_track cfg_1000 true
                                       (clear_seen (track_with 1008.7 hist_rising)))
          < 20)%nat).
Proof.
  apply (sweep_leaves_live_tracks (K := binary64_key_eq) cfg_1000 true
                                  (mark_unseen (bank_with 1008.7 hist_rising))
                                  1008.7 0%nat).
  - cbn. auto.
  - cbn. constructor; [intros []|constructor].
  - reflexivity.
  - cbn. now left.
  - reflexivity.
Defined.
End SweepExample.

(** ** The sweep without the history update *)

Section SweepFlag.
Context {F : Type} {A : Arith F} {L : NumPy F}.

Lemma sweep_track_flag (c : config F) (st st' : track F) :
  sweep_key st = sweep_key st' ->
  sweep_key (sweep_track c false st) = sweep_key (sweep_track c true st').
Proof.
  unfold sweep_key. intros [= Hs Hm]. unfold sweep_track. rewrite Hs.
  destruct (negb (seen st')); cbn [seen miss_count]; now rewrite ?Hs, ?Hm.
Qed.

Lemma sweep_keys_flag (c : config F) (d : dict F nat) :
  forall (h h' : list (track F)) (rm : list F),
    (forall r, option_map sweep_key (nth_error h r) = option_map sweep_key (nth_error h' r)) ->
    snd (fold_left (sweep_entry c false) d (h, rm))
    = snd (fold_left (sweep_entry c true) d (h', rm)).
Proof.
  induction d as [|e d IH]; intros h h' rm Hrel; cbn [fold_left]; [reflexivity|].
  pose proof (Hrel (snd e)) as He.
  destruct (nth_error h (snd e)) as [st|] eqn:Hst;
    destruct (nth_error h' (snd e)) as [st'|] eqn:Hst'; try discriminate.
  - rewrite (sweep_entry_some c false h rm e st Hst),
            (sweep_entry_some c true h' rm e st' Hst').
    cbn [option_map] in He. assert (He' : sweep_key st = sweep_key st') by congruence.
    clear He. rename He' into He.
    pose proof (sweep_track_flag c st st' He) as Hk.
    assert (Hseen : seen st = seen st') by (unfold sweep_key in He; congruence).
    assert (Hmiss : miss_count (sweep_track c false st)
                    = miss_count (sweep_track c true st'))
      by (unfold sweep_key in Hk; congruence).
    rewrite Hseen, Hmiss. apply IH. intros r.
    rewrite (store_set_lookup (snd e) r _ st h Hst),
            (store_set_lookup (snd e) r _ st' h' Hst').
    destruct (Nat.eq_dec (snd e) r); [cbn [option_map]; now rewrite Hk|apply Hrel].
  - rewrite (sweep_entry_none c false h rm e Hst), (sweep_entry_none c true h' rm e Hst').
    now apply IH.
Qed.

Lemma sweep_iter_flag (c : config F) (n : nat) (st : track F) :
  sweep_key (Nat.iter n (sweep_track c false) st)
  = sweep_key (Nat.iter n (sweep_track c true) st)
  /\ history (Nat.iter n (sweep_track c false) st) = history st.
Proof.
  induction n as [|n [IH1 IH2]]; [now split|]. rewrite !Nat.iter_succ. split.
  - now apply sweep_track_flag.
  - rewrite <- IH2. unfold sweep_track.
    destruct (negb (seen _)); reflexivity.
Qed.

(** X9: the sweep without [seen_update]. Called with its default
    [seen_update=False], [_handle_timeouts] evicts the same keys and
    leaves the same [miss_count] and every other field of every track as
    with [seen_update=True], but writes nothing to [history]. *)
Theorem sweep_without_history_update (c : config F) (s : bank F) (r : nat) :
  tracks (_handle_timeouts c false s) = tracks (_handle_timeouts c true s)
  /\ option_map history (nth_error (heap (_handle_timeouts c false s)) r)
     = option_map history (nth_error (heap s) r)
  /\ option_map (fun st => (f0 st, prev_phase st, finst_hist st, mag_hist st,
                            miss_count st, seen st))
                (nth_error (heap (_handle_timeouts c false s)) r)
     = option_map (fun st => (f0 st, prev_phase st, finst_hist st, mag_hist st,
                              miss_count st, seen st))
                  (nth_error (heap (_handle_timeouts c true s)) r).
Proof.
  split; [|split].
  - unfold _handle_timeouts. cbn [tracks]. f_equal.
    now apply sweep_keys_flag.
  - rewrite handle_timeouts_heap. destruct (nth_error (heap s) r) as [st|]; [|reflexivity].
    cbn [option_map]. f_equal. apply sweep_iter_flag.
  - rewrite !handle_timeouts_heap. destruct (nth_error (heap s) r) as [st|]; [|reflexivity].
    cbn [option_map]. f_equal.
    destruct (sweep_iter_frame c false (holders r (tracks s)) st) as (E1 & E2 & E3 & E4 & E5).
    destruct (sweep_iter_frame c true (holders r (tracks s)) st) as (E1' & E2' & E3' & E4' & E5').
    destruct (sweep_iter_flag c (holders r (tracks s)) st) as [Hk _].
    unfold sweep_key in Hk. injection Hk as _ Hm.
    now rewrite E1, E2, E3, E4, E5, E1', E2', E3', E4', E5', Hm.
Qed.
End SweepFlag.

(** ** The blocks of a file *)

Section Blocks.
Context {F : Type} {A : Arith F} {L : NumPy F}.

Lemma block_inputs_length (c : config F) (audio : list F) (offsets : list Z) :
  forall n0 : Z, length (block_inputs c audio offsets n0) = length offsets.
Proof.
  induction offsets as [|i offsets IH]; intros n0; cbn [block_inputs length]; [reflexivity|].
  now rewrite IH.
Qed.

Lemma block_inputs_full (c : config F) (audio : list F) (offsets : list Z) :
  Forall (fun i => 0 <= i /\ i + Z.of_nat (BLOCK c) <= Z.of_nat (length audio))%Z offsets ->
  forall n0 : Z,
    Forall (fun bn => length (fst bn) = BLOCK c) (block_inputs c audio offsets n0).
Proof.
  induction 1 as [|i offsets [Hi1 Hi2] _ IH]; intros n0; cbn [block_inputs]; constructor.
  - cbn [fst]. now apply slice_length.
  - apply IH.
Qed.

Lemma py_range_offsets (stop : Z) (step : nat) (offsets : list Z) :
  py_range stop step = Some offsets ->
  Forall (fun i => 0 <= i < stop)%Z offsets.
Proof.
  intros Hr. apply py_range_spec in Hr. destruct Hr as [_ Hr].
  apply Forall_forall. intros i Hi. apply In_nth_error in Hi. destruct Hi as [k Hk].
  apply Hr in Hk. lia.
Qed.

Lemma py_range_length (stop : Z) (step : nat) (offsets : list Z) :
  py_range stop step = Some offsets ->
  Z.of_nat (length offsets) = Z.max 0 ((stop + Z.of_nat step - 1) / Z.of_nat step).
Proof.
  intros Hr. apply py_range_spec in Hr. destruct Hr as [Hstep Hr].
  set (n := length offsets).
  assert (Hend : ~ (Z.of_nat n * Z.of_nat step < stop)%Z).
  { intros Hlt.
    assert (Hn : nth_error offsets n = Some (Z.of_nat n * Z.of_nat step)%Z)
      by (apply Hr; now split).
    assert (Hlen : n < length offsets) by (apply nth_error_Some; congruence).
    unfold n in Hlen. lia. }
  assert (Hlast : n <> 0 -> (Z.of_nat (n - 1) * Z.of_nat step < stop)%Z).
  { intros Hn. destruct (nth_error offsets (n - 1)) as [i|] eqn:Hi.
    - apply Hr in Hi. lia.
    - apply nth_error_None in Hi. unfold n in *. lia. }
  assert (Hs : (0 < Z.of_nat step)%Z) by lia.
  destruct (Nat.eq_dec n 0) as [Hn0|Hn0].
  - rewrite Hn0 in *. cbn [Z.of_nat] in *.
    assert ((stop + Z.of_nat step - 1) / Z.of_nat step <= 0)%Z; [|lia].
    apply Z.lt_succ_r. apply Z.div_lt_upper_bound; lia.
  - specialize (Hlast Hn0).
    assert (Hq : ((stop + Z.of_nat step - 1) / Z.of_nat step = Z.of_nat n)%Z).
    { symmetry. apply Z.div_unique with (r := (stop + Z.of_nat step - 1
                                               - Z.of_nat step * Z.of_nat n)%Z);
        [|lia].
      left. replace (Z.of_nat (n - 1)) with (Z.of_nat n - 1)%Z in Hlast by lia. nia. }
    lia.
Qed.

(** X10: only full blocks are analysed. Every block the loop of
    [process_file] hands to [_process_block] has exactly BLOCK samples
    (no shorter tail block is ever windowed), and there are
    ceil((len - BLOCK) / hop) of them for a file longer than BLOCK, with
    hop = BLOCK // 2, and none for a shorter one. *)
Theorem blocks_are_full_and_counted (c : config F) (audio : list F) (offsets : list Z)
        (n0 : Z) :
  py_range (Z.of_nat (length audio) - Z.of_nat (BLOCK c)) (BLOCK c / 2) = Some offsets ->
  Forall (fun bn => length (fst bn) = BLOCK c) (block_inputs c audio offsets n0)
  /\ Z.of_nat (length (block_inputs c audio offsets n0))
     = Z.max 0 ((Z.of_nat (length audio) - Z.of_nat (BLOCK c) + Z.of_nat (BLOCK c / 2) - 1)
                / Z.of_nat (BLOCK c / 2)).
Proof.
  intros Hr. split.
  - apply block_inputs_full. apply py_range_offsets in Hr.
    eapply Forall_impl; [|exact Hr]. cbn beta. intros i Hi. lia.
  - rewrite block_inputs_length. now apply py_range_length.
Qed.

Lemma rho_vals_length (s : bank F) : length (rho_vals s) <= length (tracks s).
Proof.
  rewrite rho_vals_spec, length_map.
  etransitivity; [apply filter_length_le|].
  unfold bank_hists. induction (tracks s) as [|e d IH]; cbn [flat_map length]; [lia|].
  rewrite length_app. destruct (nth_error (heap s) (snd e)); cbn [length]; lia.
Qed.

Lemma rho_lists_length (c : config F) (inputs : list (list F * Z)) :
  forall s : bank F, length (rho_lists c inputs s) = length inputs.
Proof.
  induction inputs as [|bn inputs IH]; intros s; cbn [rho_lists length]; [reflexivity|].
  now rewrite IH.
Qed.

(** X11: how many correlations there can be. A block yields at most one
    correlation per entry of the dict it leaves, and a file at most one
    block value per analysed block. *)
Theorem correlations_are_counted (c : config F) (audio : list F) (offsets : list Z) :
  (forall (b : list F) (n0 : Z) (s : bank F),
      length (snd (_process_block c b n0 s))
      <= length (tracks (fst (_process_block c b n0 s))))
  /\ length (all_rho_values (fold_left (drive_block c audio) offsets loop_init))
     <= length offsets.
Proof.
  split.
  - intros b n0 s. unfold _process_block. destruct (silent b); cbn [fst snd length]; [lia|].
    apply rho_vals_length.
  - rewrite (proj2 (fold_drive_run c audio offsets loop_init)). cbn [all_rho_values loop_init app].
    unfold block_values. rewrite length_map.
    etransitivity; [apply filter_length_le|].
    now rewrite rho_lists_length, block_inputs_length.
Qed.
End Blocks.

Section BlocksExample.
Import Exact.

Lemma blocks_are_full_and_counted_witness :
  Forall (fun bn => length (fst bn) = BLOCK cfg_four)
         (block_inputs cfg_four audio_nine [0; 2; 4]%Z 0)
  /\ Z.of_nat (length (block_inputs cfg_four audio_nine [0; 2; 4]%Z 0))
     = Z.max 0 ((Z.of_nat (length audio_nine) - Z.of_nat (BLOCK cfg_four)
                 + Z.of_nat (BLOCK cfg_four / 2) - 1)
                / Z.of_nat (BLOCK cfg_four / 2)).
Proof.
  apply (blocks_are_full_and_counted cfg_four audio_nine [0; 2; 4]%Z 0).
  reflexivity.
Defined.
End BlocksExample.

(** ** Exact arithmetic: matching a peak to a track *)

Section ExactMatch.
Import Exact.
#[local] Open Scope R_scope.

Lemma nearest_step (f k0 k1 : R) (r1 : nat) :
  nearest f (Some k0, Some (Rabs (k0 - f))) (k1, r1)
  = if Rlt_dec (Rabs (k1 - f)) (Rabs (k0 - f))
    then (Some k1, Some (Rabs (k1 - f)))
    else (Some k0, Some (Rabs (k0 - f))).
Proof.
  unfold nearest. cbn [fst snd err_lt flt fabs fsub arith]. unfold Rltb.
  now destruct (Rlt_dec _ _).
Qed.

(** The scan of [_match_track], started on a key, ends on a nearest key. *)
Lemma nearest_fold_exact (f : R) (d : dict R nat) :
  forall k0 : R,
  exists k : R,
    fold_left (nearest f) d (Some k0, Some (Rabs (k0 - f))) = (Some k, Some (Rabs (k - f)))
    /\ (k = k0 \/ exists r, In (k, r) d)
    /\ Rabs (k - f) <= Rabs (k0 - f)
    /\ forall (k' : R) (r' : nat), In (k', r') d -> Rabs (k - f) <= Rabs (k' - f).
Proof.
  induction d as [|[k1 r1] d IH]; intros k0; cbn [fold_left].
  - exists k0. split; [reflexivity|]. split; [now left|]. split; [lra|]. intros k' r' [].
  - rewrite nearest_step. destruct (Rlt_dec (Rabs (k1 - f)) (Rabs (k0 - f))) as [Hlt|Hge].
    + destruct (IH k1) as (k & E & Hk & Hle & Hmin). exists k. split; [exact E|].
      split; [|split].
      * destruct Hk as [->|[r Hr]]; right; [exists r1; now left|exists r; now right].
      * lra.
      * intros k' r' [[= <- <-]|Hin]; [exact Hle|now apply (Hmin k' r')].
    + destruct (IH k0) as (k & E & Hk & Hle & Hmin). exists k. split; [exact E|].
      split; [|split].
      * destruct Hk as [->|[r Hr]]; [now left|right; exists r; now right].
      * exact Hle.
      * intros k' r' [[= <- <-]|Hin]; [lra|now apply (Hmin k' r')].
Qed.

Lemma match_track_exact (c : config R) (s : bank R) (f : R) :
  tracks s <> [] ->
  exists k : R,
    (exists r, In (k, r) (tracks s))
    /\ (forall (k' : R) (r' : nat), In (k', r') (tracks s) -> Rabs (k - f) <= Rabs (k' - f))
    /\ _match_track c s f = if Rle_dec (Rabs (k - f)) (TOL_HZ c) then Some k else None.
Proof.
  intros Hne. unfold _match_track. destruct (tracks s) as [|[k1 r1] d]; [contradiction|].
  cbn [fold_left].
  change (nearest f (None, None) (k1, r1)) with (Some k1, Some (Rabs (k1 - f))).
  destruct (nearest_fold_exact f d k1) as (k & E & Hk & Hle & Hmin). rewrite E.
  exists k. split; [|split].
  - destruct Hk as [->|[r Hr]]; [exists r1; now left|exists r; now right].
  - intros k' r' [[= <- <-]|Hin]; [exact Hle|now apply (Hmin k' r')].
  - cbn [fst snd err_le fle arith]. unfold Rleb. now destruct (Rle_dec _ _).
Qed.

Lemma match_track_nearest (c : config R) (s : bank R) (f k : R) :
  _match_track c s f = Some k ->
  (exists r, In (k, r) (tracks s))
  /\ Rabs (k - f) <= TOL_HZ c
  /\ forall (k' : R) (r' : nat), In (k', r') (tracks s) -> Rabs (k - f) <= Rabs (k' - f).
Proof.
  intros Hm. destruct (tracks s) as [|e d] eqn:Hd.
  - unfold _match_track in Hm. rewrite Hd in Hm. discriminate.
  - assert (Hne : tracks s <> []) by (rewrite Hd; discriminate).
    destruct (match_track_exact c s f Hne) as (k0 & Hin & Hmin & E).
    rewrite Hd in *. rewrite E in Hm.
    destruct (Rle_dec _ _) as [Hle|]; [|discriminate]. injection Hm as <-.
    now repeat split.
Qed.

(** X15: [_match_track] answers with the nearest key. The key it returns
    is a key of the dict within TOL_HZ of the peak (inclusive) that no
    other key is nearer to the peak than; it answers None exactly when
    every key is farther than TOL_HZ from the peak. *)
Theorem match_is_the_nearest_key (c : config R) (s : bank R) (f : R) :
  (forall k : R,
      _match_track c s f = Some k ->
      (exists r, In (k, r) (tracks s))
      /\ Rabs (k - f) <= TOL_HZ c
      /\ forall (k' : R) (r' : nat), In (k', r') (tracks s) -> Rabs (k - f) <= Rabs (k' - f))
  /\ (_match_track c s f = None <->
      forall (k : R) (r : nat), In (k, r) (tracks s) -> TOL_HZ c < Rabs (k - f)).
Proof.
  split; [intros k; apply match_track_nearest|].
  destruct (tracks s) as [|e d] eqn:Hd.
  - unfold _match_track. rewrite Hd. split; [intros _ k r []|reflexivity].
  - assert (Hne : tracks s <> []) by (rewrite Hd; discriminate).
    destruct (match_track_exact c s f Hne) as (k0 & [r0 Hin] & Hmin & E).
    rewrite Hd in *. rewrite E. destruct (Rle_dec _ _) as [Hle|Hgt].
    + split; [discriminate|]. intros H. specialize (H k0 r0 Hin). lra.
    + split; [|reflexivity]. intros _ k r Hk. specialize (Hmin k r Hk). lra.
Qed.
End ExactMatch.

(** ** Exact arithmetic: the silence guard *)

Section ExactSilence.
Import Exact.
#[local] Open Scope R_scope.

Lemma sum_sq_quiet (x : list R) :
  Forall (fun v => Rabs v < / 10 ^ 5) x ->
  sum (map sq x) <= INR (length x) * / 10 ^ 10
  /\ (x <> [] -> sum (map sq x) < INR (length x) * / 10 ^ 10).
Proof.
  assert (Hsq : forall v, Rabs v < / 10 ^ 5 -> v * v < / 10 ^ 10).
  { intros v Hv. pose proof (Rabs_pos v) as Hp.
    replace (v * v) with (Rabs v * Rabs v)
      by (unfold Rabs; destruct (Rcase_abs v); lra).
    replace (/ 10 ^ 10) with (/ 10 ^ 5 * / 10 ^ 5) by (field_simplify; lra).
    apply Rmult_le_0_lt_compat; assumption. }
  induction 1 as [|v x Hv Hx [IH1 IH2]].
  - cbn. split; [lra|contradiction].
  - cbn [map]. rewrite sum_cons. change (length (v :: x)) with (S (length x)).
    rewrite S_INR. specialize (Hsq v Hv). unfold sq at 1. unfold sq at 2.
    cbn [fmul arith]. split; [lra|intros _; lra].
Qed.

Lemma quiet_block_is_silent (x : list R) :
  x <> [] -> Forall (fun v => Rabs v < / 10 ^ 5) x -> silent x = true.
Proof.
  intros Hne Hq. unfold silent. rewrite np_mean_exact, length_map.
  cbn [flt arith lit_1e_10]. apply Rltb_true.
  destruct (sum_sq_quiet x Hq) as [_ H]. specialize (H Hne).
  assert (HN : 0 < INR (length x)).
  { apply lt_0_INR. destruct x; [contradiction|cbn; lia]. }
  apply Rmult_lt_reg_r with (INR (length x)); [exact HN|].
  unfold Rdiv. rewrite Rmult_assoc, Rinv_l by lra. lra.
Qed.

Lemma slice_incl (audio : list R) (i : Z) (len : nat) (v : R) :
  In v (slice audio i len) -> In v audio.
Proof.
  unfold slice. intros Hv.
  rewrite <- (firstn_skipn (Z.to_nat i) audio). apply in_or_app. right.
  rewrite <- (firstn_skipn len (skipn (Z.to_nat i) audio)). apply in_or_app. now left.
Qed.

Lemma quiet_blocks_pass (c : config R) (audio : list R) (offsets : list Z) :
  BLOCK c <> 0%nat ->
  Forall (fun v => Rabs v < / 10 ^ 5) audio ->
  Forall (fun i => 0 <= i /\ i + Z.of_nat (BLOCK c) <= Z.of_nat (length audio))%Z offsets ->
  forall ls : loop_state R,
    ls_bank (fold_left (drive_block c audio) offsets ls) = ls_bank ls
    /\ all_rho_values (fold_left (drive_block c audio) offsets ls) = all_rho_values ls.
Proof.
  intros Hb Hq. induction 1 as [|i offsets [Hi1 Hi2] _ IH]; intros ls; cbn [fold_left];
    [now split|].
  destruct (IH (drive_block c audio ls i)) as [E1 E2]. rewrite E1, E2.
  assert (Hs : silent (slice audio i (BLOCK c)) = true).
  { apply quiet_block_is_silent.
    - intros E. pose proof (slice_length audio i (BLOCK c) Hi1 Hi2) as Hl.
      rewrite E in Hl. cbn in Hl. lia.
    - apply Forall_forall. intros v Hv. apply slice_incl in Hv.
      rewrite Forall_forall in Hq. now apply Hq. }
  unfold drive_block. rewrite (process_block_silent c _ (ls_n0 ls) (ls_bank ls) Hs).
  now split.
Qed.

(** X20: a file that is quiet throughout leaves no trace. When every
    sample of a file is below 1e-5 in absolute value, every block falls
    under the silence guard (mean square below 1e-10): no track is ever
    created and the file is reported with rho_mean_abs = 0. *)
Theorem quiet_file_yields_zero (c : config R) (audio : list R) :
  (2 <= BLOCK c)%nat ->
  Forall (fun v => Rabs v < / 10 ^ 5) audio ->
  process_file (init c) (Some (audio, FS c))
  = ({| cfg := c; state := empty_bank |}, Row 0).
Proof.
  intros Hb Hq.
  destruct (py_range (Z.of_nat (length audio) - Z.of_nat (BLOCK c)) (BLOCK c / 2))
    as [offsets|] eqn:Hr.
  - rewrite (process_file_ok (init c) audio offsets Hr). cbn [cfg init].
    assert (Hoff : Forall (fun i => 0 <= i /\ i + Z.of_nat (BLOCK c)
                                              <= Z.of_nat (length audio))%Z offsets).
    { apply py_range_offsets in Hr. eapply Forall_impl; [|exact Hr].
      cbn beta. intros i Hi. lia. }
    destruct (quiet_blocks_pass c audio offsets ltac:(lia) Hq Hoff loop_init) as [E1 E2].
    rewrite E1, E2. reflexivity.
  - exfalso. unfold py_range in Hr.
    destruct (BLOCK c / 2)%nat eqn:Hh; [|discriminate].
    apply Nat.div_small_iff in Hh; lia.
Qed.
End ExactSilence.

Section ExactSilenceExample.
Import Exact.
#[local] Open Scope R_scope.

Lemma quiet_file_yields_zero_witness :
  process_file (init cfg_four) (Some (audio_nine, FS cfg_four))
  = ({| cfg := cfg_four; state := empty_bank |}, Row 0).
Proof.
  apply (quiet_file_yields_zero cfg_four audio_nine).
  - cbn. lia.
  - unfold audio_nine. apply Forall_forall. intros v Hv. apply repeat_spec in Hv. subst v.
    rewrite Rabs_R0. apply Rinv_0_lt_compat. apply pow_lt. lra.
Defined.
End ExactSilenceExample.

(** ** A new track *)

Section Spawn.
Context {F : Type} {A : Arith F} {L : NumPy F}.

Lemma dict_set_after (k f : F) (v : nat) (d : dict F nat) :
  dict_find k d = None ->
  dict_set k v (d ++ [(f, v)]) = if feq f k then d ++ [(f, v)] else d ++ [(f, v); (k, v)].
Proof.
  induction d as [|[k' r'] d IH]; cbn [dict_find dict_set app].
  - intros _. now destruct (feq f k).
  - destruct (feq k' k); [discriminate|]. intros H. rewrite (IH H).
    now destruct (feq f k).
Qed.

Lemma store_set_last {T : Type} (h : list T) (v w : T) :
  store_set (length h) w (h ++ [v]) = h ++ [w].
Proof.
  induction h as [|u h IH]; [reflexivity|]. cbn [length app store_set]. now rewrite IH.
Qed.

Lemma spawn_peak (c : config F) (x : list F) (n0 : Z) (s : bank F) (f : F) :
  is_number f ->
  _match_track c s f = None ->
  dict_mem f (tracks s) = false ->
  length (tracks s) < MAX_TRACKS c ->
  process_peak c x n0 s f
  = {| tracks := dict_set (ema f f) (length (heap s)) (tracks s ++ [(f, length (heap s))]);
       heap := heap s ++ [update_track c x n0 f (new_track c f)] |}.
Proof.
  intros Hnum Hm Hmem Hroom.
  assert (Hf : dict_find f (tracks s) = None).
  { unfold dict_mem in Hmem. now destruct (dict_find f (tracks s)). }
  unfold process_peak, resolve_peak, _ensure_track. rewrite Hm, Hmem.
  destruct (Nat.leb_spec (MAX_TRACKS c) (length (tracks s))) as [Hle|_]; [lia|].
  cbn [tracks heap].
  rewrite (dict_find_last f (length (heap s)) (tracks s) Hnum Hf).
  rewrite nth_error_app2, Nat.sub_diag by lia. cbn [nth_error].
  unfold is_number in Hnum. rewrite Hnum. cbn [negb].
  rewrite store_set_last. reflexivity.
Qed.

(** X21: a new track starts at the blend of its bin with itself. A peak
    that is a number, matches no track, is no key of the dict and finds
    room opens one track object, the update of a fresh state: its center
    is 0.9 f + 0.1 f, its phase reference the phase of the block at that
    frequency, its one estimate that frequency with the deviation of a
    zero phase advance. The dict gets the key [f]; when the blend is not
    [f] (and is no key yet) it gets the blend as a second key of the same
    object. *)
Theorem new_track_starts_at_its_bin (c : config F) (x : list F) (n0 : Z) (s : bank F)
        (f : F) :
  is_number f ->
  _match_track c s f = None ->
  dict_mem f (tracks s) = false ->
  length (tracks s) < MAX_TRACKS c ->
  let st := update_track c x n0 f (new_track c f) in
  let dt := fdiv (of_int (Z.of_nat (length x))) (of_int (FS c)) in
  heap (process_peak c x n0 s f) = heap s ++ [st]
  /\ tracks (process_peak c x n0 s f)
     = dict_set (ema f f) (length (heap s)) (tracks s ++ [(f, length (heap s))])
  /\ (dict_find (ema f f) (tracks s) = None ->
      tracks (process_peak c x n0 s f)
      = if feq f (ema f f) then tracks s ++ [(f, length (heap s))]
        else tracks s ++ [(f, length (heap s)); (ema f f, length (heap s))])
  /\ f0 st = ema f f
  /\ prev_phase st = Some (block_phase c (ema f f) x n0)
  /\ finst_hist st
     = deque_append (SMOOTH c) [] (fadd (ema f f) (fdiv (fdiv zero (fmul two np_pi)) dt))
  /\ seen st = true.
Proof.
  intros Hnum Hm Hmem Hroom st dt.
  rewrite (spawn_peak c x n0 s f Hnum Hm Hmem Hroom). cbn [tracks heap].
  split; [reflexivity|]. split; [reflexivity|]. split; [|now repeat split].
  intros Hfresh. now apply dict_set_after.
Qed.
End Spawn.

Section SpawnExample.
Import Binary64.
#[local] Set Warnings "-inexact-float".
#[local] Open Scope float_scope.

Lemma new_track_starts_at_its_bin_witness :
  ema 672 672 = 672.0000000000001
  /\ forall m : library,
      let st := update_track (L := numpy m) cfg_1000 [1] 0 672 (new_track cfg_1000 672) in
      let dt := fdiv (of_int (Z.of_nat (length [1]))) (of_int (FS cfg_1000)) in
      heap (process_peak (L := numpy m) cfg_1000 [1] 0 empty_bank 672)
      = heap empty_bank ++ [st]
      /\ tracks (process_peak (L := numpy m) cfg_1000 [1] 0 empty_bank 672)
         = dict_set (ema 672 672) (length (heap (empty_bank (F := float))))
                    (tracks empty_bank ++ [(672, length (heap (empty_bank (F := float))))])
      /\ (dict_find (ema 672 672) (tracks (empty_bank (F := float))) = None ->
          tracks (process_peak (L := numpy m) cfg_1000 [1] 0 empty_bank 672)
          = if feq 672 (ema 672 672)
            then tracks empty_bank ++ [(672, length (heap (empty_bank (F := float))))]
            else tracks empty_bank
                 ++ [(672, length (heap (empty_bank (F := float))));
                     (ema 672 672, length (heap (empty_bank (F := float))))])
      /\ f0 st = ema 672 672
      /\ prev_phase st = Some (block_phase (L := numpy m) cfg_1000 (ema 672 672) [1] 0)
      /\ finst_hist st
         = deque_append (SMOOTH cfg_1000) []
                        (fadd (ema 672 672) (fdiv (fdiv zero (fmul two np_pi)) dt))
      /\ seen st = true.
Proof.
  split; [reflexivity|]. intros m.
  apply (new_track_starts_at_its_bin (L := numpy m) cfg_1000 [1] 0 empty_bank 672).
  - reflexivity.
  - reflexivity.
  - reflexivity.
  - cbn. lia.
Defined.
End SpawnExample.

(** ** The result file and the experiment *)

Section Experiment.
Import String.
Context {F : Type} {A : Arith F} {L : NumPy F}.

Lemma process_file_row (a : analyzer F) (wav : option (list F * Z)) :
  (exists rho, snd (process_file a wav) = Row rho)
  <-> (exists audio, wav = Some (audio, FS (cfg a))) /\ 2 <= BLOCK (cfg a).
Proof.
  unfold process_file. destruct wav as [[audio fs]|]; cbn [snd].
  - destruct (Z.eqb_spec fs (FS (cfg a))) as [->|Hne]; cbn [negb snd].
    + unfold py_range. destruct (BLOCK (cfg a) / 2) as [|h] eqn:Hh; cbn [snd].
      * apply Nat.div_small_iff in Hh; [|lia].
        split; [intros [rho H]; discriminate|intros [_ H]; lia].
      * assert (2 <= BLOCK (cfg a)).
        { destruct (Nat.lt_ge_cases (BLOCK (cfg a)) 2) as [Hlt|Hge]; [|exact Hge].
          apply Nat.div_small in Hlt. lia. }
        split; [intros _; split; [eauto|assumption]|intros _; eauto].
    + split; [intros [rho H]; discriminate|].
      intros [[audio' [= -> ->]] _]. contradiction.
  - split; [intros [rho H]; discriminate|intros [[audio H] _]; discriminate].
Qed.

(** X22: when a row is written. [process_file] appends a line to the
    result file exactly when the file was read with the sample rate of the
    analyzer and BLOCK is at least 2; the line comes after everything the
    file held and carries the labels of the call unchanged. In every other
    case (unreadable file, other sample rate, a hop of zero samples) the
    result file is left as it was. *)
Theorem row_written_iff_analysed (a : analyzer F) (out : csv F) (wav : option (list F * Z))
        (tid : Z) (cond : string) (param : Z) (now : F) :
  let '(_, o, out') := process_file_csv a out wav tid cond param now in
  ((exists audio, wav = Some (audio, FS (cfg a))) /\ 2 <= BLOCK (cfg a) ->
   exists rho,
     o = Row rho
     /\ out' = append_line out (Data {| trial_id := tid; condition := cond;
                                        param_compressao := param; rho_mean_abs := rho;
                                        timestamp := now |}))
  /\ (~ ((exists audio, wav = Some (audio, FS (cfg a))) /\ 2 <= BLOCK (cfg a)) ->
      out' = out /\ (o = Skipped \/ o = Raised)).
Proof.
  pose proof (process_file_row a wav) as Hrow.
  unfold process_file_csv. destruct (process_file a wav) as [a' o]. cbn [snd] in Hrow.
  destruct o as [| |rho].
  - split; [intros H; apply Hrow in H; destruct H; discriminate|auto].
  - split; [intros H; apply Hrow in H; destruct H; discriminate|auto].
  - split; [intros _; eauto|]. intros H. exfalso. apply H, Hrow. eauto.
Qed.

Lemma process_file_not_raised (a : analyzer F) (wav : option (list F * Z)) :
  BLOCK (cfg a) / 2 <> 0 -> snd (process_file a wav) <> Raised.
Proof.
  intros Hh. unfold process_file. destruct wav as [[audio fs]|]; cbn [snd]; [|discriminate].
  destruct (negb (fs =? FS (cfg a))%Z); cbn [snd]; [discriminate|].
  unfold py_range. destruct (BLOCK (cfg a) / 2); [contradiction|]. cbn [snd]. discriminate.
Qed.

Lemma run_task_step (w : world F) (a : analyzer F) (ls : list (line F)) (t : task) :
  cfg a = ANALYZER_CONFIG ->
  exists a' : analyzer F,
    cfg a' = ANALYZER_CONFIG
    /\ run_task w (a, Some ls, false) t = (a', Some (ls ++ task_lines w t), false).
Proof.
  intros Hc. unfold run_task, process_file_csv, task_lines.
  rewrite (process_file_outcome (init ANALYZER_CONFIG) a (recorded w t))
    by (now rewrite Hc).
  pose proof (process_file_cfg a (recorded w t)) as Hc'.
  assert (Hnr : snd (process_file a (recorded w t)) <> Raised).
  { apply process_file_not_raised. rewrite Hc. discriminate. }
  destruct (process_file a (recorded w t)) as [a' o]. cbn [fst snd] in *.
  exists a'. split; [now rewrite Hc'|].
  destruct o as [| |rho]; cbn [append_line].
  - now rewrite app_nil_r.
  - contradiction.
  - reflexivity.
Qed.

Lemma run_tasks_fold (w : world F) (order : list task) :
  forall (a : analyzer F) (ls : list (line F)),
    cfg a = ANALYZER_CONFIG ->
    exists a' : analyzer F,
      fold_left (run_task w) order (a, Some ls, false)
      = (a', Some (ls ++ flat_map (task_lines w) order), false).
Proof.
  induction order as [|t order IH]; intros a ls Hc; cbn [fold_left flat_map].
  - exists a. now rewrite app_nil_r.
  - destruct (run_task_step w a ls t Hc) as (a1 & Hc1 & E). rewrite E.
    destruct (IH a1 (ls ++ task_lines w t) Hc1) as (a' & E'). exists a'.
    now rewrite E', <- app_assoc.
Qed.

Lemma main_result (w : world F) (before : csv F) :
  main w before
  = (Some (Header header :: flat_map (task_lines w) (shuffle w tasks)), false).
Proof.
  assert (E0 : main w before = main w None) by now destruct before.
  rewrite E0. unfold main, new_analyzer, _init_csv. cbn beta iota zeta.
  destruct (run_tasks_fold w (shuffle w tasks) (init ANALYZER_CONFIG) [Header header]
                           eq_refl) as (a' & E).
  unfold csv in *. rewrite E. reflexivity.
Qed.

(** X23: the result file of an experiment. Whatever the file held before,
    whatever the order of the tasks and the signals, [main] ends without
    an exception of the analyzer and leaves a file that holds the header
    followed, in the order of execution, by one row for each task whose
    signal was read back at 48 kHz, and nothing for the others; the
    [rho_mean_abs] of a row is the one a fresh analyzer gives for that
    signal alone. *)
Theorem experiment_result_file (w : world F) (before : csv F) :
  main w before
  = (Some (Header header :: flat_map (task_lines w) (shuffle w tasks)), false)
  /\ forall t : task,
      task_lines w t
      = match snd (process_file (init ANALYZER_CONFIG) (recorded w t)) with
        | Row rho => [Data {| trial_id := task_trial_id t; condition := task_condition t;
                              param_compressao := task_param_compressao t;
                              rho_mean_abs := rho; timestamp := clock w t |}]
        | _ => []
        end.
Proof.
  split; [apply main_result|reflexivity].
Qed.

Lemma task_lines_read (w : world F) (t : task) (audio : list F) :
  recorded w t = Some (audio, 48000%Z) ->
  exists r : row F,
    task_lines w t = [Data r]
    /\ (trial_id r, condition r, param_compressao r) = task_key t.
Proof.
  intros Hr. unfold task_lines.
  destruct (proj2 (process_file_row (init ANALYZER_CONFIG) (recorded w t))) as [rho E].
  { split; [exists audio; exact Hr|]. cbn. lia. }
  rewrite E. eexists. split; reflexivity.
Qed.

Lemma flat_map_task_lines (w : world F) (order : list task) :
  (forall t, exists audio, recorded w t = Some (audio, 48000%Z)) ->
  exists rows : list (row F),
    flat_map (task_lines w) order = map Data rows
    /\ map (fun r => (trial_id r, condition r, param_compressao r)) rows
       = map task_key order.
Proof.
  intros Hrec. induction order as [|t order (rows & E1 & E2)]; cbn [flat_map map].
  - exists []. now split.
  - destruct (Hrec t) as [audio Ha].
    destruct (task_lines_read w t audio Ha) as (r & Er & Ek).
    exists (r :: rows). rewrite Er, E1. cbn [app map]. split; [reflexivity|].
    now rewrite Ek, E2.
Qed.

Lemma tasks_shape :
  List.length tasks = 60
  /\ Forall (fun t => (1 <= task_trial_id t <= 30)%Z
                      /\ ((task_condition t = "A"%string /\ task_param_compressao t = 0%Z)
                          \/ (task_condition t = "B"%string
                              /\ task_param_compressao t = 500%Z)))
            tasks.
Proof.
  split; [reflexivity|]. unfold tasks. apply Forall_flat_map.
  apply Forall_forall. intros i Hi. apply in_seq in Hi. unfold N_TRIALS in Hi.
  constructor; [|constructor; [|constructor]]; cbn [task_trial_id task_condition
                                                       task_param_compressao].
  - split; [lia|left; now split].
  - split; [lia|right; now split].
Qed.

(** X24: one row per trial and condition. When the shuffle is a
    permutation and every signal is read back at 48 kHz, the result file
    of [main] is the header and 60 rows whose labels (trial, condition,
    parameter) are, up to the order, those of the 60 tasks: each trial
    1 .. 30 once under condition A with parameter 0 and once under B with
    parameter 500. *)
Theorem experiment_rows_cover_trials (w : world F) (before : csv F) :
  (forall l : list task, Permutation l (shuffle w l)) ->
  (forall t : task, exists audio, recorded w t = Some (audio, 48000%Z)) ->
  exists rows : list (row F),
    main w before = (Some (Header header :: map Data rows), false)
    /\ List.length rows = 60
    /\ Permutation (map task_key tasks)
                   (map (fun r => (trial_id r, condition r, param_compressao r)) rows)
    /\ Forall (fun r => (1 <= trial_id r <= 30)%Z
                        /\ ((condition r = "A"%string /\ param_compressao r = 0%Z)
                            \/ (condition r = "B"%string /\ param_compressao r = 500%Z)))
              rows.
Proof.
  intros Hperm Hrec.
  destruct (flat_map_task_lines w (shuffle w tasks) Hrec) as (rows & E1 & E2).
  exists rows. rewrite main_result, E1. split; [reflexivity|].
  assert (Hp : Permutation (map task_key tasks)
                           (map (fun r => (trial_id r, condition r, param_compressao r))
                                rows)).
  { rewrite E2. apply Permutation_map, Hperm. }
  destruct tasks_shape as [Hlen Hall].
  split; [|split; [exact Hp|]].
  - apply Permutation_length in Hp. rewrite !length_map in Hp. now rewrite <- Hp.
  - assert (Hkeys : Forall (fun k => (1 <= fst (fst k) <= 30)%Z
                                     /\ ((snd (fst k) = "A"%string /\ snd k = 0%Z)
                                         \/ (snd (fst k) = "B"%string /\ snd k = 500%Z)))
                           (map task_key tasks)).
    { apply Forall_map. exact Hall. }
    eapply Permutation_Forall in Hkeys; [|exact Hp].
    apply Forall_map in Hkeys. exact Hkeys.
Qed.
End Experiment.

Section ExperimentExample.
Import String.
Import Exact.

Lemma experiment_rows_cover_trials_witness :
  exists rows : list (row R),
    main {| shuffle := @rev task; recorded := fun _ => Some ([], 48000%Z);
            clock := fun _ => 0%R |} None
    = (Some (Header header :: map Data rows), false)
    /\ List.length rows = 60
    /\ Permutation (map task_key tasks)
                   (map (fun r => (trial_id r, condition r, param_compressao r)) rows)
    /\ Forall (fun r => (1 <= trial_id r <= 30)%Z
                        /\ ((condition r = "A"%string /\ param_compressao r = 0%Z)
                            \/ (condition r = "B"%string /\ param_compressao r = 500%Z)))
              rows.
Proof.
  apply (experiment_rows_cover_trials
           {| shuffle := @rev task; recorded := fun _ => Some ([], 48000%Z);
              clock := fun _ => 0%R |} None).
  - intros l. apply Permutation_rev.
  - intros t. exists []. reflexivity.
Defined.
End ExperimentExample.

(** ** The test signals *)

Section SignalFacts.
Context {F : Type} {A : Arith F} {L : NumPy F}.
Variable single : F -> F.
Variable mean32 : list F -> F.

Lemma np_linspace_length (start stop : F) (num : nat) (endpoint : bool) :
  length (np_linspace start stop num endpoint) = num.
Proof.
  unfold np_linspace.
  set (y := map (fun v => fadd v start) _).
  assert (Hy : length y = num).
  { unfold y. rewrite length_map.
    destruct (0 <? _)%nat; [destruct (feq _ _)|]; now rewrite !length_map, length_seq. }
  destruct (endpoint && (1 <? num)%nat) eqn:E; [|exact Hy].
  apply andb_prop in E. destruct E as [_ E]. apply Nat.ltb_lt in E.
  rewrite length_app, removelast_firstn_len, length_firstn. cbn [length]. lia.
Qed.

Lemma add_arrays_length (sinal component : list F) :
  length component = length sinal ->
  length (add_arrays single sinal component) = length sinal.
Proof.
  intros H. unfold add_arrays. rewrite length_map, length_combine. lia.
Qed.

Lemma mix_length {T : Type} (h : list F -> T -> list F) (n : nat) (parts : list T) :
  (forall s p, length s = n -> length (h s p) = n) ->
  forall sinal : list F, length sinal = n -> length (fold_left h parts sinal) = n.
Proof.
  intros Hh. induction parts as [|p parts IH]; intros sinal Hs; cbn [fold_left];
    [exact Hs|].
  apply IH. now apply Hh.
Qed.

Lemma normalize_rms_length (sinal : list F) :
  length (normalize_rms single mean32 sinal) = length sinal.
Proof. unfold normalize_rms. now rewrite length_map. Qed.

Lemma sinal_A_length (duracao_s fs n_freqs : nat) (f_min f_max : F) (uniform : nat -> F) :
  length (sinal_A single duracao_s fs n_freqs f_min f_max uniform) = (duracao_s * fs)%nat.
Proof.
  unfold sinal_A. cbn zeta.
  set (t := np_linspace zero (of_int (Z.of_nat duracao_s)) (duracao_s * fs) false).
  assert (Ht : length t = (duracao_s * fs)%nat) by apply np_linspace_length.
  apply mix_length; [|now rewrite length_map].
  intros s [[f a] p] Hs. rewrite add_arrays_length; [exact Hs|].
  now rewrite length_map, Hs.
Qed.

Lemma sinal_B_length (duracao_s fs : nat) (chirp_rate : F) (n_freqs : nat)
      (f_min f_max : F) (vary_phases : bool) (chirp_jitter_sigma : F)
      (uniform normal : nat -> F) :
  length (sinal_B single duracao_s fs chirp_rate n_freqs f_min f_max vary_phases
                  chirp_jitter_sigma uniform normal)
  = (duracao_s * fs)%nat.
Proof.
  unfold sinal_B. cbn zeta.
  set (t := np_linspace zero (of_int (Z.of_nat duracao_s)) (duracao_s * fs) false).
  assert (Ht : length t = (duracao_s * fs)%nat) by apply np_linspace_length.
  apply mix_length; [|now rewrite length_map].
  intros s [i [[f a] p]] Hs. rewrite add_arrays_length; [exact Hs|].
  now rewrite length_map, Hs.
Qed.

(** X25: the length of a test signal. Both generators return
    duracao_s * fs samples, whatever the number of components, the band,
    the chirp rate and the random draws: 480000 samples for the 10 s at
    48 kHz of the experiment. This holds in every arithmetic, and for any
    rounding of the samples to float32. *)
Theorem signals_have_the_requested_length (duracao_s fs : nat) (chirp_rate : F)
        (n_freqs : nat) (f_min f_max : F) (vary_phases : bool) (chirp_jitter_sigma : F)
        (uniform normal : nat -> F) :
  length (gerar_sinal_protocolo_A single mean32 duracao_s fs n_freqs f_min f_max uniform)
  = (duracao_s * fs)%nat
  /\ length (gerar_sinal_protocolo_B single mean32 duracao_s fs chirp_rate n_freqs
                                     f_min f_max vary_phases chirp_jitter_sigma
                                     uniform normal)
     = (duracao_s * fs)%nat.
Proof.
  unfold gerar_sinal_protocolo_A, gerar_sinal_protocolo_B.
  rewrite !normalize_rms_length. split; [apply sinal_A_length|apply sinal_B_length].
Qed.
End SignalFacts.
